(** * The query editor of the composer: src/core/query.ts

    A shallow embedding of [QueryBuilder] (the tree editor), of the schema
    navigation it inherits from [SourceUtils], and of the part of
    [QueryWriter] that lays out filter clauses.

    Conventions of the embedding.
    - The pipeline tree is a value.  [stageAtPath] hands the caller the stage
      found at a path; an assignment through that reference
      ([stage.limit = n], [stage.fields.splice(..)]) is the write-back
      [writeStage] at the same path.  Objects that the program shares instead
      of copying (the pipeline handed to [setQuery], the [orderBy] array that
      [loadQuery] takes from the definition) are taken not to be reached from
      elsewhere; where the program copies, [jsonCopy] marks the place.
    - A method is a computation [M A]: it receives the builder and returns
      either a value or the exception thrown, together with the builder as the
      call left it.  Writes made before a [throw] therefore stay.
    - [x || y] on an optional string takes [y] also for the empty string,
      [if (n)] on a number is false for 0, [a[i]] out of range is
      [undefined], and a property read on [undefined] is a [TypeError].
    - [QueryFieldDef] is a tagged union: [typeof f === "string"],
      [isFilteredAliasedName(f)] and [f.type === "turtle"] are the tests for
      its variants.  [isFilteredAliasedName(undefined)] enumerates the keys of
      [undefined], a [TypeError].
    - Array indices are natural numbers.
    - The trees of this file have the declared types: a list of fields holds
      fields, a list of filters holds filters.  The arrays of the program can
      also come to hold [undefined], a hole or a structure of the schema:
      [reorderFields] with an index of no field, [editFilter] and
      [editFieldDefinition] with an index greater than the length of the array,
      [replaceWithDefinition] for a name defined as a structure.  The program
      performs such a write and goes on; here the call ends in [LeavesType],
      and what the program does from such a tree is not modelled.  A statement
      about sequences of calls speaks of the sequences without such a call
      ([runWithinTypes]) and says so.
    - [JSON.parse(JSON.stringify(x))] is the identity on values ([jsonCopy]).
    - The compiler library is not part of the repository:
      [Segment.nextStructDef] and [expressionIsCalculation] are the methods
      of the class [Malloy].  [nextStructDef] of a stage that is [undefined]
      is taken to throw a [TypeError].
    - [maybeQuoteIdentifier] of ./utils is not part of the repository
      either: it and the text of a number are the methods of the class
      [Text].
    - Of [QueryBuilder], the methods that only hand the tree to a
      [QueryWriter], and [isEmpty], which compares serialisations, are left
      out.  Of [QueryWriter], the text of a query is modelled
      ([getMalloyString] and what it calls); the summary for the user
      interface, which compares schemas by identity, and the markdown
      wrapper are left out. *)

From stdpp Require Import base list strings pretty.
From Stdlib Require Import ZArith Lia Ascii.

(** ** 1. Data model *)

Inductive SegmentType := reduce | project | index.

Inductive Direction := asc | desc.

(** [FilterExpression]: the source text and the compiled expression, which the
    editor never inspects. *)
Record FilterExpression := mkFilter {
  code : string;
  expression : list string
}.

(** [OrderBy.field] is [string | number]. *)
Inductive OrderField :=
| ByName (n : string)
| ByPosition (k : Z).

Record OrderBy := mkOrderBy {
  field : OrderField;
  dir : option Direction
}.

(** [stage.by], the grouping rule that excludes [orderBy]. *)
Inductive By :=
| ByNamed (n : string)
| ByExpression (e : list string).

(** A leaf of the schema, also the inline-expression variant of a field
    reference. *)
Record FieldTypeDef := mkFieldTypeDef {
  ftype : string;
  fname : string;
  fas : option string;
  fcode : option string;
  expressionType : option string
}.

Record FilteredAliasedName := mkFan {
  fan_name : string;
  fan_as : option string;
  fan_filterList : option (list FilterExpression)
}.

(** [QueryFieldDef = string | FilteredAliasedName | TurtleDef | FieldTypeDef],
    [TurtleDef] and [PipeSegment]: a nested query owns a pipeline whose stages
    own fields. *)
Inductive QueryFieldDef :=
| QName (path : string)
| QFan (fan : FilteredAliasedName)
| QTurtle (t : TurtleDef)
| QExpr (d : FieldTypeDef)
with TurtleDef :=
| mkTurtle (name : string) (as_ : option string) (pipeline : list PipeSegment)
with PipeSegment :=
| mkSegment (type : SegmentType) (fields : list QueryFieldDef)
    (filterList : option (list FilterExpression)) (limit : option Z)
    (orderBy : option (list OrderBy)) (by_ : option By).

Definition tname (t : TurtleDef) : string := let 'mkTurtle n _ _ := t in n.
Definition tas (t : TurtleDef) : option string := let 'mkTurtle _ a _ := t in a.
Definition pipeline (t : TurtleDef) : list PipeSegment :=
  let 'mkTurtle _ _ p := t in p.

Definition type (s : PipeSegment) : SegmentType :=
  let 'mkSegment t _ _ _ _ _ := s in t.
Definition fields (s : PipeSegment) : list QueryFieldDef :=
  let 'mkSegment _ f _ _ _ _ := s in f.
Definition filterList (s : PipeSegment) : option (list FilterExpression) :=
  let 'mkSegment _ _ f _ _ _ := s in f.
Definition limit (s : PipeSegment) : option Z :=
  let 'mkSegment _ _ _ l _ _ := s in l.
Definition orderBy (s : PipeSegment) : option (list OrderBy) :=
  let 'mkSegment _ _ _ _ o _ := s in o.
Definition by_ (s : PipeSegment) : option By :=
  let 'mkSegment _ _ _ _ _ b := s in b.

(** Property assignments. *)
Definition set_pipeline (t : TurtleDef) (p : list PipeSegment) : TurtleDef :=
  mkTurtle (tname t) (tas t) p.
Definition set_tas (t : TurtleDef) (a : option string) : TurtleDef :=
  mkTurtle (tname t) a (pipeline t).
Definition set_fields (s : PipeSegment) (f : list QueryFieldDef) : PipeSegment :=
  mkSegment (type s) f (filterList s) (limit s) (orderBy s) (by_ s).
Definition set_filterList (s : PipeSegment) (f : option (list FilterExpression))
  : PipeSegment :=
  mkSegment (type s) (fields s) f (limit s) (orderBy s) (by_ s).
Definition set_limit (s : PipeSegment) (l : option Z) : PipeSegment :=
  mkSegment (type s) (fields s) (filterList s) l (orderBy s) (by_ s).
Definition set_orderBy (s : PipeSegment) (o : option (list OrderBy)) : PipeSegment :=
  mkSegment (type s) (fields s) (filterList s) (limit s) o (by_ s).
Definition set_by (s : PipeSegment) (b : option By) : PipeSegment :=
  mkSegment (type s) (fields s) (filterList s) (limit s) (orderBy s) b.

(** [{ type: "reduce", fields: [] }] *)
Definition emptyStage : PipeSegment := mkSegment reduce [] None None None None.

(** The schema: [FieldDef = StructDef | TurtleDef | FieldTypeDef]. *)
Inductive FieldDef :=
| FStruct (s : StructDef)
| FTurtle (t : TurtleDef)
| FAtomic (d : FieldTypeDef)
with StructDef :=
| mkStructDef (name : string) (as_ : option string) (fields : list FieldDef).

Definition sname (s : StructDef) : string := let 'mkStructDef n _ _ := s in n.
Definition sas (s : StructDef) : option string := let 'mkStructDef _ a _ := s in a.
Definition sfields (s : StructDef) : list FieldDef :=
  let 'mkStructDef _ _ f := s in f.

(** [SchemaField] of ../types, of which [addLimit] reads [path]. *)
Record SchemaField := mkSchemaField {
  sf_name : string;
  sf_path : string;
  sf_type : string
}.

(** ** 2. JavaScript idioms *)

(** [a || b] on [string | undefined]: the empty string is falsy. *)
Definition orElse (a : option string) (b : string) : string :=
  match a with
  | Some s => if String.eqb s "" then b else s
  | None => b
  end.

(** [xs || []] *)
Definition orEmpty {A} (xs : option (list A)) : list A :=
  match xs with Some l => l | None => [] end.

(** [if (n)] on [number | undefined]. *)
Definition truthy (n : option Z) : bool :=
  match n with Some k => negb (Z.eqb k 0) | None => false end.

(** [array.findIndex(p)], [None] for -1. *)
Fixpoint findIndex {A} (p : A → bool) (l : list A) : option nat :=
  match l with
  | [] => None
  | x :: l' => if p x then Some 0 else S <$> findIndex p l'
  end.

(** [array.splice(i, 0, x)]: a start beyond the end is clamped to it. *)
Definition spliceIn {A} (i : nat) (x : A) (l : list A) : list A :=
  take i l ++ x :: drop i l.

(** [array.splice(i, 1)] is stdpp's [delete i]; [array.splice(i, 1, x)]: *)
Definition spliceOver {A} (i : nat) (x : A) (l : list A) : list A :=
  take i l ++ x :: drop (S i) l.

(** [s.split(".")] *)
Fixpoint split_dot (s : string) : list string :=
  match s with
  | EmptyString => [EmptyString]
  | String c s' =>
      if Ascii.eqb c "."%char then EmptyString :: split_dot s'
      else match split_dot s' with
           | h :: t => String c h :: t
           | [] => [String c EmptyString]
           end
  end.

(** [JSON.parse(JSON.stringify(x))] *)
Definition jsonCopy {A} (x : A) : A := x.

(** Display names: [field.as || field.name]. *)
Definition turtleName (t : TurtleDef) : string := orElse (tas t) (tname t).
Definition atomicName (d : FieldTypeDef) : string := orElse (fas d) (fname d).
Definition fanName (f : FilteredAliasedName) : string :=
  orElse (fan_as f) (fan_name f).
Definition structName (s : StructDef) : string := orElse (sas s) (sname s).

Definition fieldDefName (f : FieldDef) : string :=
  match f with
  | FStruct s => structName s
  | FTurtle t => turtleName t
  | FAtomic d => atomicName d
  end.

(** [nameOf(field)] *)
Definition nameOf (f : QueryFieldDef) : string :=
  match f with
  | QName s => s
  | QFan fan => fanName fan
  | QTurtle t => turtleName t
  | QExpr d => atomicName d
  end.

(** [order.field === name] *)
Definition orderRefers (name : string) (o : OrderBy) : bool :=
  match field o with
  | ByName n => String.eqb n name
  | ByPosition _ => false
  end.

(** ** 3. Stage paths *)

(** Modelled from the spec: [StagePath], [stagePathPop] and [stagePathParent]
    are declared in src/types.ts, which is not among the sources.  A stage
    path is "an address, an ordered sequence of (stage-index, optional
    field-index-into-nested-query) hops, locating a Stage anywhere in the
    tree".  [stageAtPath] starts at the root pipeline and reads the popped
    indices there, so [stagePathPop] hands out the outermost hop and the
    remaining path (were it the innermost hop, [stageAtPath] would look for
    the innermost indices in the root pipeline); [removeStage] reads from [stagePathParent] the path of the
    enclosing stage, the position of the nested query in that stage, and the
    position of the addressed stage in the nested query's pipeline. *)
Record Hop := mkHop {
  stageIndex : nat;
  fieldIndex : option nat
}.

Inductive StagePath :=
| PLast (h : Hop)
| PCons (h : Hop) (rest : StagePath).

Definition headHop (p : StagePath) : Hop :=
  match p with PLast h | PCons h _ => h end.

Definition nextPath (p : StagePath) : option StagePath :=
  match p with PLast _ => None | PCons _ rest => Some rest end.

Definition stagePathPop (p : StagePath) : option StagePath * nat * option nat :=
  (nextPath p, stageIndex (headHop p), fieldIndex (headHop p)).

Fixpoint stagePathParent (p : StagePath) : option StagePath * option nat * nat :=
  match p with
  | PLast h => (None, None, stageIndex h)
  | PCons h rest =>
      match stagePathParent rest with
      | (None, _, s) => (Some (PLast (mkHop (stageIndex h) None)), fieldIndex h, s)
      | (Some parent, f, s) => (Some (PCons h parent), f, s)
      end
  end.

(** A path of stage hops [(s0, f0), (s1, f1), .., sn]. *)
Fixpoint pathOf (hops : list (nat * nat)) (last : nat) : StagePath :=
  match hops with
  | [] => PLast (mkHop last None)
  | (s, f) :: hops' => PCons (mkHop s (Some f)) (pathOf hops' last)
  end.

(** ** 4. Exceptions and the builder's state *)

Inductive Exn :=
| NotAStageError (message : string) (field : QueryFieldDef)
| Error (message : string)
| TypeError (message : string)
| RangeError (message : string)
  (** Not an exception of the program: the call stores [undefined], a hole
      or a structure in an array that the declared types give only fields or
      filters, and the program goes on.  The trees of this file have no such
      arrays: the call is marked, and not followed further. *)
| LeavesType (what : string).

Inductive Result (A : Type) :=
| Return (a : A)
| Throw (e : Exn).
Arguments Return {A} a.
Arguments Throw {A} e.

Definition bindR {A B} (r : Result A) (k : A → Result B) : Result B :=
  match r with
  | Return a => k a
  | Throw e => Throw e
  end.

Notation "'let?' x := r 'in' k" := (bindR r (fun x => k))
  (at level 10, x pattern, r at level 100, k at level 200).

(** [this.query], [this._source] and what [console.log] has printed. *)
Record QueryBuilder := mkBuilder {
  query : TurtleDef;
  _source : StructDef;
  console : list Exn
}.

Definition M (A : Type) : Type := QueryBuilder → Result A * QueryBuilder.

Definition ret {A} (a : A) : M A := λ b, (Return a, b).
Definition throw {A} (e : Exn) : M A := λ b, (Throw e, b).
Definition bind {A B} (m : M A) (k : A → M B) : M B :=
  λ b, match m b with
       | (Return a, b') => k a b'
       | (Throw e, b') => (Throw e, b')
       end.
Definition reading {A} (f : QueryBuilder → Result A) : M A := λ b, (f b, b).
Definition lift {A} (r : Result A) : M A := λ b, (r, b).

(** [try { m } catch (error) { handler }] *)
Definition tryCatch {A} (m : M A) (handler : Exn → M A) : M A :=
  λ b, match m b with
       | (Throw error, b') => handler error b'
       | r => r
       end.

Notation "'let!' x := m 'in' k" := (bind m (fun x => k))
  (at level 10, x pattern, m at level 100, k at level 200).
Notation "m ';;;' k" := (bind m (fun _ => k))
  (at level 100, k at level 200, right associativity).

Definition setQueryOf (b : QueryBuilder) (q : TurtleDef) : QueryBuilder :=
  mkBuilder q (_source b) (console b).

Definition logged (b : QueryBuilder) (es : list Exn) : QueryBuilder :=
  mkBuilder (query b) (_source b) (console b ++ es).

(** [this.query.pipeline], [this.query.pipeline = p] (also by a write into
    the array), [this.query = q], [this._source] and [console.log]. *)
Definition getPipeline : M (list PipeSegment) :=
  λ b, (Return (pipeline (query b)), b).
Definition putPipeline (p : list PipeSegment) : M unit :=
  λ b, (Return (), setQueryOf b (set_pipeline (query b) p)).
Definition putQuery (q : TurtleDef) : M unit := λ b, (Return (), setQueryOf b q).
Definition getSource : M StructDef := λ b, (Return (_source b), b).
Definition consoleLog (es : list Exn) : M unit := λ b, (Return (), logged b es).

(** [x.p] where [x] may be [undefined]. *)
Definition defined {A} (x : option A) : Result A :=
  match x with
  | Some a => Return a
  | None => Throw (TypeError "Cannot read properties of undefined")
  end.

(** [const BLANK_QUERY] *)
Definition BLANK_QUERY : TurtleDef := mkTurtle "new_query" None [emptyStage].

(** The builder [new QueryBuilder(source)] makes. *)
Definition newBuilder (source : StructDef) : QueryBuilder :=
  mkBuilder (jsonCopy BLANK_QUERY) source [].

(** The two functions the editor imports from the compiler library:
    [Segment.nextStructDef(source, stage)], the schema a stage produces
    ([None] when it throws), and [expressionIsCalculation(expressionType)]. *)
Class Malloy := {
  nextStructDef : StructDef → PipeSegment → option StructDef;
  expressionIsCalculation : option string → bool
}.

Section Editor.

Context {malloy : Malloy}.

(** ** 5. SourceUtils: schema navigation *)

Definition modifySourceForStage (stage : PipeSegment) (source : StructDef)
  : Result StructDef :=
  match nextStructDef source stage with
  | Some s => Return s
  | None => Throw (Error "nextStructDef")
  end.

(** [for (const stage of pipeline) source = modifySourceForStage(stage, source)] *)
Fixpoint throughStages (stages : list PipeSegment) (source : StructDef)
  : Result StructDef :=
  match stages with
  | [] => Return source
  | stage :: stages' =>
      let? s := modifySourceForStage stage source in throughStages stages' s
  end.

(** [source.fields.find((f) => (f.as || f.name) === part)] *)
Definition findField (source : StructDef) (part : string) : option FieldDef :=
  List.find (λ f, String.eqb (fieldDefName f) part) (sfields source).

(** The loop of [getField] on [parts = part :: parts']. *)
Fixpoint getField_walk (root currentSource : StructDef) (part : string)
    (parts' : list string) : Result FieldDef :=
  match parts' with
  | [] =>
      match findField currentSource part with
      | Some found => Return found
      | None => Throw (Error (String.append "Could not find " part))
      end
  | next :: rest =>
      match findField currentSource part with
      | None => Throw (Error (String.append "Could not find (inner) " part))
      | Some (FStruct found) => getField_walk root found next rest
      | Some (FTurtle found) =>
          let? turtleSource := throughStages (pipeline found) root in
          getField_walk root turtleSource next rest
      | Some (FAtomic _) => Throw (Error "Inner segment in path is not a source")
      end
  end.

(** [getField(source, fieldName)]; [root] is [this.getSource()]. *)
Definition getField (root source : StructDef) (fieldName : string)
  : Result FieldDef :=
  match split_dot fieldName with
  | part :: parts' => getField_walk root source part parts'
  | [] => Throw (Error "Could not find undefined")
  end.

(** A [TurtleDef] or [FieldTypeDef] written in the query is its own
    definition. *)
Definition fieldDefForQueryFieldDef (root : StructDef) (field : QueryFieldDef)
    (source : StructDef) : Result FieldDef :=
  match field with
  | QName s => getField root source s
  | QFan fan => getField root source (fan_name fan)
  | QTurtle t => Return (FTurtle t)
  | QExpr d => Return (FAtomic d)
  end.

(** ** 6. QueryBuilder: addressing *)

(** The loop of [stageAtPath]; [current[stageIndex]] may be [undefined] at
    the last hop. *)
Fixpoint stageIn (current : list PipeSegment) (stagePath : StagePath)
  : Result (option PipeSegment) :=
  let h := headHop stagePath in
  match fieldIndex h with
  | Some fi =>
      let? stage := defined (current !! stageIndex h) in
      match fields stage !! fi with
      | None => Throw (TypeError "Cannot convert undefined or null to object")
      | Some (QTurtle t) =>
          match stagePath with
          | PCons _ newStagePath => stageIn (pipeline t) newStagePath
          | PLast _ => Throw (Error "Invalid stage path")
          end
      | Some newField =>
          Throw (NotAStageError "Path does not refer to a stage correctly" newField)
      end
  | None => Return (current !! stageIndex h)
  end.

Definition stageAtPath (stagePath : StagePath) (b : QueryBuilder)
  : Result (option PipeSegment) :=
  stageIn (pipeline (query b)) stagePath.

(** [for (i = 0; i < stageIndex; i++) source = modifySourceForStage(pipeline[i], source)] *)
Fixpoint sourceAfter (currentPipeline : list PipeSegment) (stageIndex : nat)
    (currentSource : StructDef) {struct stageIndex} : Result StructDef :=
  match stageIndex with
  | 0 => Return currentSource
  | S n =>
      match currentPipeline with
      | [] => Throw (TypeError "Cannot read properties of undefined")
      | stage :: later =>
          let? s := modifySourceForStage stage currentSource in
          sourceAfter later n s
      end
  end.

(** The loop of [sourceForStageAtPath]. *)
Fixpoint sourceIn (currentPipeline : list PipeSegment) (currentSource : StructDef)
    (stagePath : StagePath) : Result StructDef :=
  let h := headHop stagePath in
  let? currentSource := sourceAfter currentPipeline (stageIndex h) currentSource in
  match fieldIndex h with
  | Some fi =>
      let? stage := defined (currentPipeline !! stageIndex h) in
      match fields stage !! fi with
      | None => Throw (TypeError "Cannot convert undefined or null to object")
      | Some (QTurtle t) =>
          match stagePath with
          | PCons _ newStagePath => sourceIn (pipeline t) currentSource newStagePath
          | PLast _ => Throw (Error "Invalid stage path")
          end
      | Some _ => Throw (Error "Path does not refer to a stage correctly")
      end
  | None => Return currentSource
  end.

(** [stagePathPop(undefined)] reads a property of [undefined]. *)
Definition sourceForStageAtPath (stagePath : option StagePath) (b : QueryBuilder)
  : Result StructDef :=
  let? p := defined stagePath in
  sourceIn (pipeline (query b)) (_source b) p.

(** The write through a stage reference: the stage that [stageIn] finds at
    the path is replaced by [new]. *)
Fixpoint writeIn (current : list PipeSegment) (stagePath : StagePath)
    (new : PipeSegment) : list PipeSegment :=
  let h := headHop stagePath in
  match fieldIndex h with
  | Some fi =>
      match current !! stageIndex h with
      | Some stage =>
          match fields stage !! fi, stagePath with
          | Some (QTurtle t), PCons _ newStagePath =>
              <[stageIndex h :=
                  set_fields stage
                    (<[fi := QTurtle (set_pipeline t
                                        (writeIn (pipeline t) newStagePath new))]>
                       (fields stage))]> current
          | _, _ => current
          end
      | None => current
      end
  | None => <[stageIndex h := new]> current
  end.

Definition written (stagePath : StagePath) (new : PipeSegment) (b : QueryBuilder)
  : QueryBuilder :=
  setQueryOf b (set_pipeline (query b) (writeIn (pipeline (query b)) stagePath new)).

Definition writeStage (stagePath : StagePath) (new : PipeSegment) : M unit :=
  λ b, (Return (), written stagePath new b).

(** [sortOrder(field)] *)
Definition sortOrder (f : FieldDef) : nat :=
  match f with
  | FStruct _ => 3
  | FTurtle _ => 2
  | FAtomic d => if expressionIsCalculation (expressionType d) then 1 else 0
  end.

(** ** 7. QueryBuilder: the editing methods *)

(** [const stage = this.stageAtPath(stagePath)] followed at once by a property
    access on [stage]. *)
Definition stageRef (stagePath : StagePath) : M PipeSegment :=
  reading (λ b, let? stage := stageAtPath stagePath b in defined stage).

(** [array[i] = x]: within the array or at its end. *)
Definition arraySet {A} (i : nat) (x : A) (l : list A) : Result (list A) :=
  if (i <? length l)%nat then Return (<[i := x]> l)
  else if (i =? length l)%nat then Return (l ++ [x])
  else Throw (LeavesType "a hole in an array").

(** A definition of the schema stored among the fields of a stage. *)
Definition asQueryFieldDef (definition : FieldDef) : Result QueryFieldDef :=
  match definition with
  | FTurtle t => Return (QTurtle t)
  | FAtomic d => Return (QExpr d)
  | FStruct _ => Throw (LeavesType "a structure among the fields of a stage")
  end.

Definition getName : M string := λ b, (Return (tname (query b)), b).

Definition getQuery : M TurtleDef := λ b, (Return (query b), b).

Definition updateSource (source : StructDef) : M unit :=
  λ b, (Return (), mkBuilder (query b) source (console b)).

Definition canRun : M bool :=
  let! p := getPipeline in
  let! first := lift (defined (p !! 0)) in
  ret (negb (length (fields first) =? 0)%nat).

Definition clearQuery : M unit := putQuery (jsonCopy BLANK_QUERY).

(** [setQuery(query)]: the new tree shares the pipeline handed in. *)
Definition setQuery (q : TurtleDef) : M unit :=
  putQuery (mkTurtle (turtleName q) None (pipeline q)).

Definition setName (name : string) : M unit :=
  let! q := getQuery in
  putQuery (mkTurtle name (tas q) (pipeline q)).

Definition replaceWithDefinition (stagePath : option StagePath)
    (fieldIndex : option nat) (structDef : option StructDef) : M unit :=
  let! structDef :=
    match structDef with Some s => ret s | None => getSource end in
  let! p := lift (defined stagePath) in
  let! stage := stageRef p in
  match fieldIndex with
  | Some fi =>
      match fields stage !! fi with
      | Some (QName field) =>
          match findField structDef field with
          | None => throw (Error "Field is not defined..")
          | Some definition =>
              let! copy := lift (asQueryFieldDef (jsonCopy definition)) in
              writeStage p (set_fields stage (<[fi := copy]> (fields stage)))
          end
      | _ => throw (Error "Don't deal with this yet")
      end
  | None => throw (Error "Don't deal with this yet")
  end.

Definition autoExpandStageAtPath (stagePath : StagePath) : M (option PipeSegment) :=
  tryCatch (reading (stageAtPath stagePath))
    (λ error,
       match error with
       | NotAStageError _ field =>
           let '(newStagePath, _, fieldIndex) := stagePathPop stagePath in
           let! source := reading (sourceForStageAtPath newStagePath) in
           let! fieldDef :=
             reading (λ b, fieldDefForQueryFieldDef (_source b) field source) in
           match fieldDef with
           | FTurtle _ =>
               replaceWithDefinition newStagePath fieldIndex None ;;;
               reading (stageAtPath stagePath)
           | _ => throw error
           end
       | _ => throw error
       end).

(** The loop of [getIndexToInsertNewField] from [fieldIndex] on: the index
    found and the errors logged on the way. *)
Fixpoint scanFields (root stageSource : StructDef) (newSortOrder : nat)
    (stageFields : list QueryFieldDef) (fieldIndex : nat) : nat * list Exn :=
  match stageFields with
  | [] => (fieldIndex, [])
  | existingField :: later =>
      match fieldDefForQueryFieldDef root existingField stageSource with
      | Return existingFieldDef =>
          if (newSortOrder <? sortOrder existingFieldDef)%nat then (fieldIndex, [])
          else scanFields root stageSource newSortOrder later (S fieldIndex)
      | Throw error =>
          let '(i, log) :=
            scanFields root stageSource newSortOrder later (S fieldIndex) in
          (i, error :: log)
      end
  end.

Definition getIndexToInsertNewField (stagePath : StagePath)
    (queryFieldDef : QueryFieldDef) : M nat :=
  let! stage := reading (stageAtPath stagePath) in
  let! stageSource := reading (sourceForStageAtPath (Some stagePath)) in
  let! fieldDef :=
    reading (λ b, fieldDefForQueryFieldDef (_source b) queryFieldDef stageSource) in
  let! stage := lift (defined stage) in
  let! root := getSource in
  let '(i, log) :=
    scanFields root stageSource (sortOrder fieldDef) (fields stage) 0 in
  consoleLog log ;;; ret i.

Definition insertField (stagePath : StagePath) (field : QueryFieldDef) : M unit :=
  let! stage := autoExpandStageAtPath stagePath in
  let! insertIndex := getIndexToInsertNewField stagePath field in
  let! stage := lift (defined stage) in
  writeStage stagePath (set_fields stage (spliceIn insertIndex field (fields stage))).

Definition addField (stagePath : StagePath) (fieldPath : string) : M unit :=
  insertField stagePath (QName fieldPath).

(** [!array.find(p)]: the element found is tested for truth, and the empty
    string is false. *)
Definition notFound (found : option QueryFieldDef) : bool :=
  match found with
  | None => true
  | Some (QName s) => String.eqb s ""
  | Some _ => false
  end.

(** The body of the [else] branch of [loadQuery]'s loop, after the test on the
    stage kinds: the value of [existingStage] when it ends. *)
Definition mergeStage (existingStage stage : PipeSegment) : PipeSegment :=
  let e1 :=
    match by_ stage with
    | Some b => set_orderBy (set_by existingStage (Some b)) None
    | None => existingStage
    end in
  let e2 :=
    match filterList stage with
    | Some loaded =>
        set_filterList e1
          (Some (orEmpty (filterList e1) ++
                 List.filter
                   (λ filter,
                      negb (existsb (λ existingFilter,
                                       String.eqb (code existingFilter) (code filter))
                              (orEmpty (filterList e1))))
                   loaded))
    | None => e1
    end in
  let e3 := if truthy (limit stage) then set_limit e2 (limit stage) else e2 in
  let e4 :=
    match orderBy stage with
    | Some o => set_by (set_orderBy e3 (Some o)) None
    | None => e3
    end in
  set_fields e4
    (map jsonCopy (fields stage) ++
     List.filter
       (λ field,
          notFound (List.find (λ otherField,
                                 String.eqb (nameOf otherField) (nameOf field))
                      (fields stage)))
       (fields e4)).

(** One round of [definition.pipeline.forEach((stage, stageIndex) => ..)]. *)
Definition loadStage (stage : PipeSegment) (stageIndex : nat) : M unit :=
  let! p := getPipeline in
  match p !! stageIndex with
  | None =>
      let! p' := lift (arraySet stageIndex (jsonCopy stage) p) in
      putPipeline p'
  | Some existingStage =>
      match type existingStage, type stage with
      | reduce, reduce =>
          putPipeline (<[stageIndex := mergeStage existingStage stage]> p)
      | _, _ => throw (Error "Cannot load query with non-reduce stages")
      end
  end.

Fixpoint loadStages (stages : list PipeSegment) (stageIndex : nat) : M unit :=
  match stages with
  | [] => ret ()
  | stage :: later => loadStage stage stageIndex ;;; loadStages later (S stageIndex)
  end.

Definition loadQuery (queryPath : string) : M unit :=
  let! definition := reading (λ b, getField (_source b) (_source b) queryPath) in
  match definition with
  | FTurtle t => loadStages (pipeline t) 0 ;;; setName (turtleName t)
  | _ => throw (Error "Path does not refer to query.")
  end.

Definition replaceQuery (field : TurtleDef) : M unit :=
  let! p := getPipeline in
  let filters :=
    match p with
    | [stage] =>
        match fields stage with [] => orEmpty (filterList stage) | _ => [] end
    | _ => []
    end in
  match jsonCopy (pipeline field) with
  | [] => throw (TypeError "Cannot read properties of undefined")
  | first :: later =>
      putQuery
        (mkTurtle (turtleName field) None
           (set_filterList first (Some (filters ++ orEmpty (filterList first)))
              :: later))
  end.

Definition replaceSavedField (stagePath : StagePath) (fieldIndex : nat)
    (name : string) : M unit :=
  let! stage := stageRef stagePath in
  writeStage stagePath
    (set_fields stage (spliceOver fieldIndex (QName name) (fields stage))).

Definition removeField (stagePath : StagePath) (fieldIndex : nat) : M unit :=
  let! stage := stageRef stagePath in
  let! stage :=
    match type stage, orderBy stage with
    | reduce, Some orders =>
        match orders with
        | [] => ret stage
        | _ :: _ =>
            let! field := lift (defined (fields stage !! fieldIndex)) in
            match findIndex (orderRefers (nameOf field)) orders with
            | Some orderIndex =>
                ret (set_orderBy stage (Some (delete orderIndex orders)))
            | None => ret stage
            end
        end
    | _, _ => ret stage
    end in
  writeStage stagePath (set_fields stage (delete fieldIndex (fields stage))).

(** [f === fieldPath] *)
Definition isBareName (fieldPath : string) (f : QueryFieldDef) : bool :=
  match f with
  | QName s => String.eqb s fieldPath
  | _ => false
  end.

Definition getFieldIndex (stagePath : StagePath) (fieldPath : string)
  : M (option nat) :=
  let! stage := stageRef stagePath in
  ret (findIndex (isBareName fieldPath) (fields stage)).

Definition hasField (stagePath : StagePath) (fieldPath : string) : M bool :=
  let! i := getFieldIndex stagePath fieldPath in
  ret (match i with Some _ => true | None => false end).

(** [order.map((index) => stage.fields[index])] *)
Definition reorderFields (stagePath : StagePath) (order : list nat) : M unit :=
  let! stage := stageRef stagePath in
  match mapM (λ index, fields stage !! index) order with
  | Some newFields => writeStage stagePath (set_fields stage newFields)
  | None => throw (LeavesType "undefined among the fields of a stage")
  end.

Definition toggleField (stagePath : StagePath) (fieldPath : string) : M unit :=
  autoExpandStageAtPath stagePath ;;;
  let! fieldIndex := getFieldIndex stagePath fieldPath in
  match fieldIndex with
  | Some i => removeField stagePath i
  | None => addField stagePath fieldPath
  end.

Definition addFilter (stagePath : StagePath) (filter : FilterExpression) : M unit :=
  let! stage := autoExpandStageAtPath stagePath in
  let! stage := lift (defined stage) in
  writeStage stagePath
    (set_filterList stage (Some (orEmpty (filterList stage) ++ [filter]))).

Definition editFilter (stagePath : StagePath) (fieldIndex : option nat)
    (filterIndex : nat) (filter : FilterExpression) : M unit :=
  let! stage := stageRef stagePath in
  match fieldIndex with
  | None =>
      match filterList stage with
      | None => throw (Error "Stage has no filters.")
      | Some filters =>
          let! filters' := lift (arraySet filterIndex filter filters) in
          writeStage stagePath (set_filterList stage (Some filters'))
      end
  | Some fi =>
      match fields stage !! fi with
      | None => throw (TypeError "Cannot convert undefined or null to object")
      | Some (QFan fan) =>
          match fan_filterList fan with
          | None => throw (Error "Field has no filters")
          | Some filters =>
              let! filters' := lift (arraySet filterIndex filter filters) in
              writeStage stagePath
                (set_fields stage
                   (<[fi := QFan (mkFan (fan_name fan) (fan_as fan) (Some filters'))]>
                      (fields stage)))
          end
      | Some _ => throw (Error "Cannot edit filter on non FAN.")
      end
  end.

Definition removeFilter (stagePath : StagePath) (filterIndex : nat)
    (fieldIndex : option nat) : M unit :=
  let! stage := stageRef stagePath in
  match fieldIndex with
  | None =>
      match filterList stage with
      | Some filters =>
          writeStage stagePath (set_filterList stage (Some (delete filterIndex filters)))
      | None => ret ()
      end
  | Some fi =>
      match fields stage !! fi with
      | None => throw (TypeError "Cannot convert undefined or null to object")
      | Some (QFan fan) =>
          match fan_filterList fan with
          | Some filters =>
              writeStage stagePath
                (set_fields stage
                   (<[fi := QFan (mkFan (fan_name fan) (fan_as fan)
                                    (Some (delete fi filters)))]>
                      (fields stage)))
          | None => ret ()
          end
      | Some _ => ret ()
      end
  end.

Definition unsupported {A} : M A := throw (Error "Don't know how to handle this yet").

Definition hasLimit (stagePath : StagePath) : M bool :=
  let! stage := stageRef stagePath in
  match type stage with
  | reduce => ret (match limit stage with Some _ => true | None => false end)
  | _ => unsupported
  end.

Definition addLimit (stagePath : StagePath) (limit : Z)
    (byField : option SchemaField) (direction : option Direction) : M unit :=
  let! stage := autoExpandStageAtPath stagePath in
  let! stage := lift (defined stage) in
  match type stage with
  | reduce =>
      let stage := set_limit stage (Some limit) in
      writeStage stagePath
        match byField with
        | Some f => set_orderBy stage (Some [mkOrderBy (ByName (sf_path f)) direction])
        | None => stage
        end
  | _ => unsupported
  end.

Definition addOrderBy (stagePath : StagePath) (byFieldIndex : nat)
    (direction : option Direction) : M unit :=
  let! stage := autoExpandStageAtPath stagePath in
  let! stage := lift (defined stage) in
  match type stage with
  | reduce =>
      let orders := orEmpty (orderBy stage) in
      writeStage stagePath (set_orderBy stage (Some orders)) ;;;
      let! field := lift (defined (fields stage !! byFieldIndex)) in
      writeStage stagePath
        (set_orderBy stage (Some (orders ++ [mkOrderBy (ByName (nameOf field)) direction])))
  | _ => unsupported
  end.

Definition editOrderBy (stagePath : StagePath) (orderByIndex : nat)
    (direction : option Direction) : M unit :=
  let! stage := stageRef stagePath in
  match type stage with
  | reduce =>
      let orders := orEmpty (orderBy stage) in
      writeStage stagePath (set_orderBy stage (Some orders)) ;;;
      let! order := lift (defined (orders !! orderByIndex)) in
      writeStage stagePath
        (set_orderBy stage
           (Some (<[orderByIndex := mkOrderBy (field order) direction]> orders)))
  | _ => unsupported
  end.

Definition removeLimit (stagePath : StagePath) : M unit :=
  let! stage := stageRef stagePath in
  writeStage stagePath (set_limit stage None).

Definition removeOrderBy (stagePath : StagePath) (orderingIndex : nat) : M unit :=
  let! stage := stageRef stagePath in
  match type stage with
  | reduce =>
      match orderBy stage with
      | Some orders =>
          writeStage stagePath (set_orderBy stage (Some (delete orderingIndex orders)))
      | None => ret ()
      end
  | _ => unsupported
  end.

(** [query.pipeline.push({ type: "reduce", fields: [] })] on the nested query
    at [fieldIndex] of the stage at [stagePath]. *)
Definition pushStageUnder (stagePath : StagePath) (fieldIndex : nat) : M unit :=
  let! parentStage := stageRef stagePath in
  match fields parentStage !! fieldIndex with
  | Some (QTurtle t) =>
      writeStage stagePath
        (set_fields parentStage
           (<[fieldIndex := QTurtle (set_pipeline t (pipeline t ++ [emptyStage]))]>
              (fields parentStage)))
  | _ => throw (TypeError "Cannot read properties of undefined")
  end.

Definition addStage (stagePath : option StagePath) (fieldIndex : option nat)
  : M unit :=
  match stagePath with
  | Some p =>
      let! parentStage := reading (stageAtPath p) in
      match fieldIndex with
      | None => throw (Error "fieldIndex must be provided if stagePath is")
      | Some fi =>
          let! parentStage := lift (defined parentStage) in
          let! source := reading (sourceForStageAtPath (Some p)) in
          match fields parentStage !! fi with
          | None => throw (TypeError "Cannot convert undefined or null to object")
          | Some field =>
              let! fieldDef :=
                reading (λ b, fieldDefForQueryFieldDef (_source b) field source) in
              match fieldDef with
              | FTurtle _ =>
                  match field with
                  | QName _ | QFan _ =>
                      replaceWithDefinition (Some p) (Some fi) None ;;;
                      pushStageUnder p fi
                  | _ => pushStageUnder p fi
                  end
              | _ => throw (Error "Invalid field to add stage to.")
              end
          end
      end
  | None =>
      let! p := getPipeline in
      putPipeline (p ++ [emptyStage])
  end.

(** [query.pipeline.splice(stageIndex, 1)] and the refill of an emptied
    pipeline. *)
Definition spliceStage (stageIndex : nat) (p : list PipeSegment) : list PipeSegment :=
  match delete stageIndex p with
  | [] => [emptyStage]
  | p' => p'
  end.

Definition removeStage (stagePath : StagePath) : M unit :=
  let '(parentStagePath, fieldIndex, stageIndex) := stagePathParent stagePath in
  match parentStagePath with
  | Some pp =>
      let! parentStage := reading (stageAtPath pp) in
      match fieldIndex with
      | None => throw (Error "Invalid stage path")
      | Some fi =>
          let! parentStage := lift (defined parentStage) in
          match fields parentStage !! fi with
          | None => throw (TypeError "Cannot convert undefined or null to object")
          | Some (QTurtle t) =>
              writeStage pp
                (set_fields parentStage
                   (<[fi := QTurtle (set_pipeline t (spliceStage stageIndex (pipeline t)))]>
                      (fields parentStage)))
          | Some _ => throw (Error "Invalid field to add stage to.")
          end
      end
  | None =>
      let! p := getPipeline in
      putPipeline (spliceStage stageIndex p)
  end.

(** [order.field = as] for the entries that name the field. *)
Definition renameOrder (fieldName as_ : string) (o : OrderBy) : OrderBy :=
  if orderRefers fieldName o then mkOrderBy (ByName as_) (dir o) else o.

Definition renamed (f : QueryFieldDef) (as_ : string) : QueryFieldDef :=
  match f with
  | QName s => QFan (mkFan s (Some as_) None)
  | QFan fan => QFan (mkFan (fan_name fan) (Some as_) (fan_filterList fan))
  | QTurtle t => QTurtle (set_tas t (Some as_))
  | QExpr d =>
      QExpr (mkFieldTypeDef (ftype d) (fname d) (Some as_) (fcode d) (expressionType d))
  end.

Definition renameField (stagePath : StagePath) (fieldIndex : nat) (as_ : string)
  : M unit :=
  let! stage := stageRef stagePath in
  match type stage with
  | reduce =>
      let! field := lift (defined (fields stage !! fieldIndex)) in
      let fieldName := nameOf field in
      let stage :=
        set_orderBy stage (map (renameOrder fieldName as_) <$> orderBy stage) in
      writeStage stagePath
        (set_fields stage (<[fieldIndex := renamed field as_]> (fields stage)))
  | _ => unsupported
  end.

Definition addFilterToField (stagePath : StagePath) (fieldIndex : nat)
    (filter : FilterExpression) (as_ : option string) : M unit :=
  match as_ with
  | Some a => renameField stagePath fieldIndex a
  | None => ret ()
  end ;;;
  let! stage := stageRef stagePath in
  match type stage with
  | reduce =>
      match fields stage !! fieldIndex with
      | None => throw (TypeError "Cannot convert undefined or null to object")
      | Some (QName _) =>
          match as_ with
          | None => throw (Error "As must be specified if field is not already renamed.")
          | Some _ => ret ()
          end
      | Some (QFan fan) =>
          writeStage stagePath
            (set_fields stage
               (<[fieldIndex := QFan (mkFan (fan_name fan) (fan_as fan)
                                        (Some (orEmpty (fan_filterList fan) ++ [filter])))]>
                  (fields stage)))
      | Some _ => ret ()
      end
  | _ => unsupported
  end.

Definition addNewNestedQuery (stagePath : StagePath) (name : string) : M unit :=
  insertField stagePath (QTurtle (mkTurtle name None [emptyStage])).

Definition addNewField (stagePath : StagePath) (definition : QueryFieldDef) : M unit :=
  insertField stagePath definition.

Definition editFieldDefinition (stagePath : StagePath) (fieldIndex : nat)
    (definition : QueryFieldDef) : M unit :=
  let! stage := stageRef stagePath in
  let! fields' := lift (arraySet fieldIndex definition (fields stage)) in
  writeStage stagePath (set_fields stage fields').

End Editor.

(** ** 8. QueryWriter: the layout of filter clauses *)

(** [type Fragment = string | typeof INDENT | typeof OUTDENT | typeof NEWLINE] *)
Inductive Fragment :=
| Lit (s : string)
| INDENT
| OUTDENT
| NEWLINE.

Definition TAB_WIDTH : Z := 2.

Definition newline : string := String (ascii_of_nat 10) EmptyString.

(** [" ".repeat(n)] for [n >= 0] *)
Fixpoint spaces (n : nat) : string :=
  match n with
  | 0 => EmptyString
  | S n' => String " "%char (spaces n')
  end.

(** [" ".repeat(count)] throws on a negative count. *)
Definition repeatSpace (count : Z) : Result string :=
  if (count <? 0)%Z then Throw (RangeError "Invalid count value")
  else Return (spaces (Z.to_nat count)).

(** The loop of [getFiltersString]: [rest] is empty exactly at the last
    index. *)
Fixpoint filterFragments (filterList : list FilterExpression) : list Fragment :=
  match filterList with
  | [] => []
  | filter :: rest =>
      Lit (code filter)
        :: (match rest with [] => [] | _ :: _ => [Lit ","] end)
        ++ NEWLINE :: filterFragments rest
  end.

Definition getFiltersString (filterList : list FilterExpression) : list Fragment :=
  (if (length filterList =? 1)%nat then [Lit " "] else [NEWLINE; INDENT])
    ++ filterFragments filterList
    ++ (if (1 <? length filterList)%nat then [OUTDENT] else []).

(** The loop of [codeFromFragments] from the state [(code, indent,
    isStartOfLine)]. *)
Fixpoint codeFrom (fragments : list Fragment) (code : string) (indent : Z)
    (isStartOfLine : bool) : Result string :=
  match fragments with
  | [] => Return code
  | NEWLINE :: later => codeFrom later (String.append code newline) indent true
  | OUTDENT :: later => codeFrom later code (indent - 1)%Z isStartOfLine
  | INDENT :: later => codeFrom later code (indent + 1)%Z isStartOfLine
  | Lit fragment :: later =>
      if isStartOfLine then
        let? pad := repeatSpace (indent * TAB_WIDTH) in
        codeFrom later (String.append (String.append code pad) fragment) indent false
      else codeFrom later (String.append code fragment) indent false
  end.

Definition codeFromFragments (fragments : list Fragment) : Result string :=
  codeFrom fragments EmptyString 0 true.

(** The filter clause [getMalloyStringForStage] opens a stage with. *)
Definition stageWhere (stage : PipeSegment) : list Fragment :=
  match filterList stage with
  | Some (f :: fl) => Lit "where:" :: getFiltersString (f :: fl)
  | _ => []
  end.


(** ** 8b. QueryWriter: the text of a query *)

(** What [codeInfoForField] returns: the keyword a field is listed under and
    the fragments of its text. *)
Record CodeInfo := mkCodeInfo {
  info_property : string;
  info_malloy : list Fragment
}.

(** [parts.join(separator)] *)
Fixpoint join (separator : string) (parts : list string) : string :=
  match parts with
  | [] => EmptyString
  | part :: rest =>
      match rest with
      | [] => part
      | _ :: _ => part +:+ separator +:+ join separator rest
      end
  end.

(** [try { .. } catch (error) { console.log(error) }] around a body that logs
    nothing itself: the value, or [undefined] and the error logged. *)
Definition caught {A} (r : Result A) : option A * list Exn :=
  match r with
  | Return a => (Some a, [])
  | Throw error => (None, [error])
  end.

Definition writeMalloyForPropertyValues (property : string)
    (malloys : list (list Fragment)) : list Fragment :=
  match malloys with
  | [] => []
  | [single] => Lit property :: Lit ": " :: single ++ [NEWLINE]
  | _ =>
      Lit property :: Lit ": " :: NEWLINE :: INDENT
        :: flat_map (λ fragments, fragments ++ [NEWLINE]) malloys ++ [OUTDENT]
  end.

(** The loop of [getMalloyStringForStage] over the fields of a stage, from
    the state [(malloy, currentProperty, currentMalloys)]; [infos] holds what
    [codeInfoForField] returned for each field, [None] for [undefined]. *)
Fixpoint propertyLoop (infos : list (option CodeInfo)) (malloy : list Fragment)
    (currentProperty : option string) (currentMalloys : list (list Fragment))
  : list Fragment * option string * list (list Fragment) :=
  match infos with
  | [] => (malloy, currentProperty, currentMalloys)
  | None :: later => propertyLoop later malloy currentProperty currentMalloys
  | Some info :: later =>
      match currentProperty with
      | Some current =>
          if String.eqb (info_property info) current
          then propertyLoop later malloy (Some (info_property info))
                 (currentMalloys ++ [info_malloy info])
          else propertyLoop later
                 (malloy ++ writeMalloyForPropertyValues current currentMalloys)
                 (Some (info_property info)) [info_malloy info]
      | None =>
          propertyLoop later malloy (Some (info_property info))
            (currentMalloys ++ [info_malloy info])
      end
  end.

Definition directionText (d : Direction) : string :=
  match d with asc => "asc" | desc => "desc" end.

(** [maybeQuoteIdentifier] of ./utils, which is not among the sources, and
    the text JavaScript gives a number inside a template literal. *)
Class Text := {
  maybeQuoteIdentifier : string → string;
  numberToString : Z → string
}.

Section Writer.
Context {malloy : Malloy} {text : Text}.

(** The keyword of a field by its definition; [codeInfoForField] has the
    expression twice. *)
Definition propertyFor (fieldDef : FieldDef) : Result string :=
  match fieldDef with
  | FStruct _ => Throw (Error "Don't know how to deal with this")
  | FTurtle _ => Return "nest"
  | FAtomic d =>
      Return (if expressionIsCalculation (expressionType d)
              then "aggregate" else "group_by")
  end.

(** One entry of [order_by:]. *)
Definition orderText (order : OrderBy) : string :=
  (match field order with
   | ByName n => maybeQuoteIdentifier (List.last (split_dot n) EmptyString)
   | ByPosition k => numberToString k
   end)
  +:+ (match dir order with
       | Some d => " " +:+ directionText d
       | None => EmptyString
       end).

(** What [getMalloyStringForStage] writes after the fields. *)
Definition stageLimit (stage : PipeSegment) : list Fragment :=
  match limit stage with
  | Some n =>
      if truthy (Some n) then [Lit ("limit: " +:+ numberToString n); NEWLINE] else []
  | None => []
  end.

Definition stageOrderBy (stage : PipeSegment) : list Fragment :=
  match type stage, orderBy stage with
  | reduce, Some (order :: orders) =>
      [Lit "order_by: "; Lit (join ", " (map orderText (order :: orders))); NEWLINE]
  | _, _ => []
  end.

(** [getMalloyStringForStage] once the infos of the fields are there. *)
Definition stageFragments (stage : PipeSegment) (infos : list (option CodeInfo))
  : list Fragment :=
  let '(malloy, currentProperty, currentMalloys) :=
    propertyLoop infos ([Lit " {"; NEWLINE; INDENT] ++ stageWhere stage) None [] in
  let malloy :=
    match currentProperty with
    | Some current =>
        if String.eqb current "" then malloy
        else malloy ++ writeMalloyForPropertyValues current currentMalloys
    | None => malloy
    end in
  malloy ++ stageLimit stage ++ stageOrderBy stage ++ [OUTDENT; Lit "}"].

(** The loop over the stages of a pipeline, in [codeInfoForField] with
    ["->"] before every stage but the first, in [getMalloyString] with
    [" ->"] before every stage or with nothing: the fragments, or the error
    of [modifySourceForStage], and what the fields logged on the way. *)
Fixpoint pipelineFragments
    (render : PipeSegment → StructDef → list Fragment * list Exn)
    (separator : bool → list Fragment)
    (stages : list PipeSegment) (stageSource : StructDef) (head : bool)
  : Result (list Fragment) * list Exn :=
  match stages with
  | [] => (Return [], [])
  | stage :: later =>
      let '(fragments, log) := render stage stageSource in
      match modifySourceForStage stage stageSource with
      | Throw error => (Throw error, log)
      | Return next =>
          let '(r, log') := pipelineFragments render separator later next false in
          (let? rest := r in Return (separator head ++ fragments ++ rest),
           log ++ log')
      end
  end.

(** [codeInfoForField(field, source, indent)] and
    [getMalloyStringForStage(stage, source, indent)], of which [indent] is
    handed on and never read: the value and what [console.log] received.
    [root] is [this._source]. *)
Fixpoint codeInfoForField (root : StructDef) (field : QueryFieldDef)
    (source : StructDef) {struct field} : option CodeInfo * list Exn :=
  match field with
  | QName path =>
      caught
        (let? fieldDef := getField root source path in
         let? property := propertyFor fieldDef in
         Return (mkCodeInfo property [Lit (maybeQuoteIdentifier path)]))
  | QFan fan =>
      caught
        (let? fieldDef := getField root source (fan_name fan) in
         let? property := propertyFor fieldDef in
         let newNameIs :=
           match fan_as fan with
           | None => EmptyString
           | Some a => maybeQuoteIdentifier a +:+ " is "
           end in
         Return
           (mkCodeInfo property
              (Lit (newNameIs +:+ maybeQuoteIdentifier (fan_name fan))
                 :: match fan_filterList fan with
                    | Some (f :: fl) =>
                        [Lit " {"; INDENT; Lit "where:"]
                          ++ getFiltersString (f :: fl) ++ [OUTDENT; Lit "}"]
                    | _ => []
                    end)))
  | QTurtle (mkTurtle name as_ stages) =>
      match
        pipelineFragments (getMalloyStringForStage root)
          (λ head, if head then [] else [Lit "->"]) stages source true
      with
      | (Return fragments, log) =>
          (Some (mkCodeInfo "nest"
                   (Lit (maybeQuoteIdentifier (orElse as_ name) +:+ " is")
                      :: fragments)),
           log)
      | (Throw error, log) => (None, log ++ [error])
      end
  | QExpr d =>
      (Some (mkCodeInfo
               (if expressionIsCalculation (expressionType d)
                then "aggregate" else "group_by")
               [Lit (maybeQuoteIdentifier (atomicName d) +:+ " is "
                       +:+ match fcode d with Some c => c | None => "undefined" end)]),
       [])
  end
with getMalloyStringForStage (root : StructDef) (stage : PipeSegment)
    (source : StructDef) {struct stage} : list Fragment * list Exn :=
  match stage with
  | mkSegment _ stageFields _ _ _ _ =>
      let results := map (λ field, codeInfoForField root field source) stageFields in
      (stageFragments stage (map fst results), concat (map snd results))
  end.

(** [getMalloyString(forSource, name)] of the writer of [query] over the
    schema [root]. *)
Definition getMalloyString (root : StructDef) (query : TurtleDef)
    (forSource : bool) (name : option string) : Result string * list Exn :=
  let initParts :=
    ["query:"]
      ++ (match name with
          | Some n => [maybeQuoteIdentifier n +:+ " is"]
          | None => []
          end)
      ++ (if forSource then [] else [maybeQuoteIdentifier (structName root)]) in
  let '(r, log) :=
    pipelineFragments (getMalloyStringForStage root)
      (λ _, if forSource then [] else [Lit " ->"]) (pipeline query) root true in
  (let? fragments := r in codeFromFragments (Lit (join " " initParts) :: fragments),
   log).

Definition getQueryStringForSource (root : StructDef) (query : TurtleDef)
    (name : string) : Result string * list Exn :=
  getMalloyString root query true (Some name).

Definition getQueryStringForModel (root : StructDef) (query : TurtleDef)
  : Result string * list Exn :=
  getMalloyString root query false (Some (tname query)).

End Writer.
(** ** 9. The editor as a machine *)

(** The calls that change the builder. *)
Inductive Op :=
| OpClearQuery
| OpSetQuery (q : TurtleDef)
| OpSetName (name : string)
| OpUpdateSource (source : StructDef)
| OpAddField (stagePath : StagePath) (fieldPath : string)
| OpLoadQuery (queryPath : string)
| OpReplaceQuery (field : TurtleDef)
| OpReplaceSavedField (stagePath : StagePath) (fieldIndex : nat) (name : string)
| OpRemoveField (stagePath : StagePath) (fieldIndex : nat)
| OpReorderFields (stagePath : StagePath) (order : list nat)
| OpToggleField (stagePath : StagePath) (fieldPath : string)
| OpAddFilter (stagePath : StagePath) (filter : FilterExpression)
| OpEditFilter (stagePath : StagePath) (fieldIndex : option nat) (filterIndex : nat)
    (filter : FilterExpression)
| OpRemoveFilter (stagePath : StagePath) (filterIndex : nat) (fieldIndex : option nat)
| OpAddLimit (stagePath : StagePath) (limit : Z) (byField : option SchemaField)
    (direction : option Direction)
| OpAddOrderBy (stagePath : StagePath) (byFieldIndex : nat)
    (direction : option Direction)
| OpEditOrderBy (stagePath : StagePath) (orderByIndex : nat)
    (direction : option Direction)
| OpRemoveLimit (stagePath : StagePath)
| OpAddStage (stagePath : option StagePath) (fieldIndex : option nat)
| OpRemoveStage (stagePath : StagePath)
| OpRemoveOrderBy (stagePath : StagePath) (orderingIndex : nat)
| OpRenameField (stagePath : StagePath) (fieldIndex : nat) (as_ : string)
| OpAddFilterToField (stagePath : StagePath) (fieldIndex : nat)
    (filter : FilterExpression) (as_ : option string)
| OpAddNewNestedQuery (stagePath : StagePath) (name : string)
| OpAddNewField (stagePath : StagePath) (definition : QueryFieldDef)
| OpEditFieldDefinition (stagePath : StagePath) (fieldIndex : nat)
    (definition : QueryFieldDef)
| OpReplaceWithDefinition (stagePath : StagePath) (fieldIndex : nat)
    (structDef : option StructDef).

Definition perform `{Malloy} (op : Op) : M unit :=
  match op with
  | OpClearQuery => clearQuery
  | OpSetQuery q => setQuery q
  | OpSetName name => setName name
  | OpUpdateSource source => updateSource source
  | OpAddField p x => addField p x
  | OpLoadQuery x => loadQuery x
  | OpReplaceQuery t => replaceQuery t
  | OpReplaceSavedField p i x => replaceSavedField p i x
  | OpRemoveField p i => removeField p i
  | OpReorderFields p order => reorderFields p order
  | OpToggleField p x => toggleField p x
  | OpAddFilter p f => addFilter p f
  | OpEditFilter p fi i f => editFilter p fi i f
  | OpRemoveFilter p i fi => removeFilter p i fi
  | OpAddLimit p n byField d => addLimit p n byField d
  | OpAddOrderBy p i d => addOrderBy p i d
  | OpEditOrderBy p i d => editOrderBy p i d
  | OpRemoveLimit p => removeLimit p
  | OpAddStage p fi => addStage p fi
  | OpRemoveStage p => removeStage p
  | OpRemoveOrderBy p i => removeOrderBy p i
  | OpRenameField p i a => renameField p i a
  | OpAddFilterToField p i f a => addFilterToField p i f a
  | OpAddNewNestedQuery p name => addNewNestedQuery p name
  | OpAddNewField p d => addNewField p d
  | OpEditFieldDefinition p i d => editFieldDefinition p i d
  | OpReplaceWithDefinition p i sd => replaceWithDefinition (Some p) (Some i) sd
  end.

(** The builder after a sequence of calls every one of which leaves the tree
    within the declared types, whether the calls returned or threw.  [None]
    for the other sequences: after a call marked [LeavesType] the program goes
    on from a tree that holds [undefined], a hole or a structure in an array,
    which is not modelled. *)
Fixpoint runWithinTypes `{Malloy} (ops : list Op) (b : QueryBuilder)
  : option QueryBuilder :=
  match ops with
  | [] => Some b
  | op :: later =>
      match perform op b with
      | (Throw (LeavesType _), _) => None
      | (_, b') => runWithinTypes later b'
      end
  end.

(** ** 10. What the claims speak of *)

(** One predicate per line at depth [k]: the indentation, the source text, a
    comma unless the predicate is the last, the line end. *)
Fixpoint filterLines (k : nat) (filterList : list FilterExpression) : string :=
  match filterList with
  | [] => EmptyString
  | filter :: rest =>
      spaces (2 * k) +:+ code filter
        +:+ (match rest with [] => EmptyString | _ :: _ => "," end)
        +:+ newline +:+ filterLines k rest
  end.

(** The text of a filter clause at depth [d]: a single predicate follows
    [where:] on its line, several predicates follow on lines of their own. *)
Definition whereText (d : nat) (filterList : list FilterExpression) : string :=
  match filterList with
  | [filter] => "where: " +:+ code filter +:+ newline
  | _ => "where:" +:+ newline +:+ filterLines (S d) filterList
  end.

(** The rank of a field of a stage against the live schema; [None] when the
    field does not resolve. *)
Definition rankOf `{Malloy} (root source : StructDef) (f : QueryFieldDef)
  : option nat :=
  match fieldDefForQueryFieldDef root f source with
  | Return d => Some (sortOrder d)
  | Throw _ => None
  end.

(** The errors of the fields that do not resolve. *)
Definition failures `{Malloy} (root source : StructDef) (fs : list QueryFieldDef)
  : list Exn :=
  omap (λ f, match fieldDefForQueryFieldDef root f source with
             | Return _ => None
             | Throw e => Some e
             end) fs.

(** [i] is the first index of [fs] whose field has a rank strictly greater
    than [r], or the length of [fs] when there is none; fields that do not
    resolve are passed over. *)
Definition placedAt `{Malloy} (root source : StructDef) (r : nat)
    (fs : list QueryFieldDef) (i : nat) : Prop :=
  i ≤ length fs ∧
  (∀ j g r', j < i → fs !! j = Some g → rankOf root source g = Some r' → r' ≤ r) ∧
  (i = length fs ∨
   ∃ g r', fs !! i = Some g ∧ rankOf root source g = Some r' ∧ r < r').

Definition isReduce (s : PipeSegment) : bool :=
  match type s with reduce => true | _ => false end.

(** Wherever both pipelines have a stage, both stages are of the reduce
    kind. *)
Fixpoint mergeable (existing loaded : list PipeSegment) : bool :=
  match existing, loaded with
  | e :: es, s :: ls => isReduce e && isReduce s && mergeable es ls
  | _, _ => true
  end.

(** The pipeline a load leaves when it succeeds: stage by stage the merge of
    the two stages, or the one stage there is. *)
Fixpoint mergedPipeline (existing loaded : list PipeSegment) : list PipeSegment :=
  match existing, loaded with
  | e :: es, s :: ls => mergeStage e s :: mergedPipeline es ls
  | [], ls => ls
  | es, [] => es
  end.

(** Every pipeline below a field, a query, a stage is non-empty. *)
Fixpoint fieldOk (f : QueryFieldDef) : bool :=
  match f with
  | QTurtle t => queryOk t
  | _ => true
  end
with queryOk (t : TurtleDef) : bool :=
  match t with
  | mkTurtle _ _ p =>
      match p with [] => false | _ :: _ => forallb stageOk p end
  end
with stageOk (s : PipeSegment) : bool :=
  match s with
  | mkSegment _ fs _ _ _ _ => forallb fieldOk fs
  end.

(** The same of the nested queries a schema defines. *)
Fixpoint fieldDefOk (f : FieldDef) : bool :=
  match f with
  | FStruct s => schemaOk s
  | FTurtle t => queryOk t
  | FAtomic _ => true
  end
with schemaOk (s : StructDef) : bool :=
  match s with
  | mkStructDef _ _ fs => forallb fieldDefOk fs
  end.

(** The query definitions a call hands to the editor have no empty
    pipeline. *)
Definition inputsOk (op : Op) : bool :=
  match op with
  | OpSetQuery q | OpReplaceQuery q => queryOk q
  | OpUpdateSource source => schemaOk source
  | OpAddNewField _ d | OpEditFieldDefinition _ _ d => fieldOk d
  | OpReplaceWithDefinition _ _ (Some sd) => schemaOk sd
  | _ => true
  end.

(** The invariant: no pipeline of the tree and none the schema defines is
    empty. *)
Definition Inv (b : QueryBuilder) : Prop :=
  queryOk (query b) ∧ schemaOk (_source b).

(** ** 11. A schema and some builders to run the editor on *)

(** A stand-in for the compiler library: a stage leaves the schema as it is,
    and aggregates and analytic expressions are calculations. *)
Definition demoMalloy : Malloy := {|
  nextStructDef := λ source _, Some source;
  expressionIsCalculation := λ e,
    match e with
    | Some t => String.eqb t "aggregate" || String.eqb t "analytic"
    | None => false
    end
|}.

Definition dimension (name type : string) : FieldDef :=
  FAtomic (mkFieldTypeDef type name None None None).

Definition measure (name : string) : FieldDef :=
  FAtomic (mkFieldTypeDef "number" name None None (Some "aggregate")).

(** [query: by_region is { group_by: region; aggregate: total; limit: 10 }] *)
Definition by_region : TurtleDef :=
  mkTurtle "by_region" None
    [mkSegment reduce [QName "region"; QName "total"] None (Some 10%Z) None None].

(** A query of two stages. *)
Definition top_regions : TurtleDef :=
  mkTurtle "top_regions" None
    [mkSegment reduce [QName "region"; QName "total"] None None None None;
     mkSegment reduce [QName "region"] None (Some 5%Z) None None].

(** [query: named_only is { where: name != null; group_by: name }] *)
Definition named_only : TurtleDef :=
  mkTurtle "named_only" None
    [mkSegment reduce [QName "name"]
       (Some [mkFilter "name != null" []]) None None None].

Definition demoSource : StructDef :=
  mkStructDef "orders" None
    [dimension "age" "number"; dimension "name" "string";
     dimension "region" "string"; measure "total";
     FTurtle by_region; FTurtle top_regions; FTurtle named_only].

(** The builder a call leaves behind. *)
Definition after {A} (m : M A) (b : QueryBuilder) : QueryBuilder := snd (m b).

Definition rootStage : StagePath := pathOf [] 0.

Definition demoBuilder : QueryBuilder := newBuilder demoSource.

(** Two filters on a stage. *)
Definition adults : FilterExpression := mkFilter "age > 17" [].
Definition known : FilterExpression := mkFilter "name != null" [].
Definition demoFiltered : PipeSegment :=
  mkSegment reduce [QName "age"] (Some [adults; known]) None None None.

Section Builders.
#[local] Existing Instance demoMalloy.

(** [age] refined to [adult is age { where: age > 17, name != null }]. *)
Definition refinedBuilder : QueryBuilder :=
  after (addFilterToField rootStage 0 known None)
    (after (addFilterToField rootStage 0 adults (Some "adult"))
       (after (addField rootStage "age") demoBuilder)).

Definition refinedField : FilteredAliasedName :=
  mkFan "age" (Some "adult") (Some [adults; known]).

(** A stage whose fields are not in rank order: [total] before [age]. *)
Definition swappedBuilder : QueryBuilder :=
  after (reorderFields rootStage [1; 0])
    (after (addField rootStage "total")
       (after (addField rootStage "age") demoBuilder)).

(** A stage with a field that the schema does not have. *)
Definition ghostBuilder : QueryBuilder :=
  after (addField rootStage "total")
    (after (replaceSavedField rootStage 0 "ghost")
       (after (addField rootStage "age") demoBuilder)).

(** [age] ordered by twice. *)
Definition twiceOrderedBuilder : QueryBuilder :=
  after (addOrderBy rootStage 0 (Some desc))
    (after (addOrderBy rootStage 0 (Some asc))
       (after (addField rootStage "age") demoBuilder)).

(** A query whose only stage is of the project kind and ordered by [age]. *)
Definition listingStage : PipeSegment :=
  mkSegment project [QName "age"] None None
    (Some [mkOrderBy (ByName "age") None]) None.

Definition listing : TurtleDef := mkTurtle "listing" None [listingStage].

Definition listingBuilder : QueryBuilder := after (setQuery listing) demoBuilder.

Definition orderedBuilder : QueryBuilder :=
  after (addOrderBy rootStage 0 (Some asc))
    (after (addField rootStage "age") demoBuilder).

Definition orderedStage : PipeSegment :=
  mkSegment reduce [QName "age"] None None
    (Some [mkOrderBy (ByName "age") (Some asc)]) None.

(** Two stages, the first with a field. *)
Definition twoStageBuilder : QueryBuilder :=
  after (addStage None None) (after (addField rootStage "age") demoBuilder).

(** The stage [demoFiltered]. *)
Definition filteredBuilder : QueryBuilder :=
  after (addFilter rootStage known)
    (after (addFilter rootStage adults)
       (after (addField rootStage "age") demoBuilder)).

(** A stage with the same filter added twice and a limit. *)
Definition limitedBuilder : QueryBuilder :=
  after (addLimit rootStage 5 None None)
    (after (addFilter rootStage adults)
       (after (addFilter rootStage adults) demoBuilder)).

(** A stage with the fields [age] and [region]. *)
Definition regionBuilder : QueryBuilder :=
  after (addField rootStage "region")
    (after (addField rootStage "age") demoBuilder).

(** [age], and a nested query [detail] whose stage names [by_region]. *)
Definition nestedBuilder : QueryBuilder :=
  after (addField (pathOf [(0, 1)] 0) "by_region")
    (after (addNewNestedQuery rootStage "detail")
       (after (addField rootStage "age") demoBuilder)).

(** [age], [total] and a reference to [by_region]. *)
Definition referenceBuilder : QueryBuilder :=
  after (addField rootStage "by_region")
    (after (addField rootStage "total")
       (after (addField rootStage "age") demoBuilder)).

End Builders.

(** A query without stages. *)
Definition stageless : TurtleDef := mkTurtle "stageless" None [].

(** ** 10b. What the further properties speak of *)

(** A path segment: a string without ["."]. *)
Fixpoint noDot (s : string) : bool :=
  match s with
  | EmptyString => true
  | String c s' => negb (Ascii.eqb c "."%char) && noDot s'
  end.

(** The fields that resolve stand in the order of their ranks. *)
Definition rankOrdered `{Malloy} (root source : StructDef)
    (fs : list QueryFieldDef) : Prop :=
  ∀ i j f g r r',
    i < j → fs !! i = Some f → fs !! j = Some g →
    rankOf root source f = Some r → rankOf root source g = Some r' → r ≤ r'.

(** The error of a call that knows only the reduce kind. *)
Definition notHandled : Exn := Error "Don't know how to handle this yet".

(** A computation leaves a property of the builder in place, whether it
    returns or throws. *)
Definition preserves {A} (m : M A) (P : QueryBuilder → Prop) : Prop :=
  ∀ b, P b → P (snd (m b)).

(** The stage an edit of a stage is addressed to; [removeStage], which reads
    its path otherwise, and the calls on the whole query have none. *)
Definition stagePathOf (op : Op) : option StagePath :=
  match op with
  | OpAddField p _ | OpReplaceSavedField p _ _ | OpRemoveField p _
  | OpReorderFields p _ | OpToggleField p _ | OpAddFilter p _
  | OpEditFilter p _ _ _ | OpRemoveFilter p _ _ | OpAddLimit p _ _ _
  | OpAddOrderBy p _ _ | OpEditOrderBy p _ _ | OpRemoveLimit p
  | OpRemoveOrderBy p _ | OpRenameField p _ _ | OpAddFilterToField p _ _ _
  | OpAddNewNestedQuery p _ | OpAddNewField p _ | OpEditFieldDefinition p _ _
  | OpReplaceWithDefinition p _ _ => Some p
  | OpAddStage p _ => p
  | _ => None
  end.

(** Induction on the tree: a property of fields and a property of stages,
    each from the other below. *)
Section TreeInduction.
Variables (P : QueryFieldDef → Prop) (Q : PipeSegment → Prop).
Hypothesis onName : ∀ path, P (QName path).
Hypothesis onFan : ∀ fan, P (QFan fan).
Hypothesis onExpr : ∀ d, P (QExpr d).
Hypothesis onTurtle : ∀ name as_ stages, Forall Q stages → P (QTurtle (mkTurtle name as_ stages)).
Hypothesis onStage :
  ∀ ty stageFields fl lim ob by', Forall P stageFields →
    Q (mkSegment ty stageFields fl lim ob by').

Fixpoint field_tree_ind (f : QueryFieldDef) : P f :=
  match f with
  | QName path => onName path
  | QFan fan => onFan fan
  | QExpr d => onExpr d
  | QTurtle (mkTurtle name as_ stages) =>
      onTurtle name as_ stages
        ((fix all (l : list PipeSegment) : Forall Q l :=
            match l with
            | [] => @List.Forall_nil _ Q
            | s :: l' => @List.Forall_cons _ Q s l' (stage_tree_ind s) (all l')
            end) stages)
  end
with stage_tree_ind (s : PipeSegment) : Q s :=
  match s with
  | mkSegment ty stageFields fl lim ob by' =>
      onStage ty stageFields fl lim ob by'
        ((fix all (l : list QueryFieldDef) : Forall P l :=
            match l with
            | [] => @List.Forall_nil _ P
            | f :: l' => @List.Forall_cons _ P f l' (field_tree_ind f) (all l')
            end) stageFields)
  end.

End TreeInduction.

(** Fragments that leave the indentation as they found it: written from any
    indentation that is not negative, before any rest, they add a text and
    the rest goes on at that indentation. *)
Definition Balanced (fragments : list Fragment) : Prop :=
  ∀ rest code d sol, (0 ≤ d)%Z →
    ∃ text sol',
      codeFrom (fragments ++ rest) code d sol
      = codeFrom rest (code +:+ text) d sol'.

(** The runs of neighbours with the same keyword, each with the texts of its
    fields. *)
Fixpoint runs (infos : list CodeInfo) : list (string * list (list Fragment)) :=
  match infos with
  | [] => []
  | info :: later =>
      match runs later with
      | (property, malloys) :: rest =>
          if String.eqb (info_property info) property
          then (property, info_malloy info :: malloys) :: rest
          else (info_property info, [info_malloy info]) :: (property, malloys) :: rest
      | [] => [(info_property info, [info_malloy info])]
      end
  end.

(** The keyword clause of a run. *)
Definition writeRun (run : string * list (list Fragment)) : list Fragment :=
  writeMalloyForPropertyValues run.1 run.2.

(** ** 11b. More builders, and a stand-in for the text helpers *)

(** Identifiers are written as they are, numbers in decimal. *)
Definition demoText : Text := {|
  maybeQuoteIdentifier := λ identifier, identifier;
  numberToString := λ n, pretty n
|}.

Section MoreBuilders.
#[local] Existing Instance demoMalloy.

(** A reduce stage with [age], then the stage of the project kind. *)
Definition mixedBuilder : QueryBuilder :=
  after (setQuery (mkTurtle "mixed" None
                     [mkSegment reduce [QName "age"] None None None None;
                      listingStage]))
    demoBuilder.

End MoreBuilders.

(** * Properties *)

(** ** Lists and strings *)

Section Lists.
Context {A : Type}.
Implicit Types (p : A → bool) (l : list A).

Lemma findIndex_Some p l i :
  findIndex p l = Some i →
  ∃ x, l !! i = Some x ∧ p x = true ∧ ∀ j y, j < i → l !! j = Some y → p y = false.
Proof.
  revert i. induction l as [|a l IH]; intros i; [done|]. cbn.
  destruct (p a) eqn:Hpa.
  - intros [= <-]. exists a. repeat split; [done|]. intros; lia.
  - destruct (findIndex p l) as [k|]; [|done]. cbn. intros [= <-].
    destruct (IH k eq_refl) as (x & Hx & Hpx & Hbefore).
    exists x. repeat split; [done..|].
    intros [|j] y Hj Hy; cbn in Hy; [by injection Hy as <-|].
    eapply Hbefore; [|done]. lia.
Qed.

Lemma findIndex_None p l :
  findIndex p l = None ↔ ∀ x, x ∈ l → p x = false.
Proof.
  induction l as [|a l IH]; cbn.
  - split; [intros _ x Hx; by apply elem_of_nil in Hx|done].
  - destruct (p a) eqn:Hpa.
    + split; [done|]. intros H. specialize (H a). rewrite Hpa in H.
      discriminate H. by left.
    + destruct (findIndex p l) as [k|] eqn:Hk; cbn.
      * split; [done|]. intros H. exfalso.
        assert (Some k = None) as [=]. apply IH. intros x Hx. apply H. by right.
      * split; [|done]. intros _ x [->|Hx]%elem_of_cons; [done|]. by apply IH.
Qed.

Lemma findIndex_first p l i x :
  l !! i = Some x → p x = true →
  (∀ j y, j < i → l !! j = Some y → p y = false) →
  findIndex p l = Some i.
Proof.
  revert i. induction l as [|a l IH]; intros i Hx Hp Hbefore; [done|]. cbn.
  destruct i as [|i]; cbn in Hx.
  - injection Hx as ->. by rewrite Hp.
  - rewrite (Hbefore 0 a) by (done || lia).
    rewrite (IH i); [done..|]. intros j y Hj Hy. apply (Hbefore (S j) y); [lia|done].
Qed.

Lemma spliceIn_lookup l i x : i ≤ length l → spliceIn i x l !! i = Some x.
Proof.
  intros Hi. unfold spliceIn.
  rewrite lookup_app_r by (rewrite length_take; lia).
  rewrite length_take, Nat.min_l by done. by rewrite Nat.sub_diag.
Qed.

Lemma findIndex_spliceIn p l i x :
  findIndex p l = None → p x = true → i ≤ length l →
  findIndex p (spliceIn i x l) = Some i.
Proof.
  intros Hnone Hp Hi. apply findIndex_first with x; [by apply spliceIn_lookup|done|].
  intros j y Hj Hy. unfold spliceIn in Hy.
  rewrite lookup_app_l in Hy by (rewrite length_take; lia).
  apply lookup_take_Some in Hy as [Hy _].
  eapply findIndex_None; [done|]. by eapply list_elem_of_lookup_2.
Qed.

Lemma delete_spliceIn l i x : i ≤ length l → delete i (spliceIn i x l) = l.
Proof.
  intros Hi. unfold spliceIn. rewrite delete_take_drop.
  rewrite take_app_length' by (rewrite length_take; lia).
  replace (S i) with (i + 1) by lia.
  rewrite drop_app_add' by (rewrite length_take; lia).
  cbn. rewrite drop_0. apply take_drop.
Qed.

Lemma spliceIn_delete l i x : l !! i = Some x → spliceIn i x (delete i l) = l.
Proof.
  intros Hx. pose proof (lookup_lt_Some _ _ _ Hx) as Hi.
  unfold spliceIn. rewrite delete_take_drop.
  rewrite take_app_length' by (rewrite length_take; lia).
  rewrite drop_app_length' by (rewrite length_take; lia).
  by apply take_drop_middle.
Qed.

Lemma filter_nil_negb p l :
  List.filter p l = [] → List.filter (λ x, negb (p x)) l = l.
Proof.
  induction l as [|a l IH]; [done|]. cbn.
  destruct (p a); [done|]. cbn. intros H. by rewrite IH.
Qed.

Lemma findIndex_single p l o :
  List.filter p l = [o] →
  ∃ k, findIndex p l = Some k ∧ delete k l = List.filter (λ x, negb (p x)) l.
Proof.
  induction l as [|a l IH]; [done|]. cbn.
  destruct (p a); cbn.
  - intros [= _ Hrest]. exists 0. split; [done|]. cbn. by rewrite filter_nil_negb.
  - intros Hrest. destruct (IH Hrest) as (k & -> & Hdel).
    exists (S k). split; [done|]. cbn. f_equal. exact Hdel.
Qed.

Lemma filter_negb_Forall p l :
  Forall (λ x, p x = false) (List.filter (λ x, negb (p x)) l).
Proof.
  induction l as [|a l IH]; [done|]. cbn.
  destruct (p a) eqn:Hpa; cbn; [done|]. by constructor.
Qed.

Lemma filter_bool (f : A → bool) (P : A → Prop) `{!∀ x, Decision (P x)} l :
  (∀ x, x ∈ l → f x = true ↔ P x) → List.filter f l = filter P l.
Proof.
  induction l as [|a l IH]; intros Hf; [done|].
  rewrite filter_cons. cbn [List.filter].
  assert (List.filter f l = filter P l) as -> by (apply IH; intros; apply Hf; by right).
  destruct (f a) eqn:Hfa; case_decide as HP; try done.
  - destruct HP. apply Hf; [by left|done].
  - apply Hf in HP; [congruence|by left].
Qed.

Lemma Forall_List_filter (P : A → Prop) (f : A → bool) l :
  Forall P l → Forall P (List.filter f l).
Proof.
  induction 1 as [|x l Hx Hl IH]; cbn; [done|]. destruct (f x); [by constructor|done].
Qed.

Lemma Forall_mapM_lookup (P : A → Prop) l l' (order : list nat) :
  mapM (λ i, l !! i) order = Some l' → Forall P l → Forall P l'.
Proof.
  intros Hm Hl. apply mapM_Some in Hm.
  induction Hm as [|i x order l' Hx _ IH]; [done|]. constructor; [|done].
  exact (Forall_lookup_1 P l i x Hl Hx).
Qed.

Lemma Forall_bool_lookup (f : A → bool) l (i : nat) (x : A) :
  Forall f l → l !! i = Some x → f x.
Proof. intros Hl Hx. exact (Forall_lookup_1 (λ y, Is_true (f y)) l i x Hl Hx). Qed.

End Lists.

Lemma append_cons (x : ascii) (a b : string) :
  String x a +:+ b = String x (a +:+ b).
Proof. reflexivity. Qed.

Lemma append_assoc (a b c : string) : (a +:+ b) +:+ c = a +:+ (b +:+ c).
Proof.
  induction a as [|x a IH]; [reflexivity|].
  by rewrite !append_cons, IH.
Qed.

Lemma append_empty_r (a : string) : a +:+ EmptyString = a.
Proof.
  induction a as [|x a IH]; [reflexivity|].
  by rewrite append_cons, IH.
Qed.

(** ** Layout of filter clauses *)

Lemma repeatSpace_depth (k : nat) :
  repeatSpace (Z.of_nat k * TAB_WIDTH) = Return (spaces (2 * k)).
Proof.
  unfold repeatSpace, TAB_WIDTH.
  destruct (Z.ltb_spec (Z.of_nat k * 2) 0) as [Hneg|_]; [lia|].
  do 2 f_equal. lia.
Qed.

Lemma codeFrom_filterFragments (fl : list FilterExpression) (k : nat)
    (acc : string) (rest : list Fragment) :
  codeFrom (filterFragments fl ++ rest) acc (Z.of_nat k) true
  = codeFrom rest (acc +:+ filterLines k fl) (Z.of_nat k) true.
Proof.
  revert acc. induction fl as [|f fl IH]; intros acc.
  - simpl. by rewrite append_empty_r.
  - cbn [filterFragments app codeFrom]. rewrite repeatSpace_depth.
    cbn [bindR filterLines]. destruct fl as [|g fl].
    + cbn [app codeFrom filterFragments filterLines].
      f_equal. by rewrite !append_assoc.
    + cbn [app codeFrom]. rewrite IH. f_equal. by rewrite !append_assoc.
Qed.

(** The filter clause of a stage, written at depth [d] at the start of a
    line, adds the indentation and the text of the clause to what is written
    so far, and leaves the writer at depth [d] at the start of a line. *)
Lemma codeFrom_stageWhere (stage : PipeSegment) (fl : list FilterExpression)
    (d : nat) (acc : string) (rest : list Fragment) :
  filterList stage = Some fl →
  fl ≠ [] →
  codeFrom (stageWhere stage ++ rest) acc (Z.of_nat d) true
  = codeFrom rest (acc +:+ spaces (2 * d) +:+ whereText d fl) (Z.of_nat d) true.
Proof.
  intros Hfl Hne. unfold stageWhere. rewrite Hfl.
  destruct fl as [|f [|g fl]]; [done| |].
  - cbn [getFiltersString length Nat.eqb Nat.ltb Nat.leb app filterFragments codeFrom].
    rewrite repeatSpace_depth. cbn [bindR whereText].
    f_equal. rewrite !append_assoc. reflexivity.
  - cbn [getFiltersString length Nat.eqb Nat.ltb Nat.leb app codeFrom].
    rewrite repeatSpace_depth. cbn [bindR].
    replace (Z.of_nat d + 1)%Z with (Z.of_nat (S d)) by lia.
    rewrite <- app_assoc, codeFrom_filterFragments.
    cbn [app codeFrom whereText].
    replace (Z.of_nat (S d) - 1)%Z with (Z.of_nat d) by lia.
    f_equal. rewrite !append_assoc. reflexivity.
Qed.

(** [d] times [INDENT] takes the writer from depth 0 to depth [d]. *)
Lemma codeFrom_indents (d : nat) (k : Z) (rest : list Fragment) (acc : string)
    (isStartOfLine : bool) :
  codeFrom (replicate d INDENT ++ rest) acc k isStartOfLine
  = codeFrom rest acc (k + Z.of_nat d) isStartOfLine.
Proof.
  revert k. induction d as [|d IH]; intros k.
  - cbn [replicate app]. f_equal. lia.
  - cbn [replicate app codeFrom]. rewrite IH. f_equal. lia.
Qed.

(** C8: the text the writer returns for the filter clause of a stage at depth
    [d] is the indentation and [whereText]: [where: ] with the single
    predicate on the same line when the list has exactly one entry, and
    otherwise [where:] alone on its line with every predicate on a line of its
    own, one level deeper, followed by a comma unless it is the last.  This is
    the text whether the clause is written after other text ([acc]), from the empty
    text by [codeFromFragments], or before further fragments ([rest]), which
    are written after it at the depth of the clause, at the start of a
    line. *)
Theorem where_clause_layout (stage : PipeSegment) (fl : list FilterExpression)
    (d : nat) :
  filterList stage = Some fl →
  fl ≠ [] →
  codeFromFragments (replicate d INDENT ++ stageWhere stage)
  = Return (spaces (2 * d) +:+ whereText d fl) ∧
  (∀ acc, codeFrom (stageWhere stage) acc (Z.of_nat d) true
          = Return (acc +:+ spaces (2 * d) +:+ whereText d fl)) ∧
  (∀ acc rest,
     codeFrom (stageWhere stage ++ rest) acc (Z.of_nat d) true
     = codeFrom rest (acc +:+ spaces (2 * d) +:+ whereText d fl) (Z.of_nat d) true).
Proof.
  intros Hfl Hne.
  assert (∀ acc, codeFrom (stageWhere stage) acc (Z.of_nat d) true
                 = Return (acc +:+ spaces (2 * d) +:+ whereText d fl)) as Htext.
  { intros acc. rewrite <- (app_nil_r (stageWhere stage)).
    by rewrite (codeFrom_stageWhere stage fl d acc [] Hfl Hne). }
  split; [|split; [exact Htext|]].
  - unfold codeFromFragments. rewrite codeFrom_indents.
    change (0 + Z.of_nat d)%Z with (Z.of_nat d). by rewrite Htext.
  - intros acc rest. by apply codeFrom_stageWhere.
Qed.

Lemma where_clause_layout_witness :
  filterList demoFiltered = Some [adults; known] ∧
  [adults; known] ≠ [] ∧
  codeFromFragments ([INDENT] ++ stageWhere demoFiltered)
  = Return ("  where:" +:+ newline +:+
            "    age > 17," +:+ newline +:+
            "    name != null" +:+ newline) ∧
  codeFrom (stageWhere demoFiltered) "query: people -> {" 1 true
  = Return ("query: people -> {" +:+ "  where:" +:+ newline +:+
            "    age > 17," +:+ newline +:+
            "    name != null" +:+ newline).
Proof.
  split; [reflexivity|]. split; [discriminate|].
  pose proof (where_clause_layout demoFiltered [adults; known] 1
                eq_refl ltac:(discriminate)) as (Hwhole & Htext & _).
  split; [exact Hwhole | exact (Htext "query: people -> {")].
Defined.

(** A stage without filters has no filter clause. *)
Lemma where_clause_absent (stage : PipeSegment) :
  orEmpty (filterList stage) = [] → stageWhere stage = [].
Proof. unfold stageWhere. by destruct (filterList stage) as [[|f fl]|]. Qed.

(** The text of the two layouts, inside a stage. *)
Example where_inline_text :
  codeFrom (stageWhere (set_filterList demoFiltered (Some [adults]))) "" 1 true
  = Return ("  where: age > 17" +:+ newline).
Proof. reflexivity. Qed.

Example where_lines_text :
  codeFrom (stageWhere demoFiltered) "" 1 true
  = Return ("  where:" +:+ newline +:+
            "    age > 17," +:+ newline +:+
            "    name != null" +:+ newline).
Proof. reflexivity. Qed.

(** ** Addressing *)

Lemma stageIn_last (cur : list PipeSegment) (h : Hop) (r : option PipeSegment) :
  stageIn cur (PLast h) = Return r → fieldIndex h = None ∧ r = cur !! stageIndex h.
Proof.
  cbn. destruct (fieldIndex h) as [fi|]; [|by intros [= <-]].
  destruct (cur !! stageIndex h) as [st|]; cbn; [|done].
  destruct (fields st !! fi) as [[]|]; done.
Qed.

Lemma stageIn_cons (cur : list PipeSegment) (h : Hop) (rest : StagePath)
    (r : option PipeSegment) :
  stageIn cur (PCons h rest) = Return r →
  (fieldIndex h = None ∧ r = cur !! stageIndex h) ∨
  (∃ fi st t, fieldIndex h = Some fi ∧ cur !! stageIndex h = Some st ∧
              fields st !! fi = Some (QTurtle t) ∧ stageIn (pipeline t) rest = Return r).
Proof.
  cbn. destruct (fieldIndex h) as [fi|]; [|intros [= <-]; by left].
  destruct (cur !! stageIndex h) as [st|]; cbn; [|done].
  destruct (fields st !! fi) as [[]|] eqn:Hf; try done.
  intros Hr. right. eauto 10.
Qed.

(** A stage written at a path is the stage read there afterwards. *)
Lemma stageIn_writeIn (p : StagePath) (cur : list PipeSegment)
    (old new : PipeSegment) :
  stageIn cur p = Return (Some old) →
  stageIn (writeIn cur p new) p = Return (Some new).
Proof.
  revert cur. induction p as [h|h rest IH]; intros cur Hold.
  - apply stageIn_last in Hold as [Hf Hold]. cbn. rewrite Hf.
    symmetry in Hold. apply lookup_lt_Some in Hold.
    by rewrite list_lookup_insert_eq.
  - apply stageIn_cons in Hold as [[Hf Hold]|(fi & st & t & Hf & Hst & Ht & Hold)].
    + cbn. rewrite Hf. symmetry in Hold. apply lookup_lt_Some in Hold.
      by rewrite list_lookup_insert_eq.
    + cbn. rewrite Hf, Hst, Ht.
      rewrite list_lookup_insert_eq by (by eapply lookup_lt_Some).
      cbn. rewrite list_lookup_insert_eq by (by eapply lookup_lt_Some).
      cbn. by apply IH.
Qed.

Section Addressing.
Context {malloy : Malloy}.

Lemma sourceAfter_insert (l : list PipeSegment) (n i : nat) (x : PipeSegment)
    (s : StructDef) :
  n ≤ i → sourceAfter (<[i := x]> l) n s = sourceAfter l n s.
Proof.
  revert l i s. induction n as [|n IH]; intros l i s Hle; [done|].
  destruct l as [|y l]; [done|]. destruct i as [|i]; [lia|].
  change (<[S i:=x]> (y :: l)) with (y :: <[i:=x]> l).
  cbn [sourceAfter].
  destruct (modifySourceForStage y s); cbn [bindR]; [|done].
  apply IH. lia.
Qed.

(** The schema at a path does not depend on the stage the path ends in. *)
Lemma sourceIn_writeIn (p : StagePath) (cur : list PipeSegment) (src : StructDef)
    (old new : PipeSegment) :
  stageIn cur p = Return (Some old) →
  sourceIn (writeIn cur p new) src p = sourceIn cur src p.
Proof.
  revert cur src. induction p as [h|h rest IH]; intros cur src Hold.
  - apply stageIn_last in Hold as [Hf Hold]. cbn. rewrite Hf.
    by rewrite sourceAfter_insert.
  - apply stageIn_cons in Hold as [[Hf Hold]|(fi & st & t & Hf & Hst & Ht & Hold)].
    + cbn. rewrite Hf. by rewrite sourceAfter_insert.
    + cbn. rewrite Hf, Hst, Ht. rewrite sourceAfter_insert by done.
      destruct (sourceAfter cur (stageIndex h) src) as [s'|]; cbn; [|done].
      rewrite list_lookup_insert_eq by (by eapply lookup_lt_Some).
      cbn. rewrite list_lookup_insert_eq by (by eapply lookup_lt_Some).
      rewrite Ht. by apply IH.
Qed.

Lemma stageAtPath_written (p : StagePath) (b : QueryBuilder) (old new : PipeSegment) :
  stageAtPath p b = Return (Some old) →
  stageAtPath p (written p new b) = Return (Some new).
Proof.
  unfold stageAtPath, written. destruct b as [[n a pl] src log]. cbn.
  apply stageIn_writeIn.
Qed.

Lemma sourceForStageAtPath_written (p : StagePath) (b : QueryBuilder)
    (old new : PipeSegment) :
  stageAtPath p b = Return (Some old) →
  sourceForStageAtPath (Some p) (written p new b) = sourceForStageAtPath (Some p) b.
Proof.
  unfold stageAtPath, sourceForStageAtPath, written.
  destruct b as [[n a pl] src log]. cbn.
  apply sourceIn_writeIn.
Qed.

(** On a path that resolves, [autoExpandStageAtPath] is [stageAtPath]. *)
Lemma autoExpand_resolved (p : StagePath) (b : QueryBuilder)
    (r : option PipeSegment) :
  stageAtPath p b = Return r → autoExpandStageAtPath p b = (Return r, b).
Proof. intros H. unfold autoExpandStageAtPath, tryCatch, reading. by rewrite H. Qed.

(** What [autoExpandStageAtPath] returns is what [stageAtPath] finds in the
    tree it leaves. *)
Lemma autoExpand_returns (p : StagePath) (b b0 : QueryBuilder)
    (r : option PipeSegment) :
  autoExpandStageAtPath p b = (Return r, b0) → stageAtPath p b0 = Return r.
Proof.
  unfold autoExpandStageAtPath, tryCatch, reading.
  destruct (stageAtPath p b) as [r0|e] eqn:Hs; [by intros [= <- <-]|].
  destruct e; try done.
  destruct (stagePathPop p) as [[newStagePath si] fi].
  unfold bind, reading, throw.
  destruct (sourceForStageAtPath newStagePath b); [|done].
  destruct (fieldDefForQueryFieldDef _ _ _) as [[]|]; try done.
  destruct (replaceWithDefinition _ _ _ _) as [[] b1]; [|done].
  by intros [= H <-].
Qed.

Lemma stageRef_resolved (p : StagePath) (b : QueryBuilder) (stage : PipeSegment) :
  stageAtPath p b = Return (Some stage) → stageRef p b = (Return stage, b).
Proof. intros H. unfold stageRef, reading. by rewrite H. Qed.

(** ** Limits and filters *)

(** C10, amended: on a stage of the reduce kind [addLimit] sets the limit;
    with a [byField] the order-by list becomes the single entry that names
    [byField.path], whatever it held before, and without one the order-by list
    stays as it is; nothing else of the stage is touched.  On a stage of
    another kind [addLimit] throws and the builder is as it was. *)
Theorem addLimit_sets (p : StagePath) (n : Z) (byField : option SchemaField)
    (direction : option Direction) (b : QueryBuilder) (stage : PipeSegment) :
  stageAtPath p b = Return (Some stage) →
  (type stage = reduce →
   ∃ b' stage',
     addLimit p n byField direction b = (Return (), b') ∧
     stageAtPath p b' = Return (Some stage') ∧
     limit stage' = Some n ∧
     orderBy stage' =
       match byField with
       | Some f => Some [mkOrderBy (ByName (sf_path f)) direction]
       | None => orderBy stage
       end ∧
     fields stage' = fields stage ∧ filterList stage' = filterList stage ∧
     type stage' = type stage ∧ by_ stage' = by_ stage) ∧
  (type stage ≠ reduce →
   addLimit p n byField direction b
   = (Throw (Error "Don't know how to handle this yet"), b)).
Proof.
  intros Hst. split; intros Hty; unfold addLimit, bind;
    rewrite (autoExpand_resolved _ _ _ Hst); cbn.
  - rewrite Hty. eexists _, _. split; [reflexivity|].
    split; [by eapply stageAtPath_written|].
    by destruct byField, stage.
  - by destruct (type stage).
Qed.

(** C9: on a refined field [removeFilter] deletes the entry of the field's
    filter list at position [fieldIndex], and the result does not depend on
    [filterIndex]; without a [fieldIndex] it deletes the entry of the stage's
    filter list at position [filterIndex]. *)
Theorem removeFilter_index (p : StagePath) (b : QueryBuilder) (stage : PipeSegment)
    (filterIndex : nat) :
  stageAtPath p b = Return (Some stage) →
  (∀ fi fan filters,
     fields stage !! fi = Some (QFan fan) →
     fan_filterList fan = Some filters →
     ∃ b' stage',
       removeFilter p filterIndex (Some fi) b = (Return (), b') ∧
       stageAtPath p b' = Return (Some stage') ∧
       fields stage'
         = <[fi := QFan (mkFan (fan_name fan) (fan_as fan) (Some (delete fi filters)))]>
             (fields stage) ∧
       filterList stage' = filterList stage ∧
       ∀ other, removeFilter p other (Some fi) b = (Return (), b')) ∧
  (∀ filters,
     filterList stage = Some filters →
     ∃ b' stage',
       removeFilter p filterIndex None b = (Return (), b') ∧
       stageAtPath p b' = Return (Some stage') ∧
       filterList stage' = Some (delete filterIndex filters) ∧
       fields stage' = fields stage).
Proof.
  intros Hst. split.
  - intros fi fan filters Hfan Hfl. unfold removeFilter, bind.
    rewrite (stageRef_resolved _ _ _ Hst). rewrite Hfan, Hfl.
    eexists _, _. split; [reflexivity|].
    split; [by eapply stageAtPath_written|].
    by destruct stage.
  - intros filters Hfl. unfold removeFilter, bind.
    rewrite (stageRef_resolved _ _ _ Hst). rewrite Hfl.
    eexists _, _. split; [reflexivity|].
    split; [by eapply stageAtPath_written|]. by destruct stage.
Qed.

End Addressing.

Section LimitsAndFiltersDemo.
#[local] Existing Instance demoMalloy.

(** C10 as stated fails: the root stage of [listingBuilder] is a project
    stage with an order-by entry and no limit; [addLimit] throws on it, with a
    [byField] and without one, and the builder, so the limit and the order-by
    list of the stage, is as before. *)
Lemma addLimit_refuses_project_stage :
  stageAtPath rootStage listingBuilder = Return (Some listingStage) ∧
  type listingStage = project ∧
  limit listingStage = None ∧
  orderBy listingStage = Some [mkOrderBy (ByName "age") None] ∧
  addLimit rootStage 10 (Some (mkSchemaField "total" "total" "number")) (Some desc)
    listingBuilder
  = (Throw (Error "Don't know how to handle this yet"), listingBuilder) ∧
  addLimit rootStage 10 None None listingBuilder
  = (Throw (Error "Don't know how to handle this yet"), listingBuilder).
Proof. repeat split; reflexivity. Qed.

Lemma addLimit_sets_witness :
  stageAtPath rootStage demoBuilder = Return (Some emptyStage) ∧
  (∃ b' stage',
     addLimit rootStage 10 (Some (mkSchemaField "total" "total" "number")) (Some desc)
       demoBuilder = (Return (), b') ∧
     stageAtPath rootStage b' = Return (Some stage') ∧
     limit stage' = Some 10%Z ∧
     orderBy stage' = Some [mkOrderBy (ByName "total") (Some desc)] ∧
     fields stage' = fields emptyStage ∧ filterList stage' = filterList emptyStage ∧
     type stage' = type emptyStage ∧ by_ stage' = by_ emptyStage) ∧
  stageAtPath rootStage listingBuilder = Return (Some listingStage) ∧
  addLimit rootStage 10 None None listingBuilder
  = (Throw (Error "Don't know how to handle this yet"), listingBuilder).
Proof.
  split; [reflexivity|].
  split.
  - apply (addLimit_sets rootStage 10 (Some (mkSchemaField "total" "total" "number"))
             (Some desc) demoBuilder emptyStage); reflexivity.
  - split; [reflexivity|].
    apply (addLimit_sets rootStage 10 None None listingBuilder listingStage);
      [reflexivity|discriminate].
Defined.

(** [removeFilter(path, 1, 0)] on the refined field deletes its filter 0. *)
Example removeFilter_takes_fieldIndex :
  stageAtPath rootStage (after (removeFilter rootStage 1 (Some 0)) refinedBuilder)
  = Return (Some (mkSegment reduce
                    [QFan (mkFan "age" (Some "adult") (Some [known]))]
                    None None None None)).
Proof. reflexivity. Qed.

(** The refined field loses its filter 0 on [removeFilter(path, 1, 0)], and
    the stage its filter 1 on [removeFilter(path, 1)]. *)
Lemma removeFilter_index_witness :
  (stageAtPath rootStage refinedBuilder
   = Return (Some (mkSegment reduce [QFan refinedField] None None None None)) ∧
   ∃ b' stage',
     removeFilter rootStage 1 (Some 0) refinedBuilder = (Return (), b') ∧
     stageAtPath rootStage b' = Return (Some stage') ∧
     fields stage' = [QFan (mkFan "age" (Some "adult") (Some [known]))]) ∧
  (stageAtPath rootStage filteredBuilder = Return (Some demoFiltered) ∧
   ∃ b' stage',
     removeFilter rootStage 1 None filteredBuilder = (Return (), b') ∧
     stageAtPath rootStage b' = Return (Some stage') ∧
     filterList stage' = Some [adults]).
Proof.
  split.
  - split; [reflexivity|].
    destruct (removeFilter_index rootStage refinedBuilder
                (mkSegment reduce [QFan refinedField] None None None None) 1 eq_refl)
      as [Hfield _].
    destruct (Hfield 0 refinedField [adults; known] eq_refl eq_refl)
      as (b' & stage' & Hrun & Hst & Hfields & _).
    exists b', stage'. split; [exact Hrun|]. split; [exact Hst|exact Hfields].
  - split; [reflexivity|].
    destruct (removeFilter_index rootStage filteredBuilder demoFiltered 1 eq_refl)
      as [_ Hstage].
    destruct (Hstage [adults; known] eq_refl)
      as (b' & stage' & Hrun & Hst & Hfilters & _).
    exists b', stage'. split; [exact Hrun|]. split; [exact Hst|exact Hfilters].
Defined.

End LimitsAndFiltersDemo.

(** ** Inserting, toggling and removing fields *)

Section Fields.
Context {malloy : Malloy}.

Lemma scanFields_spec (root src : StructDef) (r : nat) (fs : list QueryFieldDef)
    (k : nat) :
  ∃ j, scanFields root src r fs k = (k + j, failures root src (take j fs)) ∧
       placedAt root src r fs j.
Proof.
  unfold placedAt. revert k. induction fs as [|f fs IH]; intros k.
  - exists 0. cbn. split; [by rewrite Nat.add_0_r|]. split; [done|].
    split; [intros; lia|by left].
  - cbn [scanFields].
    destruct (fieldDefForQueryFieldDef root f src) as [d|e] eqn:Hd.
    + destruct (Nat.ltb_spec r (sortOrder d)) as [Hlt|Hge].
      * exists 0. split; [by rewrite Nat.add_0_r|]. split; [cbn; lia|].
        split; [intros; lia|]. right. exists f, (sortOrder d).
        unfold rankOf. by rewrite Hd.
      * destruct (IH (S k)) as (j & Hscan & Hlen & Hbefore & Hat).
        exists (S j). rewrite Hscan. split.
        { f_equal; [lia|]. unfold failures. cbn. by rewrite Hd. }
        split; [cbn; lia|]. split.
        { intros [|m] g r' Hm Hg Hr; cbn in Hg.
          - injection Hg as <-. unfold rankOf in Hr. rewrite Hd in Hr.
            injection Hr as <-. done.
          - eapply Hbefore; [|done..]. lia. }
        destruct Hat as [->|Hat]; [by left|by right].
    + destruct (IH (S k)) as (j & Hscan & Hlen & Hbefore & Hat).
      exists (S j). rewrite Hscan. split.
      { f_equal; [lia|]. unfold failures. cbn. by rewrite Hd. }
      split; [cbn; lia|]. split.
      { intros [|m] g r' Hm Hg Hr; cbn in Hg.
        - injection Hg as <-. unfold rankOf in Hr. by rewrite Hd in Hr.
        - eapply Hbefore; [|done..]. lia. }
      destruct Hat as [->|Hat]; [by left|by right].
Qed.

(** The place of a new field is unique. *)
Lemma placedAt_unique (root src : StructDef) (r : nat) (fs : list QueryFieldDef)
    (i j : nat) :
  placedAt root src r fs i → placedAt root src r fs j → i = j.
Proof.
  assert (∀ i j, placedAt root src r fs i → placedAt root src r fs j → ¬ i < j)
    as Hlt.
  { clear i j. intros i j (Hi & _ & Hat) (Hj & Hbefore & _) Hij.
    destruct Hat as [->|(g & r' & Hg & Hr & Hlt)]; [lia|].
    specialize (Hbefore i g r' Hij Hg Hr). lia. }
  intros Hi Hj. pose proof (Hlt i j Hi Hj). pose proof (Hlt j i Hj Hi). lia.
Qed.

(** What [insertField] does once the path leads to a stage and the new field
    resolves. *)
Lemma insertField_places (p : StagePath) (field : QueryFieldDef)
    (b b0 : QueryBuilder) (stage : PipeSegment) (src : StructDef) (d : FieldDef) :
  autoExpandStageAtPath p b = (Return (Some stage), b0) →
  sourceForStageAtPath (Some p) b0 = Return src →
  fieldDefForQueryFieldDef (_source b0) field src = Return d →
  ∃ i, placedAt (_source b0) src (sortOrder d) (fields stage) i ∧
       insertField p field b
       = (Return (),
          written p (set_fields stage (spliceIn i field (fields stage)))
            (logged b0 (failures (_source b0) src (take i (fields stage))))).
Proof.
  intros Hexp Hsrc Hd.
  pose proof (autoExpand_returns _ _ _ _ Hexp) as Hst.
  destruct (scanFields_spec (_source b0) src (sortOrder d) (fields stage) 0)
    as (i & Hscan & Hplaced).
  exists i. split; [done|].
  unfold insertField, bind. rewrite Hexp.
  unfold getIndexToInsertNewField, bind, reading, lift, getSource.
  rewrite Hst, Hsrc, Hd. cbn [defined]. by rewrite Hscan.
Qed.

Lemma stageAtPath_logged (p : StagePath) (b : QueryBuilder) (es : list Exn) :
  stageAtPath p (logged b es) = stageAtPath p b.
Proof. done. Qed.

Lemma sortOrder_kinds (d : FieldDef) :
  sortOrder d =
    match d with
    | FStruct _ => 3
    | FTurtle _ => 2
    | FAtomic a => if expressionIsCalculation (expressionType a) then 1 else 0
    end.
Proof. by destruct d. Qed.

(** C5: the new field, of rank 0 for a dimension, 1 for a calculation, 2 for
    a nested query and 3 for a structure, goes to the first index whose field
    has a strictly greater rank, or to the end when there is none; fields of
    the stage that do not resolve against the live schema are logged and
    passed over, and the insertion goes on; so a field of a greater rank that
    was in the stage comes after the new field. *)
Theorem insertField_position (p : StagePath) (field : QueryFieldDef)
    (b b0 : QueryBuilder) (stage : PipeSegment) (src : StructDef) (d : FieldDef) :
  autoExpandStageAtPath p b = (Return (Some stage), b0) →
  sourceForStageAtPath (Some p) b0 = Return src →
  fieldDefForQueryFieldDef (_source b0) field src = Return d →
  sortOrder d =
    match d with
    | FStruct _ => 3
    | FTurtle _ => 2
    | FAtomic a => if expressionIsCalculation (expressionType a) then 1 else 0
    end ∧
  ∃ i b' stage',
    insertField p field b = (Return (), b') ∧
    stageAtPath p b' = Return (Some stage') ∧
    fields stage' = take i (fields stage) ++ field :: drop i (fields stage) ∧
    placedAt (_source b0) src (sortOrder d) (fields stage) i ∧
    console b' = console b0 ++ failures (_source b0) src (take i (fields stage)) ∧
    (∀ j g r, fields stage !! j = Some g → rankOf (_source b0) src g = Some r →
              sortOrder d < r →
              i ≤ j ∧ fields stage' !! i = Some field ∧ fields stage' !! S j = Some g).
Proof.
  intros Hexp Hsrc Hd. split; [apply sortOrder_kinds|].
  pose proof (autoExpand_returns _ _ _ _ Hexp) as Hst.
  destruct (insertField_places p field b b0 stage src d Hexp Hsrc Hd)
    as (i & Hplaced & Hrun).
  exists i. eexists _, _. split; [exact Hrun|].
  split; [by eapply stageAtPath_written|].
  split; [by destruct stage|]. split; [done|]. split; [done|].
  intros j g r Hg Hr Hlt. destruct Hplaced as (Hi & Hbefore & _).
  assert (i ≤ j) as Hij.
  { destruct (Nat.le_gt_cases i j) as [|Hji]; [done|].
    specialize (Hbefore j g r Hji Hg Hr). lia. }
  split; [done|]. replace (fields (set_fields _ _)) with
    (spliceIn i field (fields stage)) by (by destruct stage).
  split; [by apply spliceIn_lookup|]. unfold spliceIn.
  rewrite lookup_app_r by (rewrite length_take; lia).
  rewrite length_take, Nat.min_l by done.
  replace (S j - i) with (S (j - i)) by lia.
  change ((field :: drop i (fields stage)) !! S (j - i))
    with (drop i (fields stage) !! (j - i)).
  rewrite lookup_drop. by replace (i + (j - i)) with j by lia.
Qed.

(** What [removeField] does to the fields. *)
Lemma removeField_fields (p : StagePath) (i : nat) (b : QueryBuilder)
    (stage : PipeSegment) :
  stageAtPath p b = Return (Some stage) →
  is_Some (fields stage !! i) →
  ∃ stage',
    removeField p i b = (Return (), written p stage' b) ∧
    fields stage' = delete i (fields stage).
Proof.
  intros Hst [f Hf]. unfold removeField, bind.
  rewrite (stageRef_resolved _ _ _ Hst).
  destruct stage as [ty fs fl lim [[|o os]|] by']; cbn in Hf |- *;
    destruct ty; cbn; rewrite ?Hf; cbn;
    try (destruct (orderRefers (nameOf f) o); cbn;
         [|destruct (findIndex (orderRefers (nameOf f)) os); cbn]);
    (eexists; split; [reflexivity|done]).
Qed.

Lemma isBareName_QName (x : string) : isBareName x (QName x) = true.
Proof. cbn. apply String.eqb_refl. Qed.

Lemma isBareName_inv (x : string) (f : QueryFieldDef) :
  isBareName x f = true → f = QName x.
Proof. destruct f; try done. cbn. by intros ->%String.eqb_eq. Qed.

Lemma getFieldIndex_resolved (p : StagePath) (x : string) (b : QueryBuilder)
    (stage : PipeSegment) :
  stageAtPath p b = Return (Some stage) →
  getFieldIndex p x b = (Return (findIndex (isBareName x) (fields stage)), b).
Proof.
  intros Hst. unfold getFieldIndex, bind. by rewrite (stageRef_resolved _ _ _ Hst).
Qed.

(** C3, amended: toggling a bare name twice gives back the field sequence
    when the name was not in the stage as a bare name, and when it was there
    exactly once and at the index the insertion rule gives it. *)
Theorem toggleField_twice (p : StagePath) (x : string) (b : QueryBuilder)
    (stage : PipeSegment) (src : StructDef) (d : FieldDef) :
  stageAtPath p b = Return (Some stage) →
  sourceForStageAtPath (Some p) b = Return src →
  getField (_source b) src x = Return d →
  (findIndex (isBareName x) (fields stage) = None ∨
   ∃ i, findIndex (isBareName x) (fields stage) = Some i ∧
        findIndex (isBareName x) (delete i (fields stage)) = None ∧
        placedAt (_source b) src (sortOrder d) (delete i (fields stage)) i) →
  ∃ b1 b2 stage2,
    toggleField p x b = (Return (), b1) ∧
    toggleField p x b1 = (Return (), b2) ∧
    stageAtPath p b2 = Return (Some stage2) ∧
    fields stage2 = fields stage.
Proof.
  intros Hst Hsrc Hd [Habsent|(i & Hi & Honce & Hplace)].
  - destruct (insertField_places p (QName x) b b stage src d)
      as (i & (Hi & _) & Hins); [by apply autoExpand_resolved|done..|].
    set (stage1 := set_fields stage _) in Hins.
    set (b1 := written p stage1 _) in Hins.
    assert (stageAtPath p b1 = Return (Some stage1)) as Hst1
      by (by eapply stageAtPath_written).
    assert (fields stage1 = spliceIn i (QName x) (fields stage)) as Hfs1
      by (by destruct stage).
    destruct (removeField_fields p i b1 stage1 Hst1) as (stage2 & Hrem & Hfs2).
    { rewrite Hfs1, spliceIn_lookup; [by eexists|done]. }
    exists b1, (written p stage2 b1), stage2.
    split; [|split; [|split; [by eapply stageAtPath_written|]]].
    + unfold toggleField, bind. rewrite (autoExpand_resolved _ _ _ Hst).
      rewrite (getFieldIndex_resolved _ _ _ _ Hst), Habsent. exact Hins.
    + unfold toggleField, bind. rewrite (autoExpand_resolved _ _ _ Hst1).
      rewrite (getFieldIndex_resolved _ _ _ _ Hst1), Hfs1.
      rewrite findIndex_spliceIn; [done..|apply isBareName_QName|done].
    + rewrite Hfs2, Hfs1. by apply delete_spliceIn.
  - destruct (findIndex_Some _ _ _ Hi) as (f & Hf & Hbare & _).
    apply isBareName_inv in Hbare as ->.
    destruct (removeField_fields p i b stage Hst) as (stage1 & Hrem & Hfs1);
      [by eexists|].
    set (b1 := written p stage1 b) in *.
    assert (stageAtPath p b1 = Return (Some stage1)) as Hst1
      by (by eapply stageAtPath_written).
    destruct (insertField_places p (QName x) b1 b1 stage1 src d)
      as (i' & Hplace' & Hins).
    { by apply autoExpand_resolved. }
    { subst b1. by erewrite sourceForStageAtPath_written. }
    { exact Hd. }
    rewrite Hfs1 in Hplace'.
    assert (i' = i) as -> by (by eapply placedAt_unique).
    eexists b1, _, _. split; [|split; [|split]].
    + unfold toggleField, bind. rewrite (autoExpand_resolved _ _ _ Hst).
      by rewrite (getFieldIndex_resolved _ _ _ _ Hst), Hi.
    + unfold toggleField, bind. rewrite (autoExpand_resolved _ _ _ Hst1).
      rewrite (getFieldIndex_resolved _ _ _ _ Hst1), Hfs1, Honce. exact Hins.
    + eapply stageAtPath_written. exact Hst1.
    + replace (fields (set_fields _ _)) with
        (spliceIn i (QName x) (fields stage1)) by (by destruct stage1).
      rewrite Hfs1. by apply spliceIn_delete.
Qed.

(** What [removeField] does to a list of order-by entries of which one names
    the field. *)
Lemma removeField_orders (p : StagePath) (i : nat) (b : QueryBuilder)
    (stage : PipeSegment) (f : QueryFieldDef) :
  stageAtPath p b = Return (Some stage) →
  fields stage !! i = Some f →
  ∃ stage',
    removeField p i b = (Return (), written p stage' b) ∧
    fields stage' = delete i (fields stage) ∧
    (type stage = reduce →
     ∀ orders o,
       orderBy stage = Some orders →
       List.filter (orderRefers (nameOf f)) orders = [o] →
       orderBy stage'
         = Some (List.filter (λ o', negb (orderRefers (nameOf f) o')) orders)) ∧
    (type stage ≠ reduce → orderBy stage' = orderBy stage).
Proof.
  intros Hst Hf. unfold removeField, bind.
  rewrite (stageRef_resolved _ _ _ Hst).
  destruct stage as [ty fs fl lim ob by']; cbn in Hf |- *.
  destruct ty; cbn;
    try (eexists; split; [reflexivity|]; split; [done|]; split; [done|done]).
  destruct ob as [[|o1 os]|]; cbn.
  - eexists; split; [reflexivity|]. split; [done|].
    split; [|done]. intros _ orders o [= <-]. done.
  - rewrite Hf. cbn.
    destruct (findIndex (orderRefers (nameOf f)) (o1 :: os)) as [k|] eqn:Hk;
      cbn in Hk; rewrite Hk; cbn;
      (eexists; split; [reflexivity|]; split; [done|]; split; [|done]);
      intros _ orders o [= <-] Hone; cbn;
      destruct (findIndex_single _ _ _ Hone) as (k' & Hk' & Hdel);
      cbn in Hk'; rewrite Hk in Hk'; [|done].
    injection Hk' as <-. by rewrite Hdel.
  - eexists; split; [reflexivity|]. split; [done|].
    split; [|done]. by intros _ orders o [=].
Qed.

(** C2, amended: on a reduce stage whose order-by list has exactly one entry
    that names the field, [removeField] deletes that entry and the field, and
    no entry that names the field is left; on a stage of another kind it
    deletes the field and keeps the order-by list. *)
Theorem removeField_order_entry (p : StagePath) (i : nat) (b : QueryBuilder)
    (stage : PipeSegment) (f : QueryFieldDef) :
  stageAtPath p b = Return (Some stage) →
  fields stage !! i = Some f →
  ∃ b' stage',
    removeField p i b = (Return (), b') ∧
    stageAtPath p b' = Return (Some stage') ∧
    fields stage' = delete i (fields stage) ∧
    (type stage = reduce →
     ∀ orders o,
       orderBy stage = Some orders →
       List.filter (orderRefers (nameOf f)) orders = [o] →
       orderBy stage'
         = Some (List.filter (λ o', negb (orderRefers (nameOf f) o')) orders) ∧
       Forall (λ o', orderRefers (nameOf f) o' = false) (orEmpty (orderBy stage'))) ∧
    (type stage ≠ reduce → orderBy stage' = orderBy stage).
Proof.
  intros Hst Hf.
  destruct (removeField_orders p i b stage f Hst Hf)
    as (stage' & Hrun & Hfields & Hreduce & Hother).
  exists (written p stage' b), stage'. split; [done|].
  split; [by eapply stageAtPath_written|]. split; [done|]. split; [|done].
  intros Hty orders o Hob Hone. rewrite (Hreduce Hty orders o Hob Hone).
  split; [done|]. apply filter_negb_Forall.
Qed.

End Fields.

Section FieldsDemo.
#[local] Existing Instance demoMalloy.

(** Fields of rising rank stay in the order of their insertion, and a
    dimension goes before the calculation that was there. *)
Example insert_rising_ranks :
  stageAtPath rootStage
    (after (addNewNestedQuery rootStage "detail")
       (after (addField rootStage "total")
          (after (addField rootStage "age") demoBuilder)))
  = Return (Some (mkSegment reduce
                    [QName "age"; QName "total";
                     QTurtle (mkTurtle "detail" None [emptyStage])]
                    None None None None)).
Proof. reflexivity. Qed.

Example insert_dimension_before_calculation :
  stageAtPath rootStage
    (after (addField rootStage "age") (after (addField rootStage "total") demoBuilder))
  = Return (Some (mkSegment reduce [QName "age"; QName "total"] None None None None)).
Proof. reflexivity. Qed.

(** A field that does not resolve is logged and passed over. *)
Example insert_passes_unresolved :
  stageAtPath rootStage (after (addField rootStage "age") ghostBuilder)
  = Return (Some (mkSegment reduce [QName "ghost"; QName "age"; QName "total"]
                    None None None None)) ∧
  console (after (addField rootStage "age") ghostBuilder)
  = [Error "Could not find ghost"; Error "Could not find ghost"].
Proof. split; reflexivity. Qed.

Lemma insertField_position_witness :
  autoExpandStageAtPath rootStage ghostBuilder
  = (Return (Some (mkSegment reduce [QName "ghost"; QName "total"] None None None None)),
     ghostBuilder) ∧
  sourceForStageAtPath (Some rootStage) ghostBuilder = Return demoSource ∧
  fieldDefForQueryFieldDef (_source ghostBuilder) (QName "age") demoSource
  = Return (dimension "age" "number") ∧
  ∃ i b' stage',
    insertField rootStage (QName "age") ghostBuilder = (Return (), b') ∧
    stageAtPath rootStage b' = Return (Some stage') ∧
    fields stage'
    = take i [QName "ghost"; QName "total"] ++ QName "age"
        :: drop i [QName "ghost"; QName "total"].
Proof.
  split; [reflexivity|]. split; [reflexivity|]. split; [reflexivity|].
  destruct (insertField_position rootStage (QName "age") ghostBuilder ghostBuilder
              (mkSegment reduce [QName "ghost"; QName "total"] None None None None)
              demoSource (dimension "age" "number") eq_refl eq_refl eq_refl)
    as (_ & i & b' & stage' & Hrun & Hst & Hfields & _).
  exists i, b', stage'. split; [exact Hrun|]. split; [exact Hst|exact Hfields].
Defined.

(** C3 as stated fails: [age] stands after [total]; toggled off and on it
    comes back before [total]. *)
Lemma toggleField_twice_moves :
  fst (toggleField rootStage "age" swappedBuilder) = Return () ∧
  fst (toggleField rootStage "age" (after (toggleField rootStage "age") swappedBuilder))
  = Return () ∧
  ∃ stage stage2,
    stageAtPath rootStage swappedBuilder = Return (Some stage) ∧
    stageAtPath rootStage
      (after (toggleField rootStage "age")
         (after (toggleField rootStage "age") swappedBuilder))
    = Return (Some stage2) ∧
    fields stage = [QName "total"; QName "age"] ∧
    fields stage2 = [QName "age"; QName "total"] ∧
    fields stage2 ≠ fields stage.
Proof.
  split; [reflexivity|]. split; [reflexivity|].
  eexists _, _. split; [reflexivity|]. split; [reflexivity|].
  split; [reflexivity|]. split; [reflexivity|]. discriminate.
Qed.

(** [age] toggled on and off on the empty stage, and [region] toggled off and
    on where it stands last among the dimensions. *)
Lemma toggleField_twice_witness :
  (stageAtPath rootStage demoBuilder = Return (Some emptyStage) ∧
   sourceForStageAtPath (Some rootStage) demoBuilder = Return demoSource ∧
   getField (_source demoBuilder) demoSource "age" = Return (dimension "age" "number") ∧
   findIndex (isBareName "age") (fields emptyStage) = None ∧
   ∃ b1 b2 stage2,
     toggleField rootStage "age" demoBuilder = (Return (), b1) ∧
     toggleField rootStage "age" b1 = (Return (), b2) ∧
     stageAtPath rootStage b2 = Return (Some stage2) ∧
     fields stage2 = fields emptyStage) ∧
  (stageAtPath rootStage regionBuilder
   = Return (Some (mkSegment reduce [QName "age"; QName "region"] None None None None)) ∧
   findIndex (isBareName "region") [QName "age"; QName "region"] = Some 1 ∧
   findIndex (isBareName "region") (delete 1 [QName "age"; QName "region"]) = None ∧
   ∃ b1 b2 stage2,
     toggleField rootStage "region" regionBuilder = (Return (), b1) ∧
     toggleField rootStage "region" b1 = (Return (), b2) ∧
     stageAtPath rootStage b2 = Return (Some stage2) ∧
     fields stage2 = [QName "age"; QName "region"]).
Proof.
  split.
  - split; [reflexivity|]. split; [reflexivity|]. split; [reflexivity|].
    split; [reflexivity|].
    apply (toggleField_twice rootStage "age" demoBuilder emptyStage demoSource
             (dimension "age" "number")); [reflexivity..|].
    left. reflexivity.
  - split; [reflexivity|]. split; [reflexivity|]. split; [reflexivity|].
    apply (toggleField_twice rootStage "region" regionBuilder
             (mkSegment reduce [QName "age"; QName "region"] None None None None)
             demoSource (dimension "region" "string")); [reflexivity..|].
    right. exists 1. split; [reflexivity|]. split; [reflexivity|].
    split; [cbn; lia|]. split; [|by left].
    intros [|j] g r' Hj Hg Hr; [|lia].
    injection Hg as <-. vm_compute in Hr. injection Hr as <-. cbn. lia.
Defined.

(** Where [age] stands twice, each toggle removes one of the two: nothing is
    put back, and two toggles leave the stage without fields. *)
Example toggleField_twice_removes_both :
  let twice :=
    after (setQuery (mkTurtle "people" None
                       [mkSegment reduce [QName "age"; QName "age"] None None None None]))
      demoBuilder in
  stageAtPath rootStage twice
  = Return (Some (mkSegment reduce [QName "age"; QName "age"] None None None None)) ∧
  fst (toggleField rootStage "age" twice) = Return () ∧
  stageAtPath rootStage (after (toggleField rootStage "age") twice)
  = Return (Some (mkSegment reduce [QName "age"] None None None None)) ∧
  fst (toggleField rootStage "age" (after (toggleField rootStage "age") twice))
  = Return () ∧
  stageAtPath rootStage
    (after (toggleField rootStage "age") (after (toggleField rootStage "age") twice))
  = Return (Some (mkSegment reduce [] None None None None)).
Proof. repeat split; reflexivity. Qed.

(** C2 as stated fails: of two entries that name [age] one is left on a
    reduce stage, and a project stage keeps its entry. *)
Lemma removeField_leaves_order_entries :
  (stageAtPath rootStage twiceOrderedBuilder
   = Return (Some (mkSegment reduce [QName "age"] None None
                     (Some [mkOrderBy (ByName "age") (Some asc);
                            mkOrderBy (ByName "age") (Some desc)]) None)) ∧
   removeField rootStage 0 twiceOrderedBuilder
   = (Return (), after (removeField rootStage 0) twiceOrderedBuilder) ∧
   stageAtPath rootStage (after (removeField rootStage 0) twiceOrderedBuilder)
   = Return (Some (mkSegment reduce [] None None
                     (Some [mkOrderBy (ByName "age") (Some desc)]) None)) ∧
   orderRefers "age" (mkOrderBy (ByName "age") (Some desc)) = true) ∧
  (stageAtPath rootStage listingBuilder
   = Return (Some (mkSegment project [QName "age"] None None
                     (Some [mkOrderBy (ByName "age") None]) None)) ∧
   stageAtPath rootStage (after (removeField rootStage 0) listingBuilder)
   = Return (Some (mkSegment project [] None None
                     (Some [mkOrderBy (ByName "age") None]) None))).
Proof. repeat split; reflexivity. Qed.

(** [age] removed from a reduce stage ordered by it once, and from a stage of
    the project kind. *)
Lemma removeField_order_entry_witness :
  (stageAtPath rootStage orderedBuilder = Return (Some orderedStage) ∧
   fields orderedStage !! 0 = Some (QName "age") ∧
   ∃ b' stage',
     removeField rootStage 0 orderedBuilder = (Return (), b') ∧
     stageAtPath rootStage b' = Return (Some stage') ∧
     fields stage' = [] ∧
     orderBy stage' = Some []) ∧
  (stageAtPath rootStage listingBuilder = Return (Some listingStage) ∧
   fields listingStage !! 0 = Some (QName "age") ∧
   ∃ b' stage',
     removeField rootStage 0 listingBuilder = (Return (), b') ∧
     stageAtPath rootStage b' = Return (Some stage') ∧
     fields stage' = [] ∧
     orderBy stage' = Some [mkOrderBy (ByName "age") None]).
Proof.
  split.
  - split; [reflexivity|]. split; [reflexivity|].
    destruct (removeField_order_entry rootStage 0 orderedBuilder orderedStage
                (QName "age") eq_refl eq_refl)
      as (b' & stage' & Hrun & Hst & Hfields & Hreduce & _).
    exists b', stage'. split; [exact Hrun|]. split; [exact Hst|].
    split; [exact Hfields|].
    exact (proj1 (Hreduce eq_refl _ (mkOrderBy (ByName "age") (Some asc))
                    eq_refl eq_refl)).
  - split; [reflexivity|]. split; [reflexivity|].
    destruct (removeField_order_entry rootStage 0 listingBuilder listingStage
                (QName "age") eq_refl eq_refl)
      as (b' & stage' & Hrun & Hst & Hfields & _ & Hother).
    exists b', stage'. split; [exact Hrun|]. split; [exact Hst|].
    split; [exact Hfields|]. apply Hother. discriminate.
Defined.

End FieldsDemo.

(** ** Loading a named query *)

Lemma existsb_code (c : string) (l : list FilterExpression) :
  existsb (λ ef, String.eqb (code ef) c) l = true ↔ c ∈ code <$> l.
Proof.
  induction l as [|a l IH]; cbn.
  - split; [done|]. by intros ?%elem_of_nil.
  - rewrite orb_true_iff, IH, elem_of_cons, String.eqb_eq.
    split; (intros [Ha|Hl]; [left; by symmetry|by right]).
Qed.

Lemma notFound_name (name : string) (l : list QueryFieldDef) :
  QName "" ∉ l →
  notFound (List.find (λ other, String.eqb (nameOf other) name) l) = true
  ↔ name ∉ nameOf <$> l.
Proof.
  intros Hne. destruct (List.find _ l) as [g|] eqn:Hfind.
  - apply find_some in Hfind as [Hg Heq]. apply String.eqb_eq in Heq.
    apply list_elem_of_In in Hg.
    split.
    + intros Hnf. destruct g as [s| | |]; try done. cbn in Hnf.
      apply String.eqb_eq in Hnf. by subst s.
    + intros Hnot. destruct Hnot. subst name. by apply list_elem_of_fmap_2.
  - cbn. split; [|done]. intros _ (g & -> & Hg)%list_elem_of_fmap.
    apply list_elem_of_In in Hg.
    pose proof (find_none _ _ Hfind g Hg) as Hno. cbn in Hno.
    by rewrite String.eqb_refl in Hno.
Qed.

(** The merge of two stages, property by property. *)
Lemma mergeStage_limit (e s : PipeSegment) :
  limit (mergeStage e s) = if truthy (limit s) then limit s else limit e.
Proof.
  destruct e as [ty fs fl lim ob by'], s as [ty' fs' fl' lim' ob' by''].
  unfold mergeStage; cbn.
  destruct by'', fl', (truthy lim'), ob'; done.
Qed.

Lemma mergeStage_filterList (e s : PipeSegment) :
  filterList (mergeStage e s) =
    match filterList s with
    | Some loaded =>
        Some (orEmpty (filterList e) ++
              filter (λ f, code f ∉ code <$> orEmpty (filterList e)) loaded)
    | None => filterList e
    end.
Proof.
  destruct e as [ty fs fl lim ob by'], s as [ty' fs' fl' lim' ob' by''].
  unfold mergeStage; cbn.
  destruct fl' as [loaded|].
  - assert (List.filter
              (λ filter, negb (existsb (λ ef, String.eqb (code ef) (code filter))
                                 (orEmpty fl))) loaded
            = filter (λ f, code f ∉ code <$> orEmpty fl) loaded) as Heq.
    { apply filter_bool. intros f _. rewrite negb_true_iff.
      rewrite <- existsb_code. by destruct (existsb _ _). }
    destruct by'', (truthy lim'), ob'; cbn; by rewrite Heq.
  - destruct by'', (truthy lim'), ob'; done.
Qed.

Lemma mergeStage_fields_code (e s : PipeSegment) :
  fields (mergeStage e s) =
    map jsonCopy (fields s) ++
    List.filter
      (λ field, notFound (List.find (λ other,
                  String.eqb (nameOf other) (nameOf field)) (fields s)))
      (fields e).
Proof.
  destruct e as [ty fs fl lim ob by'], s as [ty' fs' fl' lim' ob' by''].
  unfold mergeStage; cbn. by destruct by'', fl', (truthy lim'), ob'.
Qed.

Lemma mergeStage_fields (e s : PipeSegment) :
  QName "" ∉ fields s →
  fields (mergeStage e s) =
    fields s ++ filter (λ f, nameOf f ∉ nameOf <$> fields s) (fields e).
Proof.
  intros Hne. rewrite mergeStage_fields_code.
  unfold jsonCopy. rewrite map_id. f_equal.
  apply filter_bool. intros f _. by apply notFound_name.
Qed.

Lemma mergedPipeline_lookup (existing loaded : list PipeSegment) (i : nat) :
  mergedPipeline existing loaded !! i =
    match existing !! i, loaded !! i with
    | Some e, Some s => Some (mergeStage e s)
    | Some e, None => Some e
    | None, s => s
    end.
Proof.
  revert loaded i. induction existing as [|e es IH]; intros loaded i.
  - by destruct loaded.
  - destruct loaded as [|s ls]; [cbn; by destruct (_ !! _)|].
    destruct i as [|i]; [done|]. cbn. apply IH.
Qed.

Definition nonReduce : Exn := Error "Cannot load query with non-reduce stages".

Section Loading.
Context {malloy : Malloy}.

(** One round of the loop on a pipeline [pre ++ existing], at the index after
    [pre]. *)
Lemma loadStage_round (stage : PipeSegment) (pre existing : list PipeSegment)
    (b : QueryBuilder) :
  pipeline (query b) = pre ++ existing →
  loadStage stage (length pre) b =
    match existing with
    | [] => (Return (), setQueryOf b (set_pipeline (query b) (pre ++ [stage])))
    | e :: es =>
        if isReduce e && isReduce stage
        then (Return (),
              setQueryOf b (set_pipeline (query b) (pre ++ mergeStage e stage :: es)))
        else (Throw nonReduce, b)
    end.
Proof.
  intros Hp. unfold loadStage, bind, getPipeline, putPipeline, lift, throw.
  rewrite Hp. rewrite lookup_app_r, Nat.sub_diag by done.
  destruct existing as [|e es]; cbn [lookup list_lookup].
  - unfold arraySet. rewrite app_nil_r.
    by rewrite (proj2 (Nat.ltb_ge _ _)), Nat.eqb_refl by done.
  - unfold isReduce. destruct (type e), (type stage); cbn; try done.
    do 3 f_equal. replace (length pre) with (length pre + 0) by lia.
    by rewrite insert_app_r.
Qed.

Lemma loadStages_merges (loaded pre existing : list PipeSegment) (b : QueryBuilder) :
  pipeline (query b) = pre ++ existing →
  mergeable existing loaded = true →
  loadStages loaded (length pre) b
  = (Return (),
     setQueryOf b (set_pipeline (query b) (pre ++ mergedPipeline existing loaded))).
Proof.
  revert pre existing b.
  induction loaded as [|s ls IH]; intros pre existing b Hp Hm.
  - cbn. unfold ret. f_equal. destruct b as [[n a pl] src log]; cbn in *.
    subst pl. by destruct existing.
  - cbn [loadStages]. unfold bind. rewrite (loadStage_round s pre existing b Hp).
    destruct existing as [|e es].
    + specialize (IH (pre ++ [s]) []
                     (setQueryOf b (set_pipeline (query b) (pre ++ [s])))).
      rewrite length_app in IH. cbn [length] in IH. rewrite Nat.add_1_r in IH.
      rewrite IH; [|by destruct b as [[]]; cbn; rewrite app_nil_r|done].
      f_equal. destruct b as [[n a pl] src log].
      unfold setQueryOf, set_pipeline; cbn. do 2 f_equal.
      rewrite <- app_assoc. cbn. by destruct ls.
    + cbn [mergeable] in Hm. apply andb_true_iff in Hm as [Hred Hm].
      rewrite Hred.
      specialize (IH (pre ++ [mergeStage e s]) es
                     (setQueryOf b (set_pipeline (query b)
                                      (pre ++ mergeStage e s :: es)))).
      rewrite length_app in IH. cbn [length] in IH. rewrite Nat.add_1_r in IH.
      rewrite IH; [| |done].
      * f_equal. destruct b as [[n a pl] src log].
        unfold setQueryOf, set_pipeline; cbn. do 2 f_equal.
        by rewrite <- app_assoc.
      * destruct b as [[n a pl] src log]; cbn. by rewrite <- app_assoc.
Qed.

Lemma loadStages_refuses (loaded pre existing : list PipeSegment) (b : QueryBuilder) :
  pipeline (query b) = pre ++ existing →
  mergeable existing loaded = false →
  fst (loadStages loaded (length pre) b) = Throw nonReduce.
Proof.
  revert pre existing b.
  induction loaded as [|s ls IH]; intros pre existing b Hp Hm.
  - by destruct existing.
  - destruct existing as [|e es]; [done|].
    cbn [loadStages]. unfold bind. rewrite (loadStage_round s pre _ b Hp).
    cbn [mergeable] in Hm.
    destruct (isReduce e && isReduce s); [|done]. cbn in Hm.
    specialize (IH (pre ++ [mergeStage e s]) es
                   (setQueryOf b (set_pipeline (query b)
                                    (pre ++ mergeStage e s :: es)))).
    rewrite length_app in IH. cbn [length] in IH. rewrite Nat.add_1_r in IH.
    apply IH; [|done].
    destruct b as [[n a pl] src log]; cbn. by rewrite <- app_assoc.
Qed.

(** The rounds from index [k] on leave the stages before [k] alone. *)
Lemma loadStages_keeps_before (loaded : list PipeSegment) (k i : nat)
    (b : QueryBuilder) :
  i < k →
  pipeline (query (snd (loadStages loaded k b))) !! i = pipeline (query b) !! i.
Proof.
  revert k b. induction loaded as [|s ls IH]; intros k b Hi; [done|].
  cbn [loadStages]. unfold bind.
  destruct (loadStage s k b) as [[[]|e] b1] eqn:Hload; cbn [snd].
  - rewrite IH by lia. revert Hload.
    unfold loadStage, bind, getPipeline, putPipeline, lift, throw.
    destruct (pipeline (query b) !! k) as [existing|] eqn:Hk.
    + destruct (type existing), (type s); intros [= <-]; try done.
      destruct b as [[n a pl] src log]; cbn in *.
      apply list_lookup_insert_ne. lia.
    + unfold arraySet. apply lookup_ge_None in Hk.
      rewrite (proj2 (Nat.ltb_ge _ _)) by done.
      destruct (Nat.eqb_spec k (length (pipeline (query b)))); intros [= <-].
      destruct b as [[n a pl] src log]; cbn in *. apply lookup_app_l. lia.
  - revert Hload.
    unfold loadStage, bind, getPipeline, putPipeline, lift, throw.
    destruct (pipeline (query b) !! k) as [existing|] eqn:Hk.
    + destruct (type existing), (type s); by intros [= <- <-].
    + destruct (arraySet _ _ _); by intros [= <- <-].
Qed.

(** C1, amended: a stage that both pipelines have is merged at every index,
    by the rules of the first stage, and a stage the tree lacks is copied; the
    load fails, with "Cannot load query with non-reduce stages", exactly when
    one of two such stages is not of the reduce kind. *)
Theorem loadQuery_merges_every_stage (queryPath : string) (b : QueryBuilder)
    (t : TurtleDef) :
  getField (_source b) (_source b) queryPath = Return (FTurtle t) →
  (mergeable (pipeline (query b)) (pipeline t) = true →
   ∃ b', loadQuery queryPath b = (Return (), b') ∧
         tname (query b') = turtleName t ∧
         ∀ i, pipeline (query b') !! i =
                match pipeline (query b) !! i, pipeline t !! i with
                | Some existingStage, Some stage => Some (mergeStage existingStage stage)
                | Some existingStage, None => Some existingStage
                | None, stage => stage
                end) ∧
  (mergeable (pipeline (query b)) (pipeline t) = false →
   fst (loadQuery queryPath b) = Throw nonReduce).
Proof.
  intros Hdef. split; intros Hm.
  - eexists. unfold loadQuery, bind, reading. rewrite Hdef.
    pose proof (loadStages_merges (pipeline t) [] (pipeline (query b)) b eq_refl Hm)
      as H.
    cbn [length app] in H. rewrite H.
    split; [reflexivity|]. split; [done|]. intros i. apply mergedPipeline_lookup.
  - unfold loadQuery, bind, reading. rewrite Hdef.
    pose proof (loadStages_refuses (pipeline t) [] (pipeline (query b)) b eq_refl Hm)
      as H.
    cbn [length] in H.
    by destruct (loadStages _ _ _) as [[[]|e] b'']; cbn in *; simplify_eq.
Qed.

(** C6, amended: the merged first stage has the loaded limit when the loaded
    stage has one that is not 0, and keeps its own otherwise; its filters are
    the existing ones followed by the loaded ones whose source text is not
    among the existing ones; its fields are the loaded fields followed by the
    existing fields whose display name is not that of a loaded field. *)
Theorem loadQuery_first_stage (queryPath : string) (b : QueryBuilder)
    (t : TurtleDef) (stage existingStage : PipeSegment) :
  getField (_source b) (_source b) queryPath = Return (FTurtle t) →
  pipeline t !! 0 = Some stage →
  pipeline (query b) !! 0 = Some existingStage →
  type stage = reduce →
  type existingStage = reduce →
  ∃ merged,
    pipeline (query (snd (loadQuery queryPath b))) !! 0 = Some merged ∧
    limit merged = (if truthy (limit stage) then limit stage else limit existingStage) ∧
    filterList merged =
      match filterList stage with
      | Some loaded =>
          Some (orEmpty (filterList existingStage) ++
                filter (λ f, code f ∉ code <$> orEmpty (filterList existingStage)) loaded)
      | None => filterList existingStage
      end ∧
    (QName "" ∉ fields stage →
     fields merged =
       fields stage ++
       filter (λ f, nameOf f ∉ nameOf <$> fields stage) (fields existingStage)).
Proof.
  intros Hdef Hs He Hts Hte. exists (mergeStage existingStage stage).
  split; [|split; [apply mergeStage_limit|split;
                   [apply mergeStage_filterList|apply mergeStage_fields]]].
  unfold loadQuery, bind at 1, reading. rewrite Hdef.
  destruct (pipeline t) as [|s0 ls] eqn:Hpt; [done|]. injection Hs as ->.
  destruct (pipeline (query b)) as [|e0 es] eqn:Hpb; [done|]. injection He as ->.
  cbn [loadStages].
  pose proof (loadStage_round stage [] (existingStage :: es) b Hpb) as Hload.
  cbn [length app] in Hload. unfold isReduce in Hload.
  rewrite Hte, Hts in Hload. cbn [andb] in Hload.
  unfold bind. rewrite Hload.
  set (b1 := setQueryOf b _).
  pose proof (loadStages_keeps_before ls 1 0 b1 ltac:(lia)) as Hkeep.
  destruct (loadStages ls 1 b1) as [[[]|err] b2]; cbn [snd] in *.
  - unfold setName, bind, getQuery, putQuery. cbn. by rewrite Hkeep.
  - by rewrite Hkeep.
Qed.

End Loading.

Section LoadingDemo.
#[local] Existing Instance demoMalloy.

(** C1 as stated fails: the tree and [top_regions] both have a stage 1, and
    the load returns with the two stages merged. *)
Lemma loadQuery_merges_second_stage :
  is_Some (pipeline (query twoStageBuilder) !! 1) ∧
  is_Some (pipeline top_regions !! 1) ∧
  getField demoSource demoSource "top_regions" = Return (FTurtle top_regions) ∧
  fst (loadQuery "top_regions" twoStageBuilder) = Return () ∧
  pipeline (query (after (loadQuery "top_regions") twoStageBuilder))
  = [mkSegment reduce [QName "region"; QName "total"; QName "age"] None None None None;
     mkSegment reduce [QName "region"] None (Some 5%Z) None None].
Proof. repeat split; by eexists. Qed.

(** A load that merges two stages, and a load onto a stage of the project
    kind. *)
Lemma loadQuery_merges_every_stage_witness :
  (getField (_source twoStageBuilder) (_source twoStageBuilder) "top_regions"
   = Return (FTurtle top_regions) ∧
   mergeable (pipeline (query twoStageBuilder)) (pipeline top_regions) = true ∧
   ∃ b', loadQuery "top_regions" twoStageBuilder = (Return (), b') ∧
         tname (query b') = "top_regions" ∧
         pipeline (query b') !! 1
         = Some (mergeStage emptyStage
                   (mkSegment reduce [QName "region"] None (Some 5%Z) None None))) ∧
  (getField (_source listingBuilder) (_source listingBuilder) "by_region"
   = Return (FTurtle by_region) ∧
   mergeable (pipeline (query listingBuilder)) (pipeline by_region) = false ∧
   fst (loadQuery "by_region" listingBuilder) = Throw nonReduce).
Proof.
  split.
  - split; [reflexivity|]. split; [reflexivity|].
    destruct (proj1 (loadQuery_merges_every_stage "top_regions" twoStageBuilder
                       top_regions eq_refl) eq_refl)
      as (b' & Hrun & Hname & Hstages).
    exists b'. split; [exact Hrun|]. split; [exact Hname|exact (Hstages 1)].
  - split; [reflexivity|]. split; [reflexivity|].
    exact (proj2 (loadQuery_merges_every_stage "by_region" listingBuilder
                    by_region eq_refl) eq_refl).
Defined.

(** Scenario C: the loaded limit, and the loaded fields before the field that
    is kept. *)
Example loadQuery_by_region :
  pipeline (query (after (loadQuery "by_region") regionBuilder))
  = [mkSegment reduce [QName "region"; QName "total"; QName "age"]
       None (Some 10%Z) None None].
Proof. reflexivity. Qed.

(** C6 as stated fails: [named_only] has no limit and the merged stage keeps
    the limit 5; its filter list holds the source text [age > 17] twice. *)
Lemma loadQuery_keeps_limit_and_duplicates :
  getField demoSource demoSource "named_only" = Return (FTurtle named_only) ∧
  fst (loadQuery "named_only" limitedBuilder) = Return () ∧
  ∃ stage merged,
    pipeline named_only !! 0 = Some stage ∧
    pipeline (query (after (loadQuery "named_only") limitedBuilder)) !! 0
    = Some merged ∧
    limit stage = None ∧
    limit merged = Some 5%Z ∧
    code <$> orEmpty (filterList merged) = ["age > 17"; "age > 17"; "name != null"] ∧
    ¬ NoDup (code <$> orEmpty (filterList merged)).
Proof.
  split; [reflexivity|]. split; [reflexivity|].
  eexists _, _. split; [reflexivity|]. split; [reflexivity|].
  split; [reflexivity|]. split; [reflexivity|]. split; [reflexivity|].
  cbn. intros Hnd. apply NoDup_cons in Hnd as [Hnotin _].
  apply Hnotin. by left.
Qed.

Lemma loadQuery_first_stage_witness :
  getField (_source regionBuilder) (_source regionBuilder) "by_region"
  = Return (FTurtle by_region) ∧
  pipeline by_region !! 0
  = Some (mkSegment reduce [QName "region"; QName "total"] None (Some 10%Z) None None) ∧
  pipeline (query regionBuilder) !! 0
  = Some (mkSegment reduce [QName "age"; QName "region"] None None None None) ∧
  ∃ merged,
    pipeline (query (snd (loadQuery "by_region" regionBuilder))) !! 0 = Some merged ∧
    limit merged = Some 10%Z ∧
    filterList merged = None ∧
    fields merged
    = [QName "region"; QName "total"]
      ++ filter (λ f, nameOf f ∉ nameOf <$> [QName "region"; QName "total"])
           [QName "age"; QName "region"].
Proof.
  split; [reflexivity|]. split; [reflexivity|]. split; [reflexivity|].
  destruct (loadQuery_first_stage "by_region" regionBuilder by_region
              (mkSegment reduce [QName "region"; QName "total"] None (Some 10%Z) None None)
              (mkSegment reduce [QName "age"; QName "region"] None None None None)
              eq_refl eq_refl eq_refl eq_refl eq_refl)
    as (merged & Hm & Hlimit & Hfilters & Hfields).
  exists merged. split; [exact Hm|]. split; [exact Hlimit|].
  split; [exact Hfilters|]. apply Hfields.
  cbn [fields]. rewrite !not_elem_of_cons.
  split; [discriminate|]. split; [discriminate|]. apply not_elem_of_nil.
Defined.

End LoadingDemo.

(** ** References to nested queries *)

Section References.
Context {malloy : Malloy}.

(** Where the promotion takes place: the reference stands in stage [s] of the
    root pipeline, and the path addresses stage [s] of the query it names.
    The reference is replaced by the definition the schema has under that
    name, and the schema stays as it is. *)
Lemma autoExpand_promotes (s f : nat) (x : string) (b : QueryBuilder)
    (stage : PipeSegment) (src : StructDef) (t' t : TurtleDef) :
  pipeline (query b) !! s = Some stage →
  fields stage !! f = Some (QName x) →
  sourceAfter (pipeline (query b)) s (_source b) = Return src →
  getField (_source b) src x = Return (FTurtle t') →
  findField (_source b) x = Some (FTurtle t) →
  ∃ b',
    autoExpandStageAtPath (pathOf [(s, f)] s) b = (Return (pipeline t !! s), b') ∧
    stageAtPath (pathOf [] s) b'
    = Return (Some (set_fields stage (<[f := QTurtle t]> (fields stage)))) ∧
    _source b' = _source b.
Proof.
  intros Hstage Hfield Hsrc Hdef Hfound.
  assert (stageAtPath (pathOf [] s) b = Return (Some stage)) as Hst
    by (unfold stageAtPath; cbn; by rewrite Hstage).
  set (stage' := set_fields stage (<[f := QTurtle t]> (fields stage))).
  exists (written (pathOf [] s) stage' b).
  split; [|split; [by eapply stageAtPath_written|by destruct b]].
  unfold autoExpandStageAtPath, tryCatch, reading.
  unfold stageAtPath at 1. cbn [pathOf stageIn headHop fieldIndex stageIndex].
  rewrite Hstage. cbn [defined bindR]. rewrite Hfield.
  cbn [stagePathPop nextPath headHop fieldIndex stageIndex].
  unfold bind, reading.
  unfold sourceForStageAtPath. cbn [defined bindR sourceIn headHop fieldIndex stageIndex].
  rewrite Hsrc. cbn [bindR fieldDefForQueryFieldDef]. rewrite Hdef.
  unfold replaceWithDefinition, bind, getSource, lift. cbn [defined].
  change (PLast {| stageIndex := s; fieldIndex := None |}) with (pathOf [] s).
  rewrite (stageRef_resolved _ _ _ Hst). rewrite Hfield, Hfound.
  cbn [jsonCopy asQueryFieldDef]. unfold writeStage. fold stage'.
  f_equal. unfold stageAtPath, written. cbn.
  rewrite list_lookup_insert_eq by (by eapply lookup_lt_Some).
  cbn. rewrite list_lookup_insert_eq by (by eapply lookup_lt_Some).
  by destruct stage.
Qed.

End References.

Section ReferencesDemo.
#[local] Existing Instance demoMalloy.

(** A reference in a stage of the root pipeline is replaced by the schema's
    definition, and the filter goes into the copy. *)
Example addFilter_promotes_reference :
  stageAtPath rootStage referenceBuilder
  = Return (Some (mkSegment reduce [QName "age"; QName "total"; QName "by_region"]
                    None None None None)) ∧
  addFilter (pathOf [(0, 2)] 0) adults referenceBuilder
  = (Return (), after (addFilter (pathOf [(0, 2)] 0) adults) referenceBuilder) ∧
  stageAtPath rootStage (after (addFilter (pathOf [(0, 2)] 0) adults) referenceBuilder)
  = Return (Some (mkSegment reduce
                    [QName "age"; QName "total";
                     QTurtle (mkTurtle "by_region" None
                                [mkSegment reduce [QName "region"; QName "total"]
                                   (Some [adults]) (Some 10%Z) None None])]
                    None None None None)) ∧
  _source (after (addFilter (pathOf [(0, 2)] 0) adults) referenceBuilder) = demoSource.
Proof. repeat split; reflexivity. Qed.

(** C4 at an input where the code misses it: the reference to [by_region]
    stands in the stage of the nested query [detail], the second field of the
    root stage.  [autoExpandStageAtPath] looks for the stage that holds the
    reference along the path below the first hop, finds the bare name [age]
    there, and [addFilter] throws; the reference is not replaced. *)
Theorem addFilter_nested_reference_throws :
  stageAtPath rootStage nestedBuilder
  = Return (Some (mkSegment reduce
                    [QName "age";
                     QTurtle (mkTurtle "detail" None
                                [mkSegment reduce [QName "by_region"]
                                   None None None None])]
                    None None None None)) ∧
  getField demoSource demoSource "by_region" = Return (FTurtle by_region) ∧
  stageAtPath (pathOf [(0, 1); (0, 0)] 0) nestedBuilder
  = Throw (NotAStageError "Path does not refer to a stage correctly"
             (QName "by_region")) ∧
  addFilter (pathOf [(0, 1); (0, 0)] 0) adults nestedBuilder
  = (Throw (Error "Path does not refer to a stage correctly"), nestedBuilder).
Proof. repeat split; reflexivity. Qed.

(** The same at one level of nesting: the root stage refers to
    [top_regions], a query of two stages, and the path addresses the second
    of them.  The definition is looked for in stage 1 of the root pipeline,
    which does not exist. *)
Example addLimit_second_stage_of_reference_throws :
  stageAtPath rootStage (after (addField rootStage "top_regions") demoBuilder)
  = Return (Some (mkSegment reduce [QName "top_regions"] None None None None)) ∧
  getField demoSource demoSource "top_regions" = Return (FTurtle top_regions) ∧
  addLimit (pathOf [(0, 0)] 1) 3 None None
    (after (addField rootStage "top_regions") demoBuilder)
  = (Throw (TypeError "Cannot read properties of undefined"),
     after (addField rootStage "top_regions") demoBuilder).
Proof. repeat split; reflexivity. Qed.

End ReferencesDemo.

(** ** Pipelines are never empty *)


Lemma queryOk_iff (t : TurtleDef) :
  queryOk t ↔ pipeline t ≠ [] ∧ Forall stageOk (pipeline t).
Proof.
  destruct t as [n a [|s p]]; cbn [queryOk pipeline].
  - split; [done|]. by intros [? _].
  - rewrite forallb_True. split; [by intros ?|by intros [_ ?]].
Qed.

Lemma queryOk_set_pipeline (t : TurtleDef) (p : list PipeSegment) :
  queryOk (set_pipeline t p) ↔ p ≠ [] ∧ Forall stageOk p.
Proof. by rewrite queryOk_iff. Qed.

Lemma queryOk_mkTurtle (n : string) (a : option string) (p : list PipeSegment) :
  queryOk (mkTurtle n a p) ↔ p ≠ [] ∧ Forall stageOk p.
Proof. by rewrite queryOk_iff. Qed.

Lemma stageOk_iff (s : PipeSegment) : stageOk s ↔ Forall fieldOk (fields s).
Proof. destruct s as [ty fs fl lim ob by']. apply forallb_True. Qed.

Lemma schemaOk_iff (s : StructDef) : schemaOk s ↔ Forall fieldDefOk (sfields s).
Proof. destruct s as [n a fs]. apply forallb_True. Qed.

Lemma stageOk_set_fields (s : PipeSegment) (fs : list QueryFieldDef) :
  stageOk (set_fields s fs) ↔ Forall fieldOk fs.
Proof. by rewrite stageOk_iff. Qed.

Lemma stageOk_same_fields (s s' : PipeSegment) :
  fields s' = fields s → stageOk s → stageOk s'.
Proof. rewrite !stageOk_iff. by intros ->. Qed.

Lemma stageIn_ok (p : StagePath) (cur : list PipeSegment) (st : PipeSegment) :
  Forall stageOk cur → stageIn cur p = Return (Some st) → stageOk st.
Proof.
  revert cur. induction p as [h|h rest IH]; intros cur Hcur Hst.
  - apply stageIn_last in Hst as [_ Hst]. symmetry in Hst.
    by eapply Forall_bool_lookup.
  - apply stageIn_cons in Hst as [[_ Hst]|(fi & s & t & _ & Hs & Ht & Hst)].
    + symmetry in Hst. by eapply Forall_bool_lookup.
    + eapply IH; [|done].
      pose proof (Forall_bool_lookup _ _ _ _ Hcur Hs) as Hsok.
      apply stageOk_iff in Hsok.
      pose proof (Forall_bool_lookup _ _ _ _ Hsok Ht) as Htok.
      cbn in Htok. by apply queryOk_iff in Htok as [_ ?].
Qed.

Lemma writeIn_length (p : StagePath) (cur : list PipeSegment) (new : PipeSegment) :
  length (writeIn cur p new) = length cur.
Proof.
  destruct p as [h|h rest]; cbn;
    repeat (case_match; try done); by rewrite length_insert.
Qed.

Lemma writeIn_ok (p : StagePath) (cur : list PipeSegment) (new : PipeSegment) :
  Forall stageOk cur → stageOk new → Forall stageOk (writeIn cur p new).
Proof.
  revert cur. induction p as [h|h rest IH]; intros cur Hcur Hnew.
  - cbn. destruct (fieldIndex h); [|by apply Forall_insert].
    repeat (case_match; try done).
  - cbn. destruct (fieldIndex h) as [fi|]; [|by apply Forall_insert].
    destruct (cur !! stageIndex h) as [s|] eqn:Hs; [|done].
    destruct (fields s !! fi) as [[| |t|]|] eqn:Ht; try done.
    pose proof (Forall_bool_lookup _ _ _ _ Hcur Hs) as Hsok.
    apply stageOk_iff in Hsok.
    pose proof (Forall_bool_lookup _ _ _ _ Hsok Ht) as Htok.
    cbn in Htok. apply queryOk_iff in Htok as [Hne Htok].
    apply Forall_insert; [done|]. apply stageOk_set_fields.
    apply Forall_insert; [done|]. apply queryOk_set_pipeline. split.
    + intros Hnil. apply Hne. apply nil_length_inv.
      by rewrite <- (writeIn_length rest _ new), Hnil.
    + by apply IH.
Qed.

Lemma written_Inv (p : StagePath) (new : PipeSegment) (b : QueryBuilder) :
  Inv b → stageOk new → Inv (written p new b).
Proof.
  intros [Hq Hs] Hnew. split; [|done].
  unfold written. cbn [query setQueryOf].
  apply queryOk_iff in Hq as [Hne Hq]. apply queryOk_set_pipeline. split.
  - intros Hnil. apply Hne. apply nil_length_inv.
    by rewrite <- (writeIn_length p _ new), Hnil.
  - by apply writeIn_ok.
Qed.

(** A computation keeps the invariant and returns values in [Q]. *)
Definition keeps {A} (m : M A) (Q : A → Prop) : Prop :=
  ∀ b, Inv b → Inv (snd (m b)) ∧ ∀ a, fst (m b) = Return a → Q a.

Section Rules.
Context {A B : Type}.

Lemma keeps_ret (a : A) (Q : A → Prop) : Q a → keeps (ret a) Q.
Proof. intros Ha b Hb. split; [done|]. by intros a' [= <-]. Qed.

Lemma keeps_throw (e : Exn) (Q : A → Prop) : keeps (throw e) Q.
Proof. intros b Hb. by split. Qed.

Lemma keeps_lift (r : Result A) (Q : A → Prop) :
  (∀ a, r = Return a → Q a) → keeps (lift r) Q.
Proof. intros Hr b Hb. by split. Qed.

Lemma keeps_reading (f : QueryBuilder → Result A) (Q : A → Prop) :
  (∀ b a, Inv b → f b = Return a → Q a) → keeps (reading f) Q.
Proof. intros Hf b Hb. split; [done|]. intros a. by apply Hf. Qed.

Lemma keeps_bind (m : M A) (k : A → M B) (Q : A → Prop) (R : B → Prop) :
  keeps m Q → (∀ a, Q a → keeps (k a) R) → keeps (bind m k) R.
Proof.
  intros Hm Hk b Hb. unfold bind.
  destruct (Hm b Hb) as [Hb' HQ].
  destruct (m b) as [[a|e] b']; cbn in *; [|by split].
  apply Hk; [by apply HQ|done].
Qed.

Lemma keeps_tryCatch (m : M A) (handler : Exn → M A) (Q : A → Prop) :
  keeps m Q → (∀ e, keeps (handler e) Q) → keeps (tryCatch m handler) Q.
Proof.
  intros Hm Hh b Hb. unfold tryCatch.
  destruct (Hm b Hb) as [Hb' HQ].
  destruct (m b) as [[a|e] b']; cbn in *; [by split|].
  by apply Hh.
Qed.

Lemma keeps_weaken (m : M A) (Q R : A → Prop) :
  keeps m Q → (∀ a, Q a → R a) → keeps m R.
Proof. intros Hm HQR b Hb. destruct (Hm b Hb). split; [done|]. auto. Qed.

Lemma keeps_defined (x : option A) (Q : A → Prop) :
  (∀ a, x = Some a → Q a) → keeps (lift (defined x)) Q.
Proof.
  intros Hx. apply keeps_lift. destruct x as [y|]; cbn; [|done].
  intros a' [= <-]. auto.
Qed.
End Rules.

Lemma keeps_writeStage (p : StagePath) (new : PipeSegment) (Q : unit → Prop) :
  stageOk new → Q () → keeps (writeStage p new) Q.
Proof.
  intros Hnew HQ b Hb. split; [by apply written_Inv|]. by intros [] _.
Qed.

Lemma keeps_stageAtPath (p : StagePath) :
  keeps (reading (stageAtPath p)) (λ r, ∀ st, r = Some st → stageOk st).
Proof.
  apply keeps_reading. intros b r [Hq _] Hr st ->.
  apply queryOk_iff in Hq as [_ Hq]. by eapply stageIn_ok.
Qed.

Lemma keeps_stageRef (p : StagePath) : keeps (stageRef p) stageOk.
Proof.
  apply keeps_reading. intros b st [Hq _] Hr.
  destruct (stageAtPath p b) as [[st'|]|] eqn:Hst; cbn in Hr; simplify_eq.
  apply queryOk_iff in Hq as [_ Hq]. by eapply stageIn_ok.
Qed.

Lemma keeps_getPipeline :
  keeps getPipeline (λ p, p ≠ [] ∧ Forall stageOk p).
Proof.
  intros b Hb. split; [exact Hb|]. cbn. intros p [= <-]. destruct Hb as [Hq _].
  by apply queryOk_iff.
Qed.

Lemma keeps_putPipeline (p : list PipeSegment) (Q : unit → Prop) :
  p ≠ [] → Forall stageOk p → Q () → keeps (putPipeline p) Q.
Proof.
  intros Hne Hp HQ b [Hq Hs]. split; [|by intros []].
  split; [|exact Hs]. by apply (proj2 (queryOk_set_pipeline (query b) p)).
Qed.

Lemma keeps_putQuery (q : TurtleDef) (Q : unit → Prop) :
  queryOk q → Q () → keeps (putQuery q) Q.
Proof. intros Hq HQ b [_ Hs]. split; [by split|by intros []]. Qed.

Lemma keeps_getQuery : keeps getQuery queryOk.
Proof. intros b Hb. split; [exact Hb|]. cbn. intros q [= <-]. by destruct Hb. Qed.

Lemma keeps_getSource : keeps getSource schemaOk.
Proof. intros b Hb. split; [exact Hb|]. cbn. intros q [= <-]. by destruct Hb. Qed.

Lemma keeps_consoleLog (es : list Exn) (Q : unit → Prop) :
  Q () → keeps (consoleLog es) Q.
Proof. intros HQ b Hb. split; [exact Hb|by intros []]. Qed.

Lemma Forall_arraySet {A} (P : A → Prop) (l l' : list A) (i : nat) (x : A) :
  arraySet i x l = Return l' → Forall P l → P x → Forall P l'.
Proof.
  unfold arraySet. intros Hset Hl Hx.
  destruct (i <? length l)%nat; [injection Hset as <-; by apply Forall_insert|].
  destruct (i =? length l)%nat; [|done]. injection Hset as <-.
  apply Forall_app. split; [done|by constructor].
Qed.

Lemma arraySet_nonempty {A} (l l' : list A) (i : nat) (x : A) :
  arraySet i x l = Return l' → l' ≠ [].
Proof.
  unfold arraySet. intros Hset ->.
  destruct (i <? length l)%nat eqn:Hlt.
  - injection Hset as Hl. apply Nat.ltb_lt in Hlt.
    apply (f_equal length) in Hl. rewrite length_insert in Hl. cbn in Hl. lia.
  - destruct (i =? length l)%nat; [|done]. injection Hset as Hl.
    by destruct l.
Qed.

Lemma stageOk_mergeStage (e s : PipeSegment) :
  stageOk e → stageOk s → stageOk (mergeStage e s).
Proof.
  rewrite !stageOk_iff. intros He Hs. rewrite mergeStage_fields_code.
  unfold jsonCopy. rewrite map_id. apply Forall_app. split; [done|].
  by apply Forall_List_filter.
Qed.

(** A stage with the fields of a stage that is in order, is in order. *)
Ltac same_fields :=
  cbv beta in *;
  match goal with
  | H : Is_true (stageOk ?s) |- Is_true (stageOk _) =>
      solve [apply (stageOk_same_fields s); [by destruct s|exact H]]
  end.

Ltac any := first [apply keeps_throw | apply keeps_ret; exact I].

Section Keeps.
Context {malloy : Malloy}.
Hypothesis nextStructDef_ok :
  ∀ s st s', schemaOk s → nextStructDef s st = Some s' → schemaOk s'.

Lemma throughStages_ok (stages : list PipeSegment) (src s' : StructDef) :
  schemaOk src → throughStages stages src = Return s' → schemaOk s'.
Proof.
  revert src. induction stages as [|st stages IH]; intros src Hsrc; cbn.
  - by intros [= <-].
  - unfold modifySourceForStage.
    destruct (nextStructDef src st) as [s1|] eqn:Hn; cbn; [|done].
    apply IH. by eapply nextStructDef_ok.
Qed.

Lemma findField_ok (src : StructDef) (part : string) (f : FieldDef) :
  schemaOk src → findField src part = Some f → fieldDefOk f.
Proof.
  intros Hsrc Hf. apply schemaOk_iff in Hsrc.
  apply find_some in Hf as [Hin _]. apply list_elem_of_In in Hin.
  apply list_elem_of_lookup in Hin as [i Hi].
  by eapply Forall_bool_lookup.
Qed.

Lemma getField_walk_ok (root : StructDef) (parts : list string) (cur : StructDef)
    (part : string) (f : FieldDef) :
  schemaOk root → schemaOk cur →
  getField_walk root cur part parts = Return f → fieldDefOk f.
Proof.
  intros Hroot. revert cur part.
  induction parts as [|next rest IH]; intros cur part Hcur; cbn.
  - destruct (findField cur part) as [g|] eqn:Hg; [|done].
    intros [= <-]. by eapply findField_ok.
  - destruct (findField cur part) as [[s|t|d]|] eqn:Hg; try done.
    + apply IH. exact (findField_ok _ _ _ Hcur Hg).
    + destruct (throughStages (pipeline t) root) as [ts|] eqn:Hts; cbn; [|done].
      apply IH. exact (throughStages_ok _ _ _ Hroot Hts).
Qed.

Lemma getField_ok (root src : StructDef) (name : string) (f : FieldDef) :
  schemaOk root → schemaOk src → getField root src name = Return f → fieldDefOk f.
Proof.
  intros Hroot Hsrc. unfold getField. destruct (split_dot name); [done|].
  by apply getField_walk_ok.
Qed.

Lemma keeps_replaceWithDefinition (sp : option StagePath) (fi : option nat)
    (sd : option StructDef) :
  (∀ s, sd = Some s → schemaOk s) →
  keeps (replaceWithDefinition sp fi sd) (λ _, True).
Proof.
  intros Hsd. unfold replaceWithDefinition.
  eapply keeps_bind with (Q := λ s, Is_true (schemaOk s)).
  { destruct sd; [apply keeps_ret; auto|apply keeps_getSource]. }
  intros structDef Hstruct.
  eapply keeps_bind; [by apply keeps_defined with (Q := λ _, True)|].
  intros p _. eapply keeps_bind; [apply keeps_stageRef|].
  intros stage Hstage. destruct fi as [i|]; [|any].
  destruct (fields stage !! i) as [[x| | |]|] eqn:Hf; try any.
  destruct (findField structDef x) as [definition|] eqn:Hfind; [|any].
  eapply keeps_bind with (Q := λ f, Is_true (fieldOk f)).
  { apply keeps_lift. intros copy Hcopy.
    pose proof (findField_ok _ _ _ Hstruct Hfind) as Hdef.
    unfold jsonCopy in Hcopy. destruct definition; cbn in Hcopy; by simplify_eq. }
  intros copy Hcopy. apply keeps_writeStage; [|done].
  apply stageOk_set_fields. apply Forall_insert; [by apply stageOk_iff|done].
Qed.

Lemma keeps_autoExpand (p : StagePath) :
  keeps (autoExpandStageAtPath p) (λ r, ∀ st, r = Some st → stageOk st).
Proof.
  unfold autoExpandStageAtPath. apply keeps_tryCatch; [apply keeps_stageAtPath|].
  intros e. destruct e; try apply keeps_throw.
  destruct (stagePathPop p) as [[nsp si] fi].
  eapply keeps_bind; [by apply keeps_reading with (Q := λ _, True)|].
  intros src _.
  eapply keeps_bind; [by apply keeps_reading with (Q := λ _, True)|].
  intros fd _. destruct fd; try apply keeps_throw.
  eapply keeps_bind; [by apply keeps_replaceWithDefinition|].
  intros _ _. apply keeps_stageAtPath.
Qed.

Lemma keeps_autoExpand_stage (p : StagePath) (k : PipeSegment → M unit) :
  (∀ stage, stageOk stage → keeps (k stage) (λ _, True)) →
  keeps (let! stage := autoExpandStageAtPath p in
         let! stage := lift (defined stage) in k stage) (λ _, True).
Proof.
  intros Hk. eapply keeps_bind; [apply keeps_autoExpand|].
  intros r Hr. eapply keeps_bind; [apply keeps_defined; exact Hr|]. exact Hk.
Qed.

Lemma keeps_getIndex (p : StagePath) (f : QueryFieldDef) :
  keeps (getIndexToInsertNewField p f) (λ _, True).
Proof.
  unfold getIndexToInsertNewField.
  eapply keeps_bind; [apply keeps_stageAtPath|]. intros st _.
  eapply keeps_bind; [by apply keeps_reading with (Q := λ _, True)|]. intros src _.
  eapply keeps_bind; [by apply keeps_reading with (Q := λ _, True)|]. intros fd _.
  eapply keeps_bind; [by apply keeps_defined with (Q := λ _, True)|]. intros stage _.
  eapply keeps_bind; [apply keeps_getSource|]. intros root _.
  destruct (scanFields _ _ _ _ _) as [i log].
  eapply keeps_bind; [by apply keeps_consoleLog with (Q := λ _, True)|].
  intros _ _. by apply keeps_ret.
Qed.

Lemma keeps_insertField (p : StagePath) (f : QueryFieldDef) :
  fieldOk f → keeps (insertField p f) (λ _, True).
Proof.
  intros Hf. unfold insertField.
  eapply keeps_bind; [apply keeps_autoExpand|]. intros r Hr.
  eapply keeps_bind; [apply keeps_getIndex|]. intros i _.
  eapply keeps_bind; [apply keeps_defined; exact Hr|]. intros stage Hstage.
  apply keeps_writeStage; [|done]. apply stageOk_set_fields.
  apply stageOk_iff in Hstage. unfold spliceIn. apply Forall_app.
  split; [by apply Forall_take|]. constructor; [done|by apply Forall_drop].
Qed.

Lemma keeps_loadStage (stage : PipeSegment) (k : nat) :
  stageOk stage → keeps (loadStage stage k) (λ _, True).
Proof.
  intros Hstage. unfold loadStage.
  eapply keeps_bind; [apply keeps_getPipeline|]. intros p [Hne Hp].
  destruct (p !! k) as [existing|] eqn:Hk.
  - pose proof (Forall_bool_lookup _ _ _ _ Hp Hk) as He.
    destruct (type existing), (type stage); try any.
    apply keeps_putPipeline; [| |done].
    + intros Hnil. apply (f_equal length) in Hnil.
      rewrite length_insert in Hnil. by destruct p.
    + apply Forall_insert; [done|]. by apply stageOk_mergeStage.
  - eapply keeps_bind with (Q := λ p', p' ≠ [] ∧ Forall stageOk p').
    { apply keeps_lift. intros p' Hset. split; [by eapply arraySet_nonempty|].
      eapply Forall_arraySet; [exact Hset|done..]. }
    intros p' [Hne' Hp']. by apply keeps_putPipeline.
Qed.

Lemma keeps_loadStages (stages : list PipeSegment) (k : nat) :
  Forall stageOk stages → keeps (loadStages stages k) (λ _, True).
Proof.
  revert k. induction stages as [|s stages IH]; intros k Hs; cbn [loadStages].
  - by apply keeps_ret.
  - apply Forall_cons in Hs as [Hs Hstages].
    eapply keeps_bind; [by apply keeps_loadStage|]. intros _ _. by apply IH.
Qed.

Lemma keeps_setName (name : string) : keeps (setName name) (λ _, True).
Proof.
  unfold setName. eapply keeps_bind; [apply keeps_getQuery|]. intros q Hq.
  apply keeps_putQuery; [|done]. apply queryOk_iff in Hq. by apply queryOk_mkTurtle.
Qed.

Lemma keeps_loadQuery (x : string) : keeps (loadQuery x) (λ _, True).
Proof.
  unfold loadQuery.
  eapply keeps_bind with (Q := λ d, Is_true (fieldDefOk d)).
  { apply keeps_reading. intros b d [_ Hs] Hd. by eapply getField_ok. }
  intros [s|t|d] Hd; try any.
  cbn in Hd. apply queryOk_iff in Hd as [_ Hd].
  eapply keeps_bind; [by apply keeps_loadStages|]. intros _ _. apply keeps_setName.
Qed.

Lemma keeps_replaceQuery (t : TurtleDef) :
  queryOk t → keeps (replaceQuery t) (λ _, True).
Proof.
  intros Ht. unfold replaceQuery.
  eapply keeps_bind; [apply keeps_getPipeline|]. intros p _.
  apply queryOk_iff in Ht as [Hne Ht]. unfold jsonCopy.
  destruct (pipeline t) as [|first later]; [any|].
  apply Forall_cons in Ht as [Hfirst Hlater].
  apply keeps_putQuery; [|done]. apply queryOk_mkTurtle. split; [done|].
  constructor; [same_fields|done].
Qed.

Lemma keeps_removeField (p : StagePath) (i : nat) :
  keeps (removeField p i) (λ _, True).
Proof.
  unfold removeField. eapply keeps_bind; [apply keeps_stageRef|]. intros stage Hs.
  eapply keeps_bind with (Q := λ s, Is_true (stageOk s)).
  { destruct (type stage); try (by apply keeps_ret).
    destruct (orderBy stage) as [[|o os]|]; try (by apply keeps_ret).
    eapply keeps_bind; [by apply keeps_defined with (Q := λ _, True)|].
    intros f _. destruct (findIndex _ _); apply keeps_ret; [same_fields|done]. }
  intros stage' Hs'. apply keeps_writeStage; [|done].
  apply stageOk_set_fields. apply Forall_delete. by apply stageOk_iff.
Qed.

Lemma keeps_getFieldIndex (p : StagePath) (x : string) :
  keeps (getFieldIndex p x) (λ _, True).
Proof.
  unfold getFieldIndex. eapply keeps_bind; [apply keeps_stageRef|].
  intros stage _. by apply keeps_ret.
Qed.

Lemma keeps_toggleField (p : StagePath) (x : string) :
  keeps (toggleField p x) (λ _, True).
Proof.
  unfold toggleField. eapply keeps_bind; [apply keeps_autoExpand|]. intros _ _.
  eapply keeps_bind; [apply keeps_getFieldIndex|]. intros [i|] _.
  - apply keeps_removeField.
  - by apply keeps_insertField.
Qed.

Lemma keeps_renameField (p : StagePath) (i : nat) (a : string) :
  keeps (renameField p i a) (λ _, True).
Proof.
  unfold renameField. eapply keeps_bind; [apply keeps_stageRef|]. intros stage Hs.
  destruct (type stage); try any.
  eapply keeps_bind with (Q := λ f, Is_true (fieldOk f)).
  { apply keeps_defined. intros f Hf. apply stageOk_iff in Hs.
    exact (Forall_bool_lookup _ _ _ _ Hs Hf). }
  intros f Hf. cbv zeta. apply keeps_writeStage; [|exact I]. apply stageOk_set_fields.
  apply Forall_insert.
  - apply stageOk_iff in Hs. destruct stage; exact Hs.
  - destruct f as [x|fan|t|d]; try done. by destruct t.
Qed.

Lemma keeps_pushStageUnder (p : StagePath) (i : nat) :
  keeps (pushStageUnder p i) (λ _, True).
Proof.
  unfold pushStageUnder. eapply keeps_bind; [apply keeps_stageRef|]. intros stage Hs.
  destruct (fields stage !! i) as [[x|fan|t|d]|] eqn:Hf; try any.
  apply stageOk_iff in Hs. pose proof (Forall_bool_lookup _ _ _ _ Hs Hf) as Ht.
  cbn in Ht. apply queryOk_iff in Ht as [Hne Ht].
  apply keeps_writeStage; [|done]. apply stageOk_set_fields.
  apply Forall_insert; [done|]. apply queryOk_set_pipeline.
  split; [by destruct (pipeline t)|]. apply Forall_app. split; [done|by constructor].
Qed.

Lemma spliceStage_ok (k : nat) (p : list PipeSegment) :
  Forall stageOk p → spliceStage k p ≠ [] ∧ Forall stageOk (spliceStage k p).
Proof.
  intros Hp. unfold spliceStage.
  pose proof (Forall_delete _ _ k Hp) as Hd.
  destruct (delete k p); [by split; [|constructor]|by split].
Qed.

(** What a call does to the invariant, call by call. *)
Lemma keeps_perform (op : Op) : inputsOk op → keeps (perform op) (λ _, True).
Proof.
  intros Hin.
  destruct op as [ |q|name|source|p x|x|t|p i x|p i|p order|p x|p f
                 |p ofi i f|p i ofi|p n byField d|p i d|p i d|p|sp ofi|p|p i
                 |p i a|p i f oas|p name|p d|p i d|p i sd];
    cbn [perform inputsOk] in *.
  - by apply keeps_putQuery.
  - unfold setQuery. apply keeps_putQuery; [|done].
    apply queryOk_iff in Hin. by apply queryOk_mkTurtle.
  - apply keeps_setName.
  - intros b [Hq _]. by split.
  - by apply keeps_insertField.
  - apply keeps_loadQuery.
  - by apply keeps_replaceQuery.
  - unfold replaceSavedField. eapply keeps_bind; [apply keeps_stageRef|].
    intros stage Hs. apply keeps_writeStage; [|done]. apply stageOk_set_fields.
    apply stageOk_iff in Hs. unfold spliceOver. apply Forall_app.
    split; [by apply Forall_take|]. constructor; [done|by apply Forall_drop].
  - apply keeps_removeField.
  - unfold reorderFields. eapply keeps_bind; [apply keeps_stageRef|].
    intros stage Hs. destruct (mapM _ order) as [newFields|] eqn:Hm; [|any].
    apply keeps_writeStage; [|done]. apply stageOk_set_fields.
    apply stageOk_iff in Hs. by eapply Forall_mapM_lookup.
  - apply keeps_toggleField.
  - unfold addFilter. apply keeps_autoExpand_stage. intros stage Hs.
    apply keeps_writeStage; [same_fields|done].
  - unfold editFilter. eapply keeps_bind; [apply keeps_stageRef|]. intros stage Hs.
    destruct ofi as [fi|].
    + destruct (fields stage !! fi) as [[x|fan|t|d]|] eqn:Hf; try any.
      destruct (fan_filterList fan); [|any].
      eapply keeps_bind; [by apply keeps_lift with (Q := λ _, True)|]. intros fl _.
      apply keeps_writeStage; [|done]. apply stageOk_set_fields.
      apply Forall_insert; [by apply stageOk_iff|done].
    + destruct (filterList stage); [|any].
      eapply keeps_bind; [by apply keeps_lift with (Q := λ _, True)|]. intros fl _.
      apply keeps_writeStage; [same_fields|done].
  - unfold removeFilter. eapply keeps_bind; [apply keeps_stageRef|]. intros stage Hs.
    destruct ofi as [fi|].
    + destruct (fields stage !! fi) as [[x|fan|t|d]|] eqn:Hf; try any.
      destruct (fan_filterList fan); [|any].
      apply keeps_writeStage; [|done]. apply stageOk_set_fields.
      apply Forall_insert; [by apply stageOk_iff|done].
    + destruct (filterList stage); [|any].
      apply keeps_writeStage; [same_fields|done].
  - unfold addLimit. apply keeps_autoExpand_stage. intros stage Hs.
    destruct (type stage); try any.
    apply keeps_writeStage; [|done]. destruct byField; same_fields.
  - unfold addOrderBy. apply keeps_autoExpand_stage. intros stage Hs.
    destruct (type stage); try any.
    eapply keeps_bind; [apply keeps_writeStage with (Q := λ _, True);
                        [same_fields|done]|].
    intros _ _.
    eapply keeps_bind; [by apply keeps_defined with (Q := λ _, True)|]. intros f _.
    apply keeps_writeStage; [same_fields|done].
  - unfold editOrderBy. eapply keeps_bind; [apply keeps_stageRef|]. intros stage Hs.
    destruct (type stage); try any.
    eapply keeps_bind; [apply keeps_writeStage with (Q := λ _, True);
                        [same_fields|done]|].
    intros _ _.
    eapply keeps_bind; [by apply keeps_defined with (Q := λ _, True)|]. intros f _.
    apply keeps_writeStage; [same_fields|done].
  - unfold removeLimit. eapply keeps_bind; [apply keeps_stageRef|]. intros stage Hs.
    apply keeps_writeStage; [same_fields|done].
  - unfold addStage. destruct sp as [p|].
    + eapply keeps_bind; [apply keeps_stageAtPath|]. intros r Hr.
      destruct ofi as [fi|]; [|any].
      eapply keeps_bind; [apply keeps_defined; exact Hr|]. intros parent Hparent.
      eapply keeps_bind; [by apply keeps_reading with (Q := λ _, True)|].
      intros src _.
      destruct (fields parent !! fi) as [f|]; [|any].
      eapply keeps_bind; [by apply keeps_reading with (Q := λ _, True)|].
      intros fd _. destruct fd; try any.
      destruct f; try apply keeps_pushStageUnder;
        (eapply keeps_bind; [by apply keeps_replaceWithDefinition|];
         intros _ _; apply keeps_pushStageUnder).
    + eapply keeps_bind; [apply keeps_getPipeline|]. intros pl [Hne Hp].
      apply keeps_putPipeline; [by destruct pl| |done].
      apply Forall_app. split; [done|by constructor].
  - unfold removeStage.
    destruct (stagePathParent p) as [[[pp|] fi] k].
    + eapply keeps_bind; [apply keeps_stageAtPath|]. intros r Hr.
      destruct fi as [fi|]; [|any].
      eapply keeps_bind; [apply keeps_defined; exact Hr|]. intros parent Hparent.
      destruct (fields parent !! fi) as [[x|fan|t|d]|] eqn:Hf; try any.
      apply stageOk_iff in Hparent.
      pose proof (Forall_bool_lookup _ _ _ _ Hparent Hf) as Ht.
      cbn in Ht. apply queryOk_iff in Ht as [_ Ht].
      apply keeps_writeStage; [|done]. apply stageOk_set_fields.
      apply Forall_insert; [done|]. apply queryOk_set_pipeline.
      by apply spliceStage_ok.
    + eapply keeps_bind; [apply keeps_getPipeline|]. intros pl [_ Hp].
      destruct (spliceStage_ok k pl Hp). by apply keeps_putPipeline.
  - unfold removeOrderBy. eapply keeps_bind; [apply keeps_stageRef|]. intros stage Hs.
    destruct (type stage); try any. destruct (orderBy stage); [|any].
    apply keeps_writeStage; [same_fields|done].
  - apply keeps_renameField.
  - unfold addFilterToField.
    eapply keeps_bind with (Q := λ _, True).
    { destruct oas; [apply keeps_renameField|by apply keeps_ret]. }
    intros _ _. eapply keeps_bind; [apply keeps_stageRef|]. intros stage Hs.
    destruct (type stage); try any.
    destruct (fields stage !! i) as [[x|fan|t|d]|] eqn:Hf; try any.
    + destruct oas; any.
    + apply keeps_writeStage; [|done]. apply stageOk_set_fields.
      apply Forall_insert; [by apply stageOk_iff|done].
  - by apply keeps_insertField.
  - by apply keeps_insertField.
  - unfold editFieldDefinition. eapply keeps_bind; [apply keeps_stageRef|].
    intros stage Hs.
    eapply keeps_bind with (Q := λ fs, Forall fieldOk fs).
    { apply keeps_lift. intros fs Hset. apply stageOk_iff in Hs.
      eapply Forall_arraySet; [exact Hset|done..]. }
    intros fs Hfs. apply keeps_writeStage; [|done]. by apply stageOk_set_fields.
  - apply keeps_replaceWithDefinition. intros s ->. done.
Qed.

Lemma runWithinTypes_Inv (ops : list Op) (b b' : QueryBuilder) :
  Forall inputsOk ops → Inv b → runWithinTypes ops b = Some b' → Inv b'.
Proof.
  revert b. induction ops as [|op ops IH]; intros b Hops Hb; cbn [runWithinTypes].
  - by intros [= <-].
  - apply Forall_cons in Hops as [Hop Hops].
    destruct (keeps_perform op Hop b Hb) as [Hb1 _].
    destruct (perform op b) as [[[]|e] b1]; cbn in Hb1.
    + by apply IH.
    + destruct e; try done; by apply IH.
Qed.

(** In a tree that is in order a nested query has stages. *)
Lemma nested_nonempty (b : QueryBuilder) (p : StagePath) (parent : PipeSegment)
    (fi : nat) (t : TurtleDef) :
  queryOk (query b) →
  stageAtPath p b = Return (Some parent) →
  fields parent !! fi = Some (QTurtle t) →
  pipeline t ≠ [].
Proof.
  intros Hq Hparent Ht. apply queryOk_iff in Hq as [_ Hq].
  pose proof (stageIn_ok _ _ _ Hq Hparent) as Hok. apply stageOk_iff in Hok.
  pose proof (Forall_bool_lookup _ _ _ _ Hok Ht) as Htok.
  by apply queryOk_iff in Htok as [? _].
Qed.

(** [removeStage] on the only stage of the root pipeline, and of a nested
    one. *)
Lemma removeStage_root_only (b : QueryBuilder) (stage : PipeSegment) :
  pipeline (query b) = [stage] →
  ∃ b', removeStage rootStage b = (Return (), b') ∧
        pipeline (query b') = [emptyStage].
Proof.
  intros Hp. eexists. split; [reflexivity|]. cbn. by rewrite Hp.
Qed.

Lemma removeStage_nested_only (b : QueryBuilder) (p pp : StagePath) (fi : nat)
    (parent stage : PipeSegment) (t : TurtleDef) :
  stagePathParent p = (Some pp, Some fi, 0) →
  stageAtPath pp b = Return (Some parent) →
  fields parent !! fi = Some (QTurtle t) →
  pipeline t = [stage] →
  ∃ b' parent',
    removeStage p b = (Return (), b') ∧
    stageAtPath pp b' = Return (Some parent') ∧
    fields parent' !! fi = Some (QTurtle (set_pipeline t [emptyStage])).
Proof.
  intros Hpath Hparent Ht Hp. unfold removeStage. rewrite Hpath.
  unfold bind, reading, lift. rewrite Hparent. cbn [defined]. rewrite Ht.
  eexists _, _. split; [reflexivity|].
  split; [by eapply stageAtPath_written|].
  rewrite Hp. cbn [spliceStage delete list_delete].
  replace (fields (set_fields _ _)) with
    (<[fi := QTurtle (set_pipeline t [emptyStage])]> (fields parent))
    by (by destruct parent).
  apply list_lookup_insert_eq. by eapply lookup_lt_Some.
Qed.


End Keeps.

Section PipelinesDemo.
#[local] Existing Instance demoMalloy.


(** A sequence that is not followed: index 1 is the index of no field of the
    stage, the program stores [[undefined]] as the list of fields. *)
Example reorderFields_leaves_types :
  stageAtPath rootStage (after (addField rootStage "age") demoBuilder)
  = Return (Some (mkSegment reduce [QName "age"] None None None None)) ∧
  runWithinTypes [OpAddField rootStage "age"; OpReorderFields rootStage [1]] demoBuilder
  = None ∧
  runWithinTypes [OpAddField rootStage "age"; OpReorderFields rootStage [0]] demoBuilder
  = Some (after (addField rootStage "age") demoBuilder).
Proof. repeat split; reflexivity. Qed.

Lemma demoMalloy_ok (s : StructDef) (st : PipeSegment) (s' : StructDef) :
  schemaOk s → nextStructDef s st = Some s' → schemaOk s'.
Proof. cbn. by intros Hs [= <-]. Qed.


End PipelinesDemo.

(** * Further properties of the code *)

(** ** Resolving a dotted path *)

Lemma split_dot_nonempty (s : string) : split_dot s ≠ [].
Proof.
  induction s as [|c s IH]; [done|]. cbn.
  destruct (Ascii.eqb c "."); [done|]. by destruct (split_dot s).
Qed.

Lemma split_dot_segment (a : string) : noDot a = true → split_dot a = [a].
Proof.
  induction a as [|c a IH]; [done|]. cbn.
  destruct (Ascii.eqb c "."); [done|]. cbn. intros Ha. by rewrite IH.
Qed.

Lemma split_dot_cons (a rest : string) :
  noDot a = true → split_dot (a +:+ "." +:+ rest) = a :: split_dot rest.
Proof.
  induction a as [|c a IH]; [done|]. rewrite append_cons. cbn.
  destruct (Ascii.eqb c "."); [done|]. cbn. intros Ha. by rewrite IH.
Qed.

Section Paths.
Context {malloy : Malloy}.

(** X1: [getField] reads its path segment by segment.  A single segment is
    looked up among the fields of [source] by display name.  A first segment
    that names a structure continues in that structure; one that names a
    nested query continues in the root schema, not in [source], taken through
    the stages of the query; one that names an atomic field or nothing
    ends the lookup with an error. *)
Theorem getField_segments (root source : StructDef) (a rest : string) :
  noDot a = true →
  getField root source a
  = match findField source a with
    | Some found => Return found
    | None => Throw (Error ("Could not find " +:+ a))
    end ∧
  getField root source (a +:+ "." +:+ rest)
  = match findField source a with
    | None => Throw (Error ("Could not find (inner) " +:+ a))
    | Some (FStruct found) => getField root found rest
    | Some (FTurtle found) =>
        let? turtleSource := throughStages (pipeline found) root in
        getField root turtleSource rest
    | Some (FAtomic _) => Throw (Error "Inner segment in path is not a source")
    end.
Proof.
  intros Ha. split.
  - unfold getField. by rewrite split_dot_segment.
  - unfold getField. rewrite split_dot_cons by done.
    destruct (split_dot rest) as [|next parts] eqn:Hrest;
      [by destruct (split_dot_nonempty rest)|].
    cbn [getField_walk].
    by destruct (findField source a) as [[found|found|d]|].
Qed.

End Paths.

Section PathsDemo.
#[local] Existing Instance demoMalloy.

(** [by_region.total] read from an empty structure: [by_region] is not there;
    read from the schema it is the measure [total] of the schema. *)
Lemma getField_segments_witness :
  noDot "by_region" = true ∧
  getField demoSource demoSource "by_region.total" = Return (measure "total") ∧
  getField demoSource (mkStructDef "empty" None []) "by_region"
  = Throw (Error "Could not find by_region").
Proof.
  split; [reflexivity|].
  destruct (getField_segments demoSource demoSource "by_region" "total" eq_refl)
    as [_ Hpath].
  destruct (getField_segments demoSource (mkStructDef "empty" None []) "by_region"
              "total" eq_refl) as [Hone _].
  split; [exact (eq_trans Hpath eq_refl)|exact (eq_trans Hone eq_refl)].
Defined.

End PathsDemo.

(** ** Edits of a stage *)

Lemma spliceIn_lookup_lt {A} (l : list A) (i k : nat) (x : A) :
  k < i → i ≤ length l → spliceIn i x l !! k = l !! k.
Proof.
  intros Hk Hi. unfold spliceIn.
  rewrite lookup_app_l by (rewrite length_take; lia).
  by rewrite lookup_take_lt.
Qed.

Lemma spliceIn_lookup_gt {A} (l : list A) (i k : nat) (x : A) :
  i ≤ k → i ≤ length l → spliceIn i x l !! S k = l !! k.
Proof.
  intros Hk Hi. unfold spliceIn.
  rewrite lookup_app_r by (rewrite length_take; lia).
  rewrite length_take, Nat.min_l by done.
  replace (S k - i) with (S (k - i)) by lia.
  change ((x :: drop i l) !! S (k - i)) with (drop i l !! (k - i)).
  rewrite lookup_drop. by replace (i + (k - i)) with k by lia.
Qed.

Section Edits.
Context {malloy : Malloy}.

Lemma placed_rankOrdered (root src : StructDef) (field : QueryFieldDef)
    (r : nat) (fs : list QueryFieldDef) (i : nat) :
  rankOf root src field = Some r →
  placedAt root src r fs i →
  rankOrdered root src fs →
  rankOrdered root src (spliceIn i field fs).
Proof.
  intros Hr (Hi & Hbefore & Hat) Hord k j f g rf rg Hkj Hf Hg Hrf Hrg.
  destruct (Nat.lt_trichotomy k i) as [Hk|[->|Hk]].
  - rewrite spliceIn_lookup_lt in Hf by done.
    destruct (Nat.lt_trichotomy j i) as [Hj|[->|Hj]].
    + rewrite spliceIn_lookup_lt in Hg by done. by eapply (Hord k j).
    + rewrite spliceIn_lookup in Hg by done. injection Hg as <-.
      rewrite Hr in Hrg. injection Hrg as <-. by eapply Hbefore.
    + destruct j as [|j]; [lia|]. rewrite spliceIn_lookup_gt in Hg by (done || lia).
      eapply (Hord k j); [lia|done..].
  - rewrite spliceIn_lookup in Hf by done. injection Hf as <-.
    rewrite Hr in Hrf. injection Hrf as <-.
    destruct j as [|j]; [lia|]. rewrite spliceIn_lookup_gt in Hg by (done || lia).
    destruct Hat as [->|(h & rh & Hh & Hrh & Hlt)].
    + apply lookup_lt_Some in Hg. lia.
    + destruct (decide (j = i)) as [->|Hne].
      * rewrite Hh in Hg. injection Hg as <-. rewrite Hrh in Hrg.
        injection Hrg as <-. lia.
      * pose proof (Hord i j h g rh rg ltac:(lia) Hh Hg Hrh Hrg). lia.
  - destruct k as [|k]; [lia|]. destruct j as [|j]; [lia|].
    rewrite spliceIn_lookup_gt in Hf by (done || lia).
    rewrite spliceIn_lookup_gt in Hg by (done || lia).
    eapply (Hord k j); [lia|done..].
Qed.

(** X2: [insertField] keeps a stage in rank order.  When the fields of the
    stage that resolve stand in the order of their ranks (dimensions, then
    calculations, then nested queries, then structures), they still do after
    the insertion, the new field among them. *)
Theorem insertField_keeps_rank_order (p : StagePath) (field : QueryFieldDef)
    (b b0 : QueryBuilder) (stage : PipeSegment) (src : StructDef) (d : FieldDef) :
  autoExpandStageAtPath p b = (Return (Some stage), b0) →
  sourceForStageAtPath (Some p) b0 = Return src →
  fieldDefForQueryFieldDef (_source b0) field src = Return d →
  rankOrdered (_source b0) src (fields stage) →
  ∃ b' stage',
    insertField p field b = (Return (), b') ∧
    stageAtPath p b' = Return (Some stage') ∧
    field ∈ fields stage' ∧
    length (fields stage') = S (length (fields stage)) ∧
    rankOrdered (_source b0) src (fields stage').
Proof.
  intros Hexp Hsrc Hd Hord.
  pose proof (autoExpand_returns _ _ _ _ Hexp) as Hst.
  destruct (insertField_places p field b b0 stage src d Hexp Hsrc Hd)
    as (i & Hplaced & Hrun).
  eexists _, _. split; [exact Hrun|].
  split; [by eapply stageAtPath_written|].
  replace (fields (set_fields _ _)) with (spliceIn i field (fields stage))
    by (by destruct stage).
  split; [|split].
  - unfold spliceIn. apply elem_of_app. right. by left.
  - unfold spliceIn. rewrite length_app, length_take. cbn. rewrite length_drop.
    destruct Hplaced as [Hi _]. lia.
  - apply placed_rankOrdered with (sortOrder d); [|done..].
    unfold rankOf. by rewrite Hd.
Qed.

End Edits.

Section EditsDemo.
#[local] Existing Instance demoMalloy.

(** [region] added to the stage [age; total; by_region]. *)
Lemma insertField_keeps_rank_order_witness :
  autoExpandStageAtPath rootStage referenceBuilder
  = (Return (Some (mkSegment reduce [QName "age"; QName "total"; QName "by_region"]
                     None None None None)), referenceBuilder) ∧
  ∃ b' stage',
    insertField rootStage (QName "region") referenceBuilder = (Return (), b') ∧
    stageAtPath rootStage b' = Return (Some stage') ∧
    rankOrdered demoSource demoSource (fields stage').
Proof.
  split; [reflexivity|].
  destruct (insertField_keeps_rank_order rootStage (QName "region") referenceBuilder
              referenceBuilder
              (mkSegment reduce [QName "age"; QName "total"; QName "by_region"]
                 None None None None)
              demoSource (dimension "region" "string") eq_refl eq_refl eq_refl)
    as (b' & stage' & Hrun & Hst & _ & _ & Hord).
  - intros i j f g r r' Hij Hf Hg Hr Hr'.
    destruct i as [|[|[|i]]]; destruct j as [|[|[|j]]];
      try lia; try done; cbn in Hf, Hg;
      injection Hf as <-; injection Hg as <-;
      vm_compute in Hr, Hr'; injection Hr as <-; injection Hr' as <-; lia.
  - exists b', stage'. split; [exact Hrun|]. split; [exact Hst|exact Hord].
Defined.

End EditsDemo.

(** ** Writing a stage twice, and writing back what was read *)

Lemma writeIn_writeIn (p : StagePath) (cur : list PipeSegment)
    (old s1 s2 : PipeSegment) :
  stageIn cur p = Return (Some old) →
  writeIn (writeIn cur p s1) p s2 = writeIn cur p s2.
Proof.
  revert cur. induction p as [h|h rest IH]; intros cur Hold.
  - apply stageIn_last in Hold as [Hf Hold]. cbn. rewrite Hf.
    apply list_insert_insert_eq.
  - apply stageIn_cons in Hold as [[Hf Hold]|(fi & st & t & Hf & Hst & Ht & Hold)].
    + cbn. rewrite Hf. apply list_insert_insert_eq.
    + cbn. rewrite Hf, Hst, Ht.
      rewrite list_lookup_insert_eq by (by eapply lookup_lt_Some).
      cbn. rewrite list_lookup_insert_eq by (by eapply lookup_lt_Some).
      rewrite list_insert_insert_eq. cbn. rewrite list_insert_insert_eq.
      by rewrite (IH _ Hold).
Qed.

Lemma writeIn_same (p : StagePath) (cur : list PipeSegment) (old : PipeSegment) :
  stageIn cur p = Return (Some old) → writeIn cur p old = cur.
Proof.
  revert cur. induction p as [h|h rest IH]; intros cur Hold.
  - apply stageIn_last in Hold as [Hf Hold]. cbn. rewrite Hf.
    by apply list_insert_id.
  - apply stageIn_cons in Hold as [[Hf Hold]|(fi & st & t & Hf & Hst & Ht & Hold)].
    + cbn. rewrite Hf. by apply list_insert_id.
    + cbn. rewrite Hf, Hst, Ht. rewrite (IH _ Hold).
      apply list_insert_id. rewrite Hst. f_equal.
      destruct st as [ty fs fl lim ob by']. unfold set_fields; cbn in *.
      f_equal. symmetry. apply list_insert_id. rewrite Ht. f_equal. by destruct t.
Qed.

Lemma written_written (p : StagePath) (b : QueryBuilder) (old s1 s2 : PipeSegment) :
  stageAtPath p b = Return (Some old) →
  written p s2 (written p s1 b) = written p s2 b.
Proof.
  intros Hold. unfold written. destruct b as [[n a pl] src log]. cbn.
  unfold setQueryOf, set_pipeline. cbn. do 2 f_equal. by eapply writeIn_writeIn.
Qed.

Lemma written_same (p : StagePath) (b : QueryBuilder) (old : PipeSegment) :
  stageAtPath p b = Return (Some old) → written p old b = b.
Proof.
  intros Hold. unfold written. destruct b as [[n a pl] src log]. cbn.
  unfold setQueryOf, set_pipeline. cbn. do 2 f_equal. by eapply writeIn_same.
Qed.

(** ** Round trips *)

Lemma delete_last_length {A} (l : list A) (x : A) : delete (length l) (l ++ [x]) = l.
Proof.
  induction l as [|y l IH]; [done|].
  change (y :: delete (length l) (l ++ [x]) = y :: l). by rewrite IH.
Qed.

Section RoundTrips.
Context {malloy : Malloy}.

(** X3: [addFilter] puts the filter at the end of the stage's filters, and
    [removeFilter] at that index takes it away again: the stage is as before,
    but for a filter list that was absent and is now empty; the builder is
    as before when the stage had a filter list. *)
Theorem addFilter_removeFilter (p : StagePath) (filter : FilterExpression)
    (b : QueryBuilder) (stage : PipeSegment) :
  stageAtPath p b = Return (Some stage) →
  ∃ b1 stage1 b2,
    addFilter p filter b = (Return (), b1) ∧
    stageAtPath p b1 = Return (Some stage1) ∧
    filterList stage1 = Some (orEmpty (filterList stage) ++ [filter]) ∧
    removeFilter p (length (orEmpty (filterList stage))) None b1 = (Return (), b2) ∧
    stageAtPath p b2
    = Return (Some (set_filterList stage (Some (orEmpty (filterList stage))))) ∧
    (is_Some (filterList stage) → b2 = b).
Proof.
  intros Hst.
  set (stage1 := set_filterList stage (Some (orEmpty (filterList stage) ++ [filter]))).
  set (stage2 := set_filterList stage (Some (orEmpty (filterList stage)))).
  assert (stageAtPath p (written p stage1 b) = Return (Some stage1)) as Hst1
    by (by eapply stageAtPath_written).
  exists (written p stage1 b), stage1, (written p stage2 b).
  split; [|split; [done|split; [by destruct stage|split; [|split]]]].
  - unfold addFilter, bind. by rewrite (autoExpand_resolved _ _ _ Hst).
  - unfold removeFilter, bind. rewrite (stageRef_resolved _ _ _ Hst1).
    replace (filterList stage1) with (Some (orEmpty (filterList stage) ++ [filter]))
      by (by destruct stage).
    rewrite delete_last_length. unfold writeStage.
    rewrite (written_written _ _ _ _ _ Hst). by destruct stage.
  - by eapply stageAtPath_written.
  - intros [l Hl]. subst stage2. rewrite Hl. cbn.
    replace (set_filterList stage (Some l)) with stage
      by (destruct stage; cbn in *; by subst).
    by apply written_same.
Qed.

(** X4: on a reduce stage [addOrderBy] appends an entry that names the field
    at the index by its display name, and [removeOrderBy] at that index takes
    it away again. *)
Theorem addOrderBy_removeOrderBy (p : StagePath) (i : nat)
    (direction : option Direction) (b : QueryBuilder) (stage : PipeSegment)
    (f : QueryFieldDef) :
  stageAtPath p b = Return (Some stage) →
  type stage = reduce →
  fields stage !! i = Some f →
  ∃ b1 stage1 b2,
    addOrderBy p i direction b = (Return (), b1) ∧
    stageAtPath p b1 = Return (Some stage1) ∧
    orderBy stage1
    = Some (orEmpty (orderBy stage) ++ [mkOrderBy (ByName (nameOf f)) direction]) ∧
    removeOrderBy p (length (orEmpty (orderBy stage))) b1 = (Return (), b2) ∧
    stageAtPath p b2
    = Return (Some (set_orderBy stage (Some (orEmpty (orderBy stage))))) ∧
    (is_Some (orderBy stage) → b2 = b).
Proof.
  intros Hst Hty Hf.
  set (new := mkOrderBy (ByName (nameOf f)) direction).
  set (stage1 := set_orderBy stage (Some (orEmpty (orderBy stage) ++ [new]))).
  set (stage2 := set_orderBy stage (Some (orEmpty (orderBy stage)))).
  assert (stageAtPath p (written p stage1 b) = Return (Some stage1)) as Hst1
    by (by eapply stageAtPath_written).
  exists (written p stage1 b), stage1, (written p stage2 b).
  split; [|split; [done|split; [by destruct stage|split; [|split]]]].
  - unfold addOrderBy, bind. rewrite (autoExpand_resolved _ _ _ Hst).
    cbn [lift defined]. rewrite Hty. unfold writeStage at 1, lift. rewrite Hf.
    cbn [defined]. unfold writeStage. by rewrite (written_written _ _ _ _ _ Hst).
  - unfold removeOrderBy, bind. rewrite (stageRef_resolved _ _ _ Hst1).
    replace (type stage1) with reduce by (by destruct stage; cbn in *; subst).
    replace (orderBy stage1) with (Some (orEmpty (orderBy stage) ++ [new]))
      by (by destruct stage).
    rewrite delete_last_length. unfold writeStage.
    rewrite (written_written _ _ _ _ _ Hst). by destruct stage.
  - by eapply stageAtPath_written.
  - intros [l Hl]. subst stage2. rewrite Hl. cbn.
    replace (set_orderBy stage (Some l)) with stage
      by (destruct stage; cbn in *; by subst).
    by apply written_same.
Qed.

(** X5: [addStage()] appends an empty reduce stage to the root pipeline, and
    [removeStage] on that stage gives back the builder. *)
Theorem addStage_removeStage (b : QueryBuilder) :
  pipeline (query b) ≠ [] →
  ∃ b1,
    addStage None None b = (Return (), b1) ∧
    pipeline (query b1) = pipeline (query b) ++ [emptyStage] ∧
    removeStage (pathOf [] (length (pipeline (query b)))) b1 = (Return (), b).
Proof.
  intros Hne. destruct b as [[n a pl] src log]. cbn in *.
  eexists. split; [reflexivity|]. split; [reflexivity|].
  unfold removeStage, bind, getPipeline, putPipeline. cbn.
  unfold spliceStage. rewrite delete_last_length. by destruct pl.
Qed.

(** X6: on a reduce stage [addLimit] makes [hasLimit] true, whatever the
    number, and [removeLimit] makes it false; a stage that had no limit is
    the same again. *)
Theorem addLimit_removeLimit (p : StagePath) (n : Z) (b : QueryBuilder)
    (stage : PipeSegment) :
  stageAtPath p b = Return (Some stage) →
  type stage = reduce →
  ∃ b1 b2,
    addLimit p n None None b = (Return (), b1) ∧
    hasLimit p b1 = (Return true, b1) ∧
    removeLimit p b1 = (Return (), b2) ∧
    hasLimit p b2 = (Return false, b2) ∧
    stageAtPath p b2 = Return (Some (set_limit stage None)) ∧
    (limit stage = None → b2 = b).
Proof.
  intros Hst Hty.
  set (stage1 := set_limit stage (Some n)).
  set (stage2 := set_limit stage None).
  assert (stageAtPath p (written p stage1 b) = Return (Some stage1)) as Hst1
    by (by eapply stageAtPath_written).
  assert (stageAtPath p (written p stage2 b) = Return (Some stage2)) as Hst2
    by (by eapply stageAtPath_written).
  exists (written p stage1 b), (written p stage2 b).
  split; [|split; [|split; [|split; [|split; [done|]]]]].
  - unfold addLimit, bind. rewrite (autoExpand_resolved _ _ _ Hst).
    cbn [lift defined]. by rewrite Hty.
  - unfold hasLimit, bind. rewrite (stageRef_resolved _ _ _ Hst1).
    by replace (type stage1) with reduce by (by destruct stage; cbn in *; subst).
  - unfold removeLimit, bind. rewrite (stageRef_resolved _ _ _ Hst1).
    unfold writeStage. rewrite (written_written _ _ _ _ _ Hst). by destruct stage.
  - unfold hasLimit, bind. rewrite (stageRef_resolved _ _ _ Hst2).
    by replace (type stage2) with reduce by (by destruct stage; cbn in *; subst).
  - intros Hlim. subst stage2.
    replace (set_limit stage None) with stage
      by (destruct stage; cbn in *; by subst).
    by apply written_same.
Qed.

End RoundTrips.

(** ** Fields of a stage *)

Lemma omap_lookup_seq {A} (pre l : list A) :
  omap ((pre ++ l) !!.) (seq (length pre) (length l)) = l.
Proof.
  revert pre. induction l as [|x l IH]; intros pre; [done|].
  change (match (pre ++ x :: l) !! length pre with
          | Some y => y :: omap ((pre ++ x :: l) !!.) (seq (S (length pre)) (length l))
          | None => omap ((pre ++ x :: l) !!.) (seq (S (length pre)) (length l))
          end = x :: l).
  rewrite list_lookup_middle by done.
  f_equal. specialize (IH (pre ++ [x])).
  rewrite <- app_assoc, length_app, Nat.add_1_r in IH. exact IH.
Qed.

Lemma mapM_omap {A B} (f : A → option B) (l : list A) (k : list B) :
  mapM f l = Some k → omap f l = k.
Proof.
  intros H. apply mapM_Some in H.
  induction H as [|x y l k Hx _ IH]; [done|].
  change (match f x with Some z => z :: omap f l | None => omap f l end = y :: k).
  by rewrite Hx, IH.
Qed.

Section StageFields.
Context {malloy : Malloy}.

(** X7: when the stage has at most one bare occurrence of a name that
    resolves, [toggleField] turns the answer of [hasField] for that name into
    its opposite. *)
Theorem toggleField_flips_hasField (p : StagePath) (x : string) (b : QueryBuilder)
    (stage : PipeSegment) (src : StructDef) (d : FieldDef) :
  stageAtPath p b = Return (Some stage) →
  sourceForStageAtPath (Some p) b = Return src →
  getField (_source b) src x = Return d →
  (∀ i, findIndex (isBareName x) (fields stage) = Some i →
        findIndex (isBareName x) (delete i (fields stage)) = None) →
  ∃ b' h,
    hasField p x b = (Return h, b) ∧
    toggleField p x b = (Return (), b') ∧
    hasField p x b' = (Return (negb h), b').
Proof.
  intros Hst Hsrc Hd Honce.
  destruct (findIndex (isBareName x) (fields stage)) as [i|] eqn:Hfind.
  - destruct (findIndex_Some _ _ _ Hfind) as (f & Hf & _ & _).
    destruct (removeField_fields p i b stage Hst) as (stage' & Hrem & Hfs);
      [by eexists|].
    assert (stageAtPath p (written p stage' b) = Return (Some stage')) as Hst'
      by (by eapply stageAtPath_written).
    exists (written p stage' b), true. split; [|split].
    + unfold hasField, bind. by rewrite (getFieldIndex_resolved _ _ _ _ Hst), Hfind.
    + unfold toggleField, bind. rewrite (autoExpand_resolved _ _ _ Hst).
      by rewrite (getFieldIndex_resolved _ _ _ _ Hst), Hfind.
    + unfold hasField, bind. rewrite (getFieldIndex_resolved _ _ _ _ Hst'), Hfs.
      by rewrite (Honce i eq_refl).
  - destruct (insertField_places p (QName x) b b stage src d)
      as (i & (Hi & _) & Hins); [by apply autoExpand_resolved|done..|].
    set (stage1 := set_fields stage _) in Hins.
    set (b1 := written p stage1 _) in Hins.
    assert (stageAtPath p b1 = Return (Some stage1)) as Hst1
      by (by eapply stageAtPath_written).
    exists b1, false. split; [|split].
    + unfold hasField, bind. by rewrite (getFieldIndex_resolved _ _ _ _ Hst), Hfind.
    + unfold toggleField, bind. rewrite (autoExpand_resolved _ _ _ Hst).
      by rewrite (getFieldIndex_resolved _ _ _ _ Hst), Hfind.
    + unfold hasField, bind. rewrite (getFieldIndex_resolved _ _ _ _ Hst1).
      replace (fields stage1) with (spliceIn i (QName x) (fields stage))
        by (by destruct stage).
      rewrite findIndex_spliceIn; [done..|apply isBareName_QName|done].
Qed.

(** X8: [renameField] on a reduce stage gives the field the new display name
    and makes the order-by entries follow: an entry that named the field
    names it still, under the new name and with its direction; the other
    entries stay. *)
Theorem renameField_order_follows (p : StagePath) (i : nat) (as_ : string)
    (b : QueryBuilder) (stage : PipeSegment) (f : QueryFieldDef) :
  stageAtPath p b = Return (Some stage) →
  type stage = reduce →
  fields stage !! i = Some f →
  as_ ≠ EmptyString →
  ∃ b' stage' f',
    renameField p i as_ b = (Return (), b') ∧
    stageAtPath p b' = Return (Some stage') ∧
    fields stage' = <[i := f']> (fields stage) ∧
    nameOf f' = as_ ∧
    length (orEmpty (orderBy stage')) = length (orEmpty (orderBy stage)) ∧
    ∀ k o, orEmpty (orderBy stage) !! k = Some o →
      ∃ o', orEmpty (orderBy stage') !! k = Some o' ∧
            dir o' = dir o ∧
            (orderRefers (nameOf f) o = true → orderRefers as_ o' = true) ∧
            (orderRefers (nameOf f) o = false → o' = o).
Proof.
  intros Hst Hty Hf Has.
  eexists _, _, (renamed f as_). split; [|split; [|split; [|split; [|split]]]].
  - unfold renameField, bind. rewrite (stageRef_resolved _ _ _ Hst), Hty.
    unfold lift. rewrite Hf. cbn [defined]. reflexivity.
  - by eapply stageAtPath_written.
  - by destruct stage.
  - assert (String.eqb as_ "" = false) as Hne by (by apply String.eqb_neq).
    destruct f as [s|fan|[n a pl]|d]; cbn;
      unfold fanName, turtleName, atomicName, orElse; cbn; by rewrite Hne.
  - destruct stage as [ty fs fl lim [ob|] by']; cbn; [|done].
    by rewrite length_map.
  - intros k o Ho. destruct stage as [ty fs fl lim [ob|] by']; cbn in *; [|done].
    rewrite list_lookup_fmap, Ho. cbn. eexists. split; [done|].
    unfold renameOrder. destruct (orderRefers (nameOf f) o) eqn:Href; cbn.
    + split; [done|]. split; [|done]. intros _. unfold orderRefers. cbn.
      apply String.eqb_refl.
    + done.
Qed.

(** X9: [reorderFields] with a permutation of the indices of the stage's
    fields permutes the fields, position [k] receiving the field that was at
    [order[k]], and changes nothing else of the stage. *)
Theorem reorderFields_permutes (p : StagePath) (order : list nat)
    (b : QueryBuilder) (stage : PipeSegment) :
  stageAtPath p b = Return (Some stage) →
  order ≡ₚ seq 0 (length (fields stage)) →
  ∃ b' newFields,
    reorderFields p order b = (Return (), b') ∧
    stageAtPath p b' = Return (Some (set_fields stage newFields)) ∧
    newFields ≡ₚ fields stage ∧
    ∀ k i, order !! k = Some i → newFields !! k = fields stage !! i.
Proof.
  intros Hst Hperm.
  assert (is_Some (mapM (λ index, fields stage !! index) order)) as [newFields Hnew].
  { apply mapM_is_Some, Forall_forall. intros i Hi.
    rewrite Hperm in Hi. apply elem_of_seq in Hi. apply lookup_lt_is_Some. lia. }
  exists (written p (set_fields stage newFields) b), newFields.
  split; [|split; [by eapply stageAtPath_written|split]].
  - unfold reorderFields, bind. by rewrite (stageRef_resolved _ _ _ Hst), Hnew.
  - rewrite <- (mapM_omap _ _ _ Hnew), Hperm.
    pose proof (omap_lookup_seq [] (fields stage)) as Hall.
    cbn [app length] in Hall. by rewrite Hall.
  - intros k i Hk. apply mapM_Some in Hnew.
    destruct (Forall2_lookup_l _ _ _ _ _ Hnew Hk) as (y & Hy & Hi).
    by rewrite Hy, Hi.
Qed.

End StageFields.

(** ** Refusals, and what a failed call leaves behind *)

Section Refusals.
Context {malloy : Malloy}.

(** X10: the calls that know only the reduce kind refuse a stage of another
    kind with the same error, and leave the builder as it was. *)
Theorem reduce_only_calls_refuse (p : StagePath) (b : QueryBuilder)
    (stage : PipeSegment) (n : Z) (byField : option SchemaField)
    (direction : option Direction) (i : nat) (as_ : string)
    (filter : FilterExpression) (alias : option string) :
  stageAtPath p b = Return (Some stage) →
  type stage ≠ reduce →
  hasLimit p b = (Throw notHandled, b) ∧
  addLimit p n byField direction b = (Throw notHandled, b) ∧
  addOrderBy p i direction b = (Throw notHandled, b) ∧
  editOrderBy p i direction b = (Throw notHandled, b) ∧
  removeOrderBy p i b = (Throw notHandled, b) ∧
  renameField p i as_ b = (Throw notHandled, b) ∧
  addFilterToField p i filter alias b = (Throw notHandled, b).
Proof.
  intros Hst Hty.
  pose proof (autoExpand_resolved _ _ _ Hst) as Hexp.
  pose proof (stageRef_resolved _ _ _ Hst) as Href.
  assert (renameField p i as_ b = (Throw notHandled, b)) as Hren.
  { unfold renameField, bind. rewrite Href. by destruct (type stage). }
  repeat split.
  - unfold hasLimit, bind. rewrite Href. by destruct (type stage).
  - unfold addLimit, bind. rewrite Hexp. cbn. by destruct (type stage).
  - unfold addOrderBy, bind. rewrite Hexp. cbn. by destruct (type stage).
  - unfold editOrderBy, bind. rewrite Href. by destruct (type stage).
  - unfold removeOrderBy, bind. rewrite Href. by destruct (type stage).
  - exact Hren.
  - unfold addFilterToField. destruct alias as [a|].
    + unfold bind at 1. unfold renameField, bind. rewrite Href.
      by destruct (type stage).
    + unfold bind, ret. rewrite Href. by destruct (type stage).
Qed.

(** X11: [addFilterToField] with an alias turns a bare name of a reduce
    stage into the refined field of that name with the alias and the one
    filter; without an alias it refuses the bare name and leaves the builder
    as it was. *)
Theorem addFilterToField_on_bare_name (p : StagePath) (i : nat)
    (filter : FilterExpression) (b : QueryBuilder) (stage : PipeSegment)
    (x : string) :
  stageAtPath p b = Return (Some stage) →
  type stage = reduce →
  fields stage !! i = Some (QName x) →
  (∀ a, ∃ b' stage',
     addFilterToField p i filter (Some a) b = (Return (), b') ∧
     stageAtPath p b' = Return (Some stage') ∧
     fields stage'
     = <[i := QFan (mkFan x (Some a) (Some [filter]))]> (fields stage) ∧
     filterList stage' = filterList stage ∧ limit stage' = limit stage) ∧
  addFilterToField p i filter None b
  = (Throw (Error "As must be specified if field is not already renamed."), b).
Proof.
  intros Hst Hty Hf. pose proof (lookup_lt_Some _ _ _ Hf) as Hi. split.
  - intros a.
    set (stage1 :=
           set_fields
             (set_orderBy stage (map (renameOrder (nameOf (QName x)) a) <$> orderBy stage))
             (<[i := renamed (QName x) a]> (fields stage))).
    assert (stageAtPath p (written p stage1 b) = Return (Some stage1)) as Hst1
      by (by eapply stageAtPath_written).
    assert (renameField p i a b = (Return (), written p stage1 b)) as Hren.
    { unfold renameField, bind. rewrite (stageRef_resolved _ _ _ Hst), Hty.
      unfold lift. rewrite Hf. cbn [defined]. by destruct stage. }
    eexists _, _. split; [|split].
    + unfold addFilterToField. unfold bind at 1. rewrite Hren.
      unfold bind. rewrite (stageRef_resolved _ _ _ Hst1).
      replace (type stage1) with reduce by (by destruct stage; cbn in *; subst).
      replace (fields stage1) with (<[i := renamed (QName x) a]> (fields stage))
        by (by destruct stage).
      rewrite list_lookup_insert_eq by done. cbn [renamed fan_filterList fan_name fan_as].
      unfold writeStage. rewrite (written_written _ _ _ _ _ Hst). reflexivity.
    + by eapply stageAtPath_written.
    + destruct stage as [ty fs fl lim ob by']; cbn in *.
      by rewrite list_insert_insert_eq.
  - unfold addFilterToField, bind, ret. rewrite (stageRef_resolved _ _ _ Hst), Hty.
    by rewrite Hf.
Qed.

(** X12: [replaceQuery] installs the pipeline of the definition under its
    display name.  The filters of the old tree go in front of those of the
    first stage when the old tree was one stage without fields, and are
    dropped otherwise.  A definition without stages is refused with a
    [TypeError] and the builder stays as it was. *)
Theorem replaceQuery_carries_filters (field : TurtleDef) (b : QueryBuilder) :
  match pipeline field with
  | [] =>
      replaceQuery field b
      = (Throw (TypeError "Cannot read properties of undefined"), b)
  | first :: later =>
      ∃ b' carried,
        replaceQuery field b = (Return (), b') ∧
        tname (query b') = turtleName field ∧
        _source b' = _source b ∧
        pipeline (query b')
        = set_filterList first (Some (carried ++ orEmpty (filterList first))) :: later ∧
        (∀ stage, pipeline (query b) = [stage] → fields stage = [] →
                  carried = orEmpty (filterList stage)) ∧
        (length (pipeline (query b)) ≠ 1 → carried = []) ∧
        (∀ stage, pipeline (query b) !! 0 = Some stage → fields stage ≠ [] →
                  carried = [])
  end.
Proof.
  destruct (pipeline field) as [|first later] eqn:Hp.
  - unfold replaceQuery, bind, getPipeline, jsonCopy. by rewrite Hp.
  - eexists _, _. split.
    { unfold replaceQuery, bind, getPipeline, jsonCopy. rewrite Hp. reflexivity. }
    split; [done|]. split; [done|]. split; [done|]. split; [|split].
    + intros stage -> Hfs. by rewrite Hfs.
    + intros Hlen. by destruct (pipeline (query b)) as [|s [|]].
    + intros stage Hs Hfs. destruct (pipeline (query b)) as [|s [|]]; try done.
      cbn in Hs. injection Hs as ->. by destruct (fields stage).
Qed.

(** X13: [loadQuery] is not all or nothing.  When the first pair of stages
    that cannot be merged is at index [k], the call throws after it has
    merged the stages before [k]; the name of the query is not changed. *)
Theorem loadQuery_fails_midway (queryPath : string) (b : QueryBuilder)
    (t : TurtleDef) (mergedE mergedS : list PipeSegment) (e s : PipeSegment)
    (es ls : list PipeSegment) :
  getField (_source b) (_source b) queryPath = Return (FTurtle t) →
  pipeline (query b) = mergedE ++ e :: es →
  pipeline t = mergedS ++ s :: ls →
  length mergedE = length mergedS →
  mergeable mergedE mergedS = true →
  isReduce e && isReduce s = false →
  loadQuery queryPath b
  = (Throw (Error "Cannot load query with non-reduce stages"),
     setQueryOf b
       (set_pipeline (query b) (mergedPipeline mergedE mergedS ++ e :: es))).
Proof.
  intros Hdef Hpe Hps Hlen Hm Hbad.
  unfold loadQuery, bind at 1, reading. rewrite Hdef, Hps.
  assert (∀ pre b0,
            pipeline (query b0) = pre ++ mergedE ++ e :: es →
            loadStages (mergedS ++ s :: ls) (length pre) b0
            = (Throw nonReduce,
               setQueryOf b0
                 (set_pipeline (query b0)
                    (pre ++ mergedPipeline mergedE mergedS ++ e :: es)))) as Hgen.
  { clear Hdef Hpe Hps b. revert mergedE Hlen Hm.
    induction mergedS as [|s0 ms IH]; intros mergedE Hlen Hm pre b0 Hp.
    - destruct mergedE; [|done]. cbn [app loadStages]. unfold bind.
      rewrite (loadStage_round s pre (e :: es) b0 Hp). rewrite Hbad.
      f_equal. destruct b0 as [[n a pl] src log]; cbn in *. by subst.
    - destruct mergedE as [|e0 me]; [done|]. cbn in Hlen. injection Hlen as Hlen.
      cbn [mergeable] in Hm. apply andb_true_iff in Hm as [Hred Hm].
      cbn [app loadStages]. unfold bind.
      rewrite (loadStage_round s0 pre (e0 :: me ++ e :: es) b0 Hp). rewrite Hred.
      specialize (IH me Hlen Hm (pre ++ [mergeStage e0 s0])
                     (setQueryOf b0
                        (set_pipeline (query b0)
                           (pre ++ mergeStage e0 s0 :: me ++ e :: es)))).
      rewrite length_app in IH. cbn [length] in IH. rewrite Nat.add_1_r in IH.
      rewrite IH.
      + f_equal. destruct b0 as [[n a pl] src log].
        unfold setQueryOf, set_pipeline; cbn. do 2 f_equal.
        by rewrite <- app_assoc.
      + destruct b0 as [[n a pl] src log]; cbn. by rewrite <- app_assoc. }
  specialize (Hgen [] b Hpe). cbn [length app] in Hgen.
  unfold bind. by rewrite Hgen.
Qed.

(** X14: [addStage] on a bare reference to a nested query, at any depth of
    the path, replaces the reference by the definition the root schema has
    under that name and appends an empty reduce stage to the copy.  A
    reference the root schema has no field for (a dotted path is one) is
    refused and the builder stays as it was. *)
Theorem addStage_promotes_reference (p : StagePath) (fi : nat) (b : QueryBuilder)
    (parentStage : PipeSegment) (x : string) (src : StructDef) (t' : TurtleDef) :
  stageAtPath p b = Return (Some parentStage) →
  fields parentStage !! fi = Some (QName x) →
  sourceForStageAtPath (Some p) b = Return src →
  getField (_source b) src x = Return (FTurtle t') →
  (∀ t, findField (_source b) x = Some (FTurtle t) →
     ∃ b' stage',
       addStage (Some p) (Some fi) b = (Return (), b') ∧
       stageAtPath p b' = Return (Some stage') ∧
       fields stage'
       = <[fi := QTurtle (set_pipeline t (pipeline t ++ [emptyStage]))]>
           (fields parentStage) ∧
       _source b' = _source b) ∧
  (findField (_source b) x = None →
   addStage (Some p) (Some fi) b = (Throw (Error "Field is not defined.."), b)).
Proof.
  intros Hst Hf Hsrc Hdef. pose proof (lookup_lt_Some _ _ _ Hf) as Hi. split.
  - intros t Hfound.
    set (stage1 := set_fields parentStage (<[fi := QTurtle t]> (fields parentStage))).
    assert (stageAtPath p (written p stage1 b) = Return (Some stage1)) as Hst1
      by (by eapply stageAtPath_written).
    eexists _, _. split; [|split; [|split]].
    + unfold addStage, bind, reading, lift. rewrite Hst. cbn [defined].
      rewrite Hsrc, Hf. cbn [fieldDefForQueryFieldDef]. rewrite Hdef.
      unfold replaceWithDefinition, bind, getSource, lift. cbn [defined].
      rewrite (stageRef_resolved _ _ _ Hst), Hf, Hfound.
      cbn [jsonCopy asQueryFieldDef]. unfold writeStage at 1. fold stage1.
      unfold pushStageUnder, bind. rewrite (stageRef_resolved _ _ _ Hst1).
      replace (fields stage1) with (<[fi := QTurtle t]> (fields parentStage))
        by (by destruct parentStage).
      rewrite list_lookup_insert_eq by done.
      unfold writeStage. rewrite (written_written _ _ _ _ _ Hst). reflexivity.
    + by eapply stageAtPath_written.
    + destruct parentStage as [ty fs fl lim ob by']; cbn in *.
      by rewrite list_insert_insert_eq.
    + by destruct b.
  - intros Hnone.
    unfold addStage, bind, reading, lift. rewrite Hst. cbn [defined].
    rewrite Hsrc, Hf. cbn [fieldDefForQueryFieldDef]. rewrite Hdef.
    unfold replaceWithDefinition, bind, getSource, lift. cbn [defined].
    by rewrite (stageRef_resolved _ _ _ Hst), Hf, Hnone.
Qed.

End Refusals.

(** ** What an edit of a stage leaves alone *)

Section Preserved.
Context {A B : Type}.
Implicit Types P : QueryBuilder → Prop.

Lemma preserves_still (m : M A) P : (∀ b, snd (m b) = b) → preserves m P.
Proof. intros Hm b Hb. by rewrite Hm. Qed.

Lemma preserves_bind (m : M A) (k : A → M B) P :
  preserves m P → (∀ a, preserves (k a) P) → preserves (bind m k) P.
Proof.
  intros Hm Hk b Hb. unfold bind. specialize (Hm b Hb).
  destruct (m b) as [[a|e] b1]; cbn in *; [by apply Hk|done].
Qed.

Lemma preserves_tryCatch (m : M A) (handler : Exn → M A) P :
  preserves m P → (∀ e, preserves (handler e) P) → preserves (tryCatch m handler) P.
Proof.
  intros Hm Hh b Hb. unfold tryCatch. specialize (Hm b Hb).
  destruct (m b) as [[a|e] b1]; cbn in *; [done|by apply Hh].
Qed.

End Preserved.

(** The steps of a proof that a call preserves a property which every
    [writeStage] of the call preserves ([write]) and which does not speak of
    the console. *)
Ltac preserved write :=
  repeat first
    [ progress cbn [nextPath headHop pathOf stageIndex fieldIndex]
    | match goal with
      | |- preserves (bind (lift (defined (Some ?x))) ?k) _ =>
          change (bind (lift (defined (Some x))) k) with (k x); cbv beta
      end
    | apply preserves_bind; [|intros ?]
    | apply preserves_tryCatch; [|intros ?]
    | apply preserves_still; intros ?; reflexivity
    | write
    | match goal with
      | |- preserves (match ?x with _ => _ end) _ => destruct x
      | |- preserves (let '(_, _) := ?x in _) _ => destruct x
      end ].

Ltac unfold_calls :=
  unfold addField, addNewNestedQuery, addNewField, toggleField, insertField,
    getIndexToInsertNewField, replaceSavedField, removeField, reorderFields,
    getFieldIndex, addFilter, editFilter, removeFilter, addLimit, addOrderBy,
    editOrderBy, removeLimit, removeOrderBy, renameField, addFilterToField,
    editFieldDefinition, addStage, pushStageUnder, autoExpandStageAtPath,
    replaceWithDefinition, stagePathPop, unsupported in *.

Section Frame.
Context {malloy : Malloy}.

Lemma writeStage_root_frame (i j : nat) (new : PipeSegment)
    (s : option PipeSegment) :
  j ≠ i →
  preserves (writeStage (pathOf [] i) new) (λ b, pipeline (query b) !! j = s).
Proof.
  intros Hne b Hb. destruct b as [[n a pl] src log]. cbn in *.
  by rewrite list_lookup_insert_ne.
Qed.

Lemma consoleLog_frame (es : list Exn) (P : TurtleDef → Prop) :
  preserves (consoleLog es) (λ b, P (query b)).
Proof. by intros b Hb. Qed.

(** X15: an edit addressed to stage [i] of the root pipeline changes no other
    stage of the root pipeline, whether it returns or throws. *)
Theorem stage_edit_frame (op : Op) (i j : nat) (b : QueryBuilder) :
  stagePathOf op = Some (pathOf [] i) →
  j ≠ i →
  pipeline (query (snd (perform op b))) !! j = pipeline (query b) !! j.
Proof.
  intros Hop Hne.
  assert (preserves (perform op) (λ b', pipeline (query b') !! j = pipeline (query b) !! j))
    as Hpres; [|by apply Hpres].
  generalize (pipeline (query b) !! j). intros s. clear b.
  destruct op as [ |q|name|source|p x|x|t|p k x|p k|p order|p x|p f|p fi k f|p k fi
                 |p n byField d|p k d|p k d|p|[p|] fi|p|p k|p k a|p k f a|p name
                 |p d|p k d|p k sd]; cbn in Hop; simplify_eq; cbn [perform];
    unfold_calls;
    preserved ltac:(first [ apply (writeStage_root_frame i j); exact Hne
                          | apply (consoleLog_frame _ (λ q, pipeline q !! j = s)) ]).
Qed.

Lemma writeStage_shape (p : StagePath) (new : PipeSegment) (n : nat)
    (name : string) :
  preserves (writeStage p new)
    (λ b, length (pipeline (query b)) = n ∧ tname (query b) = name).
Proof.
  intros b [Hlen Hname]. destruct b as [[nm a pl] src log]. cbn in *.
  by rewrite writeIn_length.
Qed.

(** X16: an edit of a stage, at whatever depth, neither adds a stage to the
    root pipeline nor takes one away, and does not rename the query. *)
Theorem stage_edit_keeps_shape (op : Op) (p : StagePath) (b : QueryBuilder) :
  stagePathOf op = Some p →
  length (pipeline (query (snd (perform op b)))) = length (pipeline (query b)) ∧
  tname (query (snd (perform op b))) = tname (query b).
Proof.
  intros Hop.
  assert (preserves (perform op)
            (λ b', length (pipeline (query b')) = length (pipeline (query b)) ∧
                   tname (query b') = tname (query b)))
    as Hpres; [|by apply Hpres].
  generalize (length (pipeline (query b))) (tname (query b)). intros n name.
  clear b.
  destruct op as [ |q|nm|source|p' x|x|t|p' k x|p' k|p' order|p' x|p' f|p' fi k f
                 |p' k fi|p' m byField d|p' k d|p' k d|p'|[p'|] fi|p'|p' k|p' k a
                 |p' k f a|p' nm|p' d|p' k d|p' k sd]; cbn in Hop; simplify_eq;
    cbn [perform]; unfold_calls;
    preserved ltac:(first [ apply writeStage_shape
                          | apply (consoleLog_frame _
                                     (λ q, length (pipeline q) = n ∧ tname q = name)) ]).
Qed.

End Frame.

(** ** The text of a query *)

Lemma Balanced_nil : Balanced [].
Proof. intros rest code d sol _. exists EmptyString, sol. by rewrite append_empty_r. Qed.

Lemma Balanced_app (fr1 fr2 : list Fragment) :
  Balanced fr1 → Balanced fr2 → Balanced (fr1 ++ fr2).
Proof.
  intros H1 H2 rest code d sol Hd.
  destruct (H1 (fr2 ++ rest) code d sol Hd) as (t1 & s1 & E1).
  destruct (H2 rest (code +:+ t1) d s1 Hd) as (t2 & s2 & E2).
  exists (t1 +:+ t2), s2. by rewrite <- app_assoc, E1, E2, append_assoc.
Qed.

Lemma Balanced_lit (s : string) : Balanced [Lit s].
Proof.
  intros rest code d sol Hd. cbn [app codeFrom]. destruct sol.
  - unfold repeatSpace.
    destruct (Z.ltb_spec (d * TAB_WIDTH) 0) as [Hneg|_]; [unfold TAB_WIDTH in Hneg; lia|].
    cbn [bindR]. eexists (_ +:+ s), false. by rewrite append_assoc.
  - by exists s, false.
Qed.

Lemma Balanced_newline : Balanced [NEWLINE].
Proof. intros rest code d sol Hd. by exists newline, true. Qed.

Lemma Balanced_cons (x : Fragment) (fr : list Fragment) :
  Balanced [x] → Balanced fr → Balanced (x :: fr).
Proof. intros Hx Hfr. by apply (Balanced_app [x] fr). Qed.

Lemma Balanced_indented (fr : list Fragment) :
  Balanced fr → Balanced (INDENT :: fr ++ [OUTDENT]).
Proof.
  intros H rest code d sol Hd. cbn [app codeFrom].
  destruct (H (OUTDENT :: rest) code (d + 1)%Z sol ltac:(lia)) as (t & s' & E).
  rewrite <- app_assoc. cbn [app]. rewrite E. cbn [codeFrom].
  replace (d + 1 - 1)%Z with d by lia. eauto.
Qed.

Lemma Balanced_block (fr : list Fragment) (s : string) :
  Balanced fr → Balanced (INDENT :: fr ++ [OUTDENT; Lit s]).
Proof.
  intros Hfr.
  assert (INDENT :: fr ++ [OUTDENT; Lit s] = (INDENT :: fr ++ [OUTDENT]) ++ [Lit s])
    as -> by (cbn; by rewrite <- app_assoc).
  apply Balanced_app; [by apply Balanced_indented|apply Balanced_lit].
Qed.

Lemma Balanced_flat_map {A} (f : A → list Fragment) (l : list A) :
  Forall (λ x, Balanced (f x)) l → Balanced (flat_map f l).
Proof.
  induction 1 as [|x l Hx _ IH]; [apply Balanced_nil|].
  cbn. by apply Balanced_app.
Qed.

Lemma Balanced_filterFragments (fl : list FilterExpression) :
  Balanced (filterFragments fl).
Proof.
  induction fl as [|f fl IH]; [apply Balanced_nil|]. cbn [filterFragments].
  apply Balanced_cons; [apply Balanced_lit|]. apply Balanced_app.
  - destruct fl; [apply Balanced_nil|apply Balanced_lit].
  - apply Balanced_cons; [apply Balanced_newline|done].
Qed.

Lemma Balanced_getFiltersString (f : FilterExpression) (fl : list FilterExpression) :
  Balanced (getFiltersString (f :: fl)).
Proof.
  unfold getFiltersString. destruct fl as [|g fl].
  - cbn [length Nat.eqb Nat.ltb Nat.leb]. apply Balanced_app; [apply Balanced_lit|].
    rewrite app_nil_r. apply Balanced_filterFragments.
  - cbn [length Nat.eqb Nat.ltb Nat.leb app].
    apply Balanced_cons; [apply Balanced_newline|].
    apply Balanced_indented, Balanced_filterFragments.
Qed.

Lemma Balanced_stageWhere (stage : PipeSegment) : Balanced (stageWhere stage).
Proof.
  unfold stageWhere. destruct (filterList stage) as [[|f fl]|]; try apply Balanced_nil.
  apply Balanced_cons; [apply Balanced_lit|apply Balanced_getFiltersString].
Qed.

Lemma Balanced_writeMalloyForPropertyValues (property : string)
    (malloys : list (list Fragment)) :
  Forall Balanced malloys → Balanced (writeMalloyForPropertyValues property malloys).
Proof.
  intros Hms. unfold writeMalloyForPropertyValues.
  destruct malloys as [|m [|m' ms]]; [apply Balanced_nil| |].
  - apply Forall_cons in Hms as [Hm _].
    do 2 (apply Balanced_cons; [apply Balanced_lit|]).
    apply Balanced_app; [done|apply Balanced_newline].
  - do 2 (apply Balanced_cons; [apply Balanced_lit|]).
    apply Balanced_cons; [apply Balanced_newline|].
    apply Balanced_indented. apply Balanced_flat_map.
    eapply Forall_impl; [exact Hms|]. intros fr Hfr. cbn.
    apply Balanced_app; [done|apply Balanced_newline].
Qed.

(** *** The runs of a stage *)

Lemma runs_cons (info : CodeInfo) (later : list CodeInfo) :
  runs (info :: later)
  = match runs later with
    | (property, malloys) :: rest =>
        if String.eqb (info_property info) property
        then (property, info_malloy info :: malloys) :: rest
        else (info_property info, [info_malloy info]) :: (property, malloys) :: rest
    | [] => [(info_property info, [info_malloy info])]
    end.
Proof. reflexivity. Qed.

Lemma runs_head (info : CodeInfo) (later : list CodeInfo) :
  ∃ malloys rest,
    runs (info :: later) = (info_property info, info_malloy info :: malloys) :: rest.
Proof.
  rewrite runs_cons. destruct (runs later) as [|[p ms] rs]; [by eexists _, _|].
  destruct (String.eqb_spec (info_property info) p) as [->|]; by eexists _, _.
Qed.

Lemma runs_same (p : string) (infos0 : list CodeInfo) :
  infos0 ≠ [] → Forall (λ i, info_property i = p) infos0 →
  runs infos0 = [(p, info_malloy <$> infos0)].
Proof.
  induction infos0 as [|i l IH]; intros Hne Hall; [done|].
  apply Forall_cons in Hall as [Hi Hall]. rewrite runs_cons.
  destruct l as [|j l]; [by subst p|].
  rewrite IH by done. subst p. by rewrite String.eqb_refl.
Qed.

Lemma runs_app_other (p : string) (infos0 : list CodeInfo) (info : CodeInfo)
    (later : list CodeInfo) :
  infos0 ≠ [] → Forall (λ i, info_property i = p) infos0 →
  info_property info ≠ p →
  runs (infos0 ++ info :: later) = (p, info_malloy <$> infos0) :: runs (info :: later).
Proof.
  intros Hne Hall Hother.
  induction infos0 as [|i l IH]; [done|].
  apply Forall_cons in Hall as [Hi Hall].
  change ((i :: l) ++ info :: later) with (i :: (l ++ info :: later)).
  rewrite runs_cons. destruct l as [|j l].
  - cbn [app]. destruct (runs_head info later) as (ms & rs & ->).
    apply String.eqb_neq in Hother. rewrite String.eqb_sym in Hother.
    subst p. by rewrite Hother.
  - rewrite IH by done. subst p. by rewrite String.eqb_refl.
Qed.

Lemma propertyLoop_open (infos : list (option CodeInfo)) (infos0 : list CodeInfo)
    (malloy : list Fragment) (p : string) :
  infos0 ≠ [] → Forall (λ i, info_property i = p) infos0 →
  Forall (λ i, info_property i ≠ EmptyString) (infos0 ++ omap id infos) →
  ∃ closed p' cm',
    propertyLoop infos malloy (Some p) (info_malloy <$> infos0)
    = (malloy ++ flat_map writeRun closed, Some p', cm') ∧
    runs (infos0 ++ omap id infos) = closed ++ [(p', cm')] ∧
    p' ≠ EmptyString.
Proof.
  revert infos0 malloy p.
  induction infos as [|[info|] later IH]; intros infos0 malloy p Hne Hall Hprop.
  - exists [], p, (info_malloy <$> infos0). cbn. rewrite !app_nil_r.
    split; [done|]. split; [by apply runs_same|].
    rewrite app_nil_r in Hprop. destruct infos0 as [|i l]; [done|].
    apply Forall_cons in Hprop as [Hi _]. apply Forall_cons in Hall as [<- _]. done.
  - cbn [propertyLoop].
    change (omap id (Some info :: later)) with (info :: omap id later) in *.
    destruct (String.eqb_spec (info_property info) p) as [Heq|Hother].
    + destruct (IH (infos0 ++ [info]) malloy (info_property info))
        as (closed & p' & cm' & Hloop & Hruns & Hp').
      * by destruct infos0.
      * apply Forall_app. split; [by rewrite Heq|by constructor].
      * by rewrite <- app_assoc.
      * exists closed, p', cm'. rewrite fmap_app in Hloop. cbn in Hloop.
        split; [done|]. split; [|done]. by rewrite <- app_assoc in Hruns.
    + destruct (IH [info] (malloy ++ writeMalloyForPropertyValues p (info_malloy <$> infos0))
                  (info_property info))
        as (closed & p' & cm' & Hloop & Hruns & Hp').
      * done.
      * by constructor.
      * apply Forall_app in Hprop as [_ Hprop]. exact Hprop.
      * exists ((p, info_malloy <$> infos0) :: closed), p', cm'.
        split; [|split; [|done]].
        -- cbn [fmap list_fmap] in Hloop. rewrite Hloop. cbn [flat_map].
           by rewrite <- app_assoc.
        -- rewrite (runs_app_other p) by done. cbn [app] in Hruns. by rewrite Hruns.
  - cbn [propertyLoop]. change (omap id (None :: later)) with (omap id later) in *.
    by apply IH.
Qed.

Lemma propertyLoop_start (infos : list (option CodeInfo)) (malloy : list Fragment) :
  Forall (λ i, info_property i ≠ EmptyString) (omap id infos) →
  (omap id infos = [] ∧ propertyLoop infos malloy None [] = (malloy, None, [])) ∨
  ∃ closed p' cm',
    propertyLoop infos malloy None []
    = (malloy ++ flat_map writeRun closed, Some p', cm') ∧
    runs (omap id infos) = closed ++ [(p', cm')] ∧
    p' ≠ EmptyString.
Proof.
  induction infos as [|[info|] later IH]; intros Hprop.
  - by left.
  - right. cbn [propertyLoop app].
    change (omap id (Some info :: later)) with ([info] ++ omap id later) in *.
    exact (propertyLoop_open later [info] malloy (info_property info)
             ltac:(done) ltac:(by constructor) Hprop).
  - cbn [propertyLoop]. change (omap id (None :: later)) with (omap id later) in *.
    by apply IH.
Qed.

Section QueryText.
Context {malloy : Malloy} {text : Text}.

Lemma codeInfoForField_turtle (root : StructDef) (name : string)
    (as_ : option string) (stages : list PipeSegment) (source : StructDef) :
  codeInfoForField root (QTurtle (mkTurtle name as_ stages)) source
  = match
      pipelineFragments (getMalloyStringForStage root)
        (λ head : bool, if head then [] else [Lit "->"]) stages source true
    with
    | (Return fragments, log) =>
        (Some (mkCodeInfo "nest"
                 (Lit (maybeQuoteIdentifier (orElse as_ name) +:+ " is")
                    :: fragments)),
         log)
    | (Throw error, log) => (None, log ++ [error])
    end.
Proof. reflexivity. Qed.

Lemma getMalloyStringForStage_fields (root : StructDef) (stage : PipeSegment)
    (source : StructDef) :
  getMalloyStringForStage root stage source
  = (stageFragments stage
       (map fst (map (λ f, codeInfoForField root f source) (fields stage))),
     concat (map snd (map (λ f, codeInfoForField root f source) (fields stage)))).
Proof. by destruct stage. Qed.

Lemma stageFragments_runs (stage : PipeSegment) (infos : list (option CodeInfo)) :
  Forall (λ i, info_property i ≠ EmptyString) (omap id infos) →
  stageFragments stage infos
  = [Lit " {"; NEWLINE; INDENT] ++ stageWhere stage
      ++ flat_map writeRun (runs (omap id infos))
      ++ stageLimit stage ++ stageOrderBy stage ++ [OUTDENT; Lit "}"].
Proof.
  intros Hprop. unfold stageFragments.
  destruct (propertyLoop_start infos ([Lit " {"; NEWLINE; INDENT] ++ stageWhere stage)
              Hprop)
    as [[Hnone ->]|(closed & p' & cm' & -> & Hruns & Hp')].
  - rewrite Hnone. cbn [runs flat_map]. by rewrite <- !app_assoc.
  - apply String.eqb_neq in Hp'. rewrite Hp', Hruns, flat_map_app.
    cbn [flat_map]. unfold writeRun at 3. cbn [fst snd]. rewrite app_nil_r.
    by rewrite <- !app_assoc.
Qed.

Lemma propertyFor_keyword (fieldDef : FieldDef) (property : string) :
  propertyFor fieldDef = Return property →
  property ∈ ["nest"; "aggregate"; "group_by"].
Proof.
  destruct fieldDef as [s|t|d]; cbn; [done| |]; intros [= <-].
  - rewrite !elem_of_cons. tauto.
  - destruct (expressionIsCalculation _); rewrite !elem_of_cons; tauto.
Qed.

Lemma codeInfoForField_keyword (root : StructDef) (f : QueryFieldDef)
    (source : StructDef) (info : CodeInfo) :
  fst (codeInfoForField root f source) = Some info →
  info_property info ∈ ["nest"; "aggregate"; "group_by"].
Proof.
  destruct f as [path|fan|[name as_ stages]|d]; cbn [codeInfoForField].
  - destruct (getField root source path) as [fd|]; cbn; [|done].
    destruct (propertyFor fd) as [pr|] eqn:Hpr; cbn; [|done].
    intros [= <-]. by eapply propertyFor_keyword.
  - destruct (getField root source (fan_name fan)) as [fd|]; cbn; [|done].
    destruct (propertyFor fd) as [pr|] eqn:Hpr; cbn; [|done].
    intros [= <-]. by eapply propertyFor_keyword.
  - destruct (pipelineFragments _ _ _ _ _) as [[frs|e] log]; cbn; [|done].
    intros [= <-]. cbn. rewrite !elem_of_cons. tauto.
  - cbn. intros [= <-]. cbn.
    destruct (expressionIsCalculation _); rewrite !elem_of_cons; tauto.
Qed.

Lemma runs_balanced (infos : list CodeInfo) :
  Forall (λ i, Balanced (info_malloy i)) infos →
  Forall (λ run, Forall Balanced run.2) (runs infos).
Proof.
  induction 1 as [|i l Hi _ IH]; [done|]. rewrite runs_cons.
  destruct (runs l) as [|[p ms] rs]; [by repeat constructor|].
  apply Forall_cons in IH as [Hms Hrs]. cbn in Hms.
  destruct (String.eqb (info_property i) p); repeat constructor; done.
Qed.

Lemma pipelineFragments_balanced
    (render : PipeSegment → StructDef → list Fragment * list Exn)
    (separator : bool → list Fragment) (stages : list PipeSegment) :
  Forall (λ s, ∀ src, Balanced (fst (render s src))) stages →
  (∀ head, Balanced (separator head)) →
  ∀ src head fragments,
    fst (pipelineFragments render separator stages src head) = Return fragments →
    Balanced fragments.
Proof.
  intros Hstages Hsep. induction Hstages as [|s l Hs _ IH]; intros src head frs.
  - intros [= <-]. apply Balanced_nil.
  - cbn [pipelineFragments]. specialize (Hs src).
    destruct (render s src) as [fr log]. cbn in Hs.
    destruct (modifySourceForStage s src) as [next|e]; [|done].
    specialize (IH next false).
    destruct (pipelineFragments render separator l next false) as [[rest|e] log'];
      cbn; [|done].
    intros [= <-]. apply Balanced_app; [done|]. apply Balanced_app; [done|].
    by apply IH.
Qed.

Lemma pipelineFragments_throughStages
    (render : PipeSegment → StructDef → list Fragment * list Exn)
    (separator : bool → list Fragment) (stages : list PipeSegment)
    (src : StructDef) (head : bool) :
  match throughStages stages src with
  | Return _ =>
      ∃ fragments, fst (pipelineFragments render separator stages src head)
                   = Return fragments
  | Throw e => fst (pipelineFragments render separator stages src head) = Throw e
  end.
Proof.
  revert src head. induction stages as [|s l IH]; intros src head.
  - by eexists.
  - cbn [throughStages pipelineFragments].
    destruct (render s src) as [fr log].
    destruct (modifySourceForStage s src) as [next|e]; cbn [bindR]; [|done].
    specialize (IH next false).
    destruct (pipelineFragments render separator l next false) as [[rest|e'] log'];
      cbn in *; destruct (throughStages l next); try done; try (by eexists).
Qed.

Lemma text_balanced (root : StructDef) :
  (∀ f src info,
     fst (codeInfoForField root f src) = Some info → Balanced (info_malloy info)) ∧
  (∀ s src, Balanced (fst (getMalloyStringForStage root s src))).
Proof.
  set (P := λ f, ∀ src info,
              fst (codeInfoForField root f src) = Some info →
              Balanced (info_malloy info)).
  set (Q := λ s, ∀ src, Balanced (fst (getMalloyStringForStage root s src))).
  assert (∀ path, P (QName path)) as onName.
  { intros path src info. cbn [codeInfoForField].
    destruct (getField root src path) as [fd|]; cbn; [|done].
    destruct (propertyFor fd); cbn; [|done]. intros [= <-]. apply Balanced_lit. }
  assert (∀ fan, P (QFan fan)) as onFan.
  { intros fan src info. cbn [codeInfoForField].
    destruct (getField root src (fan_name fan)) as [fd|]; cbn; [|done].
    destruct (propertyFor fd); cbn; [|done]. intros [= <-]. cbn [info_malloy].
    apply Balanced_cons; [apply Balanced_lit|].
    destruct (fan_filterList fan) as [[|f fl]|]; try apply Balanced_nil.
    apply (Balanced_cons (Lit " {")); [apply Balanced_lit|].
    apply (Balanced_block (Lit "where:" :: getFiltersString (f :: fl))).
    apply Balanced_cons; [apply Balanced_lit|apply Balanced_getFiltersString]. }
  assert (∀ d, P (QExpr d)) as onExpr.
  { intros d src info. cbn. intros [= <-]. apply Balanced_lit. }
  assert (∀ name as_ stages, Forall Q stages → P (QTurtle (mkTurtle name as_ stages)))
    as onTurtle.
  { intros name as_ stages Hstages src info. rewrite codeInfoForField_turtle.
    pose proof (pipelineFragments_balanced (getMalloyStringForStage root)
                  (λ head : bool, if head then [] else [Lit "->"]) stages Hstages)
      as Hbal.
    destruct (pipelineFragments _ _ stages src true) as [[frs|e] log] eqn:Hfrs;
      cbn; [|done].
    intros [= <-]. cbn [info_malloy].
    apply Balanced_cons; [apply Balanced_lit|].
    apply (Hbal ltac:(intros []; [apply Balanced_nil|apply Balanced_lit]) src true).
    by rewrite Hfrs. }
  assert (∀ ty stageFields fl lim ob by',
            Forall P stageFields → Q (mkSegment ty stageFields fl lim ob by'))
    as onStage.
  { intros ty fs fl lim ob by' Hfs src. rewrite getMalloyStringForStage_fields.
    cbn [fst fields]. set (stage := mkSegment ty fs fl lim ob by').
    set (infos := map fst (map (λ f, codeInfoForField root f src) fs)).
    assert (Forall (λ i, info_property i ≠ EmptyString) (omap id infos)
            ∧ Forall (λ i, Balanced (info_malloy i)) (omap id infos)) as [Hprop Hbal].
    { subst infos. induction Hfs as [|f l Hf _ IH]; [done|].
      cbn [map].
      destruct (fst (codeInfoForField root f src)) as [info|] eqn:Hinfo; [|exact IH].
      change (omap id (Some info :: ?l)) with (info :: omap id l).
      destruct IH as [IH1 IH2]. split; constructor; try done.
      - pose proof (codeInfoForField_keyword _ _ _ _ Hinfo) as Hk.
        rewrite !elem_of_cons in Hk.
        destruct Hk as [->|[->|[->|Hk]]]; [done..|by apply elem_of_nil in Hk].
      - by eapply Hf. }
    rewrite (stageFragments_runs stage infos Hprop).
    apply (Balanced_cons (Lit " {")); [apply Balanced_lit|].
    apply (Balanced_cons NEWLINE); [apply Balanced_newline|].
    assert (∀ a b c d0 : list Fragment,
              a ++ b ++ c ++ d0 ++ [OUTDENT; Lit "}"]
              = (a ++ b ++ c ++ d0) ++ [OUTDENT; Lit "}"]) as Hassoc
      by (intros; by rewrite <- !app_assoc).
    rewrite Hassoc. apply Balanced_block.
    apply Balanced_app; [apply Balanced_stageWhere|]. apply Balanced_app.
    - apply Balanced_flat_map. eapply Forall_impl; [by apply runs_balanced|].
      intros [p ms] Hms. by apply Balanced_writeMalloyForPropertyValues.
    - apply Balanced_app.
      + unfold stageLimit. destruct (limit stage) as [n|]; [|apply Balanced_nil].
        destruct (truthy (Some n)); [|apply Balanced_nil].
        apply Balanced_cons; [apply Balanced_lit|apply Balanced_newline].
      + unfold stageOrderBy.
        destruct (type stage), (orderBy stage) as [[|o os]|]; try apply Balanced_nil.
        do 2 (apply Balanced_cons; [apply Balanced_lit|]). apply Balanced_newline. }
  split; [intros f; by apply (field_tree_ind P Q)
         |intros s; by apply (stage_tree_ind P Q)].
Qed.

(** X17: the text of a query does not fail on its layout.  [getMalloyString]
    throws exactly when the compiler cannot take the schema through a stage
    of the root pipeline, and then with the compiler's error; otherwise it
    returns a text, whatever fields fail to resolve and however deep the
    nested queries are. *)
Theorem getMalloyString_fails_with_compiler_only (root : StructDef)
    (query : TurtleDef) (forSource : bool) (name : option string) :
  match throughStages (pipeline query) root with
  | Return _ => ∃ text, fst (getMalloyString root query forSource name) = Return text
  | Throw e => fst (getMalloyString root query forSource name) = Throw e
  end.
Proof.
  unfold getMalloyString.
  pose proof (pipelineFragments_throughStages (getMalloyStringForStage root)
                (λ _ : bool, if forSource then [] else [Lit " ->"])
                (pipeline query) root true) as Hthrough.
  pose proof (pipelineFragments_balanced (getMalloyStringForStage root)
                (λ _ : bool, if forSource then [] else [Lit " ->"])
                (pipeline query)) as Hbal.
  destruct (pipelineFragments _ _ (pipeline query) root true) as [[frs|e] log]
    eqn:Hpipe;
    destruct (throughStages (pipeline query) root) as [s|e'];
    cbn [fst bindR] in *; try done.
  - assert (Balanced frs) as Hfrs.
    { apply (Hbal ltac:(apply Forall_forall; intros s' _ src;
                        apply (proj2 (text_balanced root)))
                  ltac:(intros _; destruct forSource;
                        [apply Balanced_nil|apply Balanced_lit]) root true).
      by rewrite Hpipe. }
    unfold codeFromFragments.
    match goal with
    | |- ∃ _, codeFrom (Lit ?init :: frs) _ _ _ = _ =>
        destruct (Balanced_cons (Lit init) frs (Balanced_lit init) Hfrs []
                    EmptyString 0%Z true ltac:(done)) as (txt & sol & Htext)
    end.
    rewrite app_nil_r in Htext. rewrite Htext. by eexists.
  - by destruct Hthrough.
  - by injection Hthrough as ->.
Qed.

(** X18: the text of a stage is its filter clause, then one keyword clause
    for every run of neighbouring fields under the same keyword, the fields
    that do not resolve left out, then the limit and the ordering. *)
Theorem stage_text_by_runs (root : StructDef) (stage : PipeSegment)
    (source : StructDef) :
  fst (getMalloyStringForStage root stage source)
  = [Lit " {"; NEWLINE; INDENT] ++ stageWhere stage
      ++ flat_map writeRun
           (runs (omap (λ f, fst (codeInfoForField root f source)) (fields stage)))
      ++ stageLimit stage ++ stageOrderBy stage ++ [OUTDENT; Lit "}"].
Proof.
  rewrite getMalloyStringForStage_fields.
  destruct stage as [ty fs fl lim ob by']. cbn [fst fields].
  set (stage := mkSegment ty fs fl lim ob by').
  set (infos := map fst (map (λ f, codeInfoForField root f source) fs)).
  assert (omap id infos = omap (λ f, fst (codeInfoForField root f source)) fs) as Hinfos.
  { subst infos. induction fs as [|f l IH]; [done|]. cbn [map].
    change (omap ?g (?x :: ?l)) with (match g x with Some y => y :: omap g l
                                                 | None => omap g l end).
    cbn [id]. by rewrite IH. }
  rewrite <- Hinfos. apply stageFragments_runs.
  rewrite Hinfos. clear. induction fs as [|f l IH]; [done|].
  change (omap ?g (?x :: ?l)) with (match g x with Some y => y :: omap g l
                                               | None => omap g l end).
  cbv beta.
  destruct (fst (codeInfoForField root f source)) as [info|] eqn:Hinfo; [|exact IH].
  constructor; [|exact IH].
  pose proof (codeInfoForField_keyword _ _ _ _ Hinfo) as Hk.
  rewrite !elem_of_cons in Hk.
  destruct Hk as [->|[->|[->|Hk]]]; [done..|by apply elem_of_nil in Hk].
Qed.

End QueryText.

(** ** Loading into a new builder, order-by indices, references *)

Lemma filter_none_existing {A B} (p : B → A → bool) (l : list A) :
  List.filter (λ x, negb (existsb (λ y, p y x) [])) l = l.
Proof. induction l as [|x l IH]; [done|]. cbn in *. by rewrite IH. Qed.

Lemma filter_all {A} (l : list A) : List.filter (λ _, true) l = l.
Proof. induction l as [|x l IH]; [done|]. cbn. by rewrite IH. Qed.

Lemma mergeStage_emptyStage (stage : PipeSegment) :
  type stage = reduce →
  limit stage ≠ Some 0%Z →
  by_ stage = None ∨ orderBy stage = None →
  mergeStage emptyStage stage = stage.
Proof.
  destruct stage as [ty fs fl lim ob by']. cbn. intros -> Hlim Hby.
  unfold mergeStage. cbn [by_ filterList limit orderBy fields].
  assert (map jsonCopy fs = fs) as Hfs by apply map_id.
  assert (truthy lim = match lim with Some _ => true | None => false end) as Htruthy.
  { destruct lim as [n|]; [|done]. cbn. destruct (Z.eqb_spec n 0); [by subst|done]. }
  rewrite Htruthy.
  destruct Hby as [->| ->]; destruct fl as [fl|], lim as [n|]; cbn;
    try destruct ob as [ob|]; try destruct by' as [by'|]; cbn;
    rewrite ?filter_none_existing, ?filter_all, ?Hfs, ?app_nil_r; reflexivity.
Qed.

Section More.
Context {malloy : Malloy}.

(** X19: [loadQuery] into a new builder reproduces the definition: the
    pipeline is the definition's, stage for stage, and the query has its
    display name, when the first stage of the definition is of the reduce
    kind, has no limit 0 and not both a grouping rule and an ordering. *)
Theorem loadQuery_into_new_builder (queryPath : string) (source : StructDef)
    (t : TurtleDef) (first : PipeSegment) (later : list PipeSegment) :
  getField source source queryPath = Return (FTurtle t) →
  pipeline t = first :: later →
  type first = reduce →
  limit first ≠ Some 0%Z →
  by_ first = None ∨ orderBy first = None →
  loadQuery queryPath (newBuilder source)
  = (Return (), mkBuilder (mkTurtle (turtleName t) None (pipeline t)) source []).
Proof.
  intros Hdef Hp Hty Hlim Hby.
  unfold loadQuery, bind at 1, reading. cbn [_source newBuilder]. rewrite Hdef.
  pose proof (loadStages_merges (pipeline t) [] [emptyStage] (newBuilder source)
                eq_refl) as Hload.
  rewrite Hp in Hload |- *. cbn [mergeable mergedPipeline length app] in Hload.
  unfold isReduce in Hload. rewrite Hty in Hload. cbn [type emptyStage andb] in Hload.
  unfold bind. rewrite (Hload eq_refl).
  rewrite mergeStage_emptyStage by done.
  by destruct later.
Qed.


(** X21: through a reference in stage [s] of the root pipeline to a nested
    query that the root schema defines, [addFilter] on stage [s] of that
    query puts the definition in the place of the reference, with the filter
    added to the end of the filter list of its stage [s]; the other fields of
    the root stage, and what else the root stage holds, stay. *)
Theorem addFilter_through_root_reference (s f : nat) (x : string)
    (filter : FilterExpression) (b : QueryBuilder) (stage nested : PipeSegment)
    (src : StructDef) (t' t : TurtleDef) :
  pipeline (query b) !! s = Some stage →
  fields stage !! f = Some (QName x) →
  sourceAfter (pipeline (query b)) s (_source b) = Return src →
  getField (_source b) src x = Return (FTurtle t') →
  findField (_source b) x = Some (FTurtle t) →
  pipeline t !! s = Some nested →
  let new := set_filterList nested (Some (orEmpty (filterList nested) ++ [filter])) in
  ∃ b',
    addFilter (pathOf [(s, f)] s) filter b = (Return (), b') ∧
    stageAtPath (pathOf [(s, f)] s) b' = Return (Some new) ∧
    stageAtPath (pathOf [] s) b'
    = Return (Some (set_fields stage
                      (<[f := QTurtle (set_pipeline t (<[s := new]> (pipeline t)))]>
                         (fields stage)))).
Proof.
  intros Hstage Hfield Hsrc Hdef Hfound Hnested new.
  destruct (autoExpand_promotes s f x b stage src t' t Hstage Hfield Hsrc Hdef Hfound)
    as (b1 & Hexp & Hroot & Hsource).
  pose proof (autoExpand_returns _ _ _ _ Hexp) as Hst1. rewrite Hnested in Hst1.
  assert (stageAtPath (pathOf [(s, f)] s) (written (pathOf [(s, f)] s) new b1)
          = Return (Some new)) as Hst2 by (by eapply stageAtPath_written).
  exists (written (pathOf [(s, f)] s) new b1).
  split; [|split; [exact Hst2|]].
  { unfold addFilter, bind. rewrite Hexp, Hnested. reflexivity. }
  pose proof (lookup_lt_Some _ _ _ Hfield) as Hf.
  unfold stageAtPath in Hroot. cbn in Hroot. injection Hroot as Hroot.
  unfold stageAtPath, written. destruct b1 as [[n a pl] src1 log1].
  cbn in Hroot, Hsource |- *. rewrite Hroot.
  replace (fields (set_fields stage (<[f:=QTurtle t]> (fields stage))))
    with (<[f:=QTurtle t]> (fields stage)) by (by destruct stage).
  rewrite list_lookup_insert_eq by done.
  rewrite list_lookup_insert_eq by (by eapply lookup_lt_Some).
  do 2 f_equal. destruct stage; cbn. f_equal.
  by rewrite list_insert_insert_eq.
Qed.

End More.

(** ** Editing a filter, and whether the query can run *)

Lemma arraySet_splice {A} (k : nat) (x : A) (l : list A) :
  k ≤ length l → arraySet k x l = Return (take k l ++ x :: drop (S k) l).
Proof.
  intros Hk. unfold arraySet. destruct (Nat.ltb_spec k (length l)) as [Hlt|Hge].
  - f_equal. by apply insert_take_drop.
  - assert (k = length l) as -> by lia. rewrite Nat.eqb_refl. f_equal.
    rewrite firstn_all, drop_ge by lia. done.
Qed.

Section FiltersAndRunning.
Context {malloy : Malloy}.

(** X22: [editFilter] on the filters of a stage puts the new filter in the
    place of the one at the index, or behind the last one when the index is
    the number of filters, and leaves the rest of the stage alone.  A stage
    without a filter list, and with a field index a field that is not a
    refined one, are refused, and the builder stays as it was. *)
Theorem editFilter_replaces (p : StagePath) (k : nat) (filter : FilterExpression)
    (b : QueryBuilder) (stage : PipeSegment) :
  stageAtPath p b = Return (Some stage) →
  (∀ filters, filterList stage = Some filters → k ≤ length filters →
     ∃ b' stage',
       editFilter p None k filter b = (Return (), b') ∧
       stageAtPath p b' = Return (Some stage') ∧
       filterList stage' = Some (take k filters ++ filter :: drop (S k) filters) ∧
       fields stage' = fields stage ∧ limit stage' = limit stage ∧
       orderBy stage' = orderBy stage) ∧
  (filterList stage = None →
   editFilter p None k filter b = (Throw (Error "Stage has no filters."), b)) ∧
  (∀ fi f, fields stage !! fi = Some f → (∀ fan, f ≠ QFan fan) →
     editFilter p (Some fi) k filter b
     = (Throw (Error "Cannot edit filter on non FAN."), b)).
Proof.
  intros Hst. split; [|split].
  - intros filters Hfl Hk. eexists _, _. split; [|split].
    + unfold editFilter, bind. rewrite (stageRef_resolved _ _ _ Hst), Hfl.
      unfold lift. rewrite (arraySet_splice k filter filters Hk). reflexivity.
    + by eapply stageAtPath_written.
    + by destruct stage.
  - intros Hfl. unfold editFilter, bind.
    by rewrite (stageRef_resolved _ _ _ Hst), Hfl.
  - intros fi f Hf Hnot. unfold editFilter, bind.
    rewrite (stageRef_resolved _ _ _ Hst), Hf.
    destruct f as [x|fan|t|d]; try done. by destruct (Hnot fan).
Qed.

(** X23: after [addField] has put a name that resolves into the first stage
    of the root pipeline, [canRun] answers yes. *)
Theorem canRun_after_addField (x : string) (b : QueryBuilder) (stage : PipeSegment)
    (d : FieldDef) :
  stageAtPath (pathOf [] 0) b = Return (Some stage) →
  getField (_source b) (_source b) x = Return d →
  ∃ b', addField (pathOf [] 0) x b = (Return (), b') ∧ canRun b' = (Return true, b').
Proof.
  intros Hst Hd.
  destruct (insertField_places (pathOf [] 0) (QName x) b b stage (_source b) d)
    as (i & _ & Hins); [by apply autoExpand_resolved|done..|].
  eexists. split; [exact Hins|].
  set (stage1 := set_fields stage _).
  assert (stageAtPath (pathOf [] 0) (written (pathOf [] 0) stage1 b)
          = Return (Some stage1)) as Hst1 by (by eapply stageAtPath_written).
  unfold canRun, bind, getPipeline, lift.
  unfold stageAtPath in Hst1. cbn in Hst1 |- *. injection Hst1 as ->. cbn.
  do 2 f_equal. subst stage1.
  replace (fields (set_fields stage (spliceIn i (QName x) (fields stage))))
    with (spliceIn i (QName x) (fields stage)) by (by destruct stage).
  unfold spliceIn. rewrite length_app. cbn. by rewrite Nat.add_succ_r.
Qed.

End FiltersAndRunning.

(** ** The further properties at work *)

Section MoreDemo.
#[local] Existing Instance demoMalloy.
#[local] Existing Instance demoText.

Lemma addFilter_removeFilter_witness :
  stageAtPath rootStage filteredBuilder = Return (Some demoFiltered) ∧
  ∃ b1,
    addFilter rootStage adults filteredBuilder = (Return (), b1) ∧
    removeFilter rootStage 2 None b1 = (Return (), filteredBuilder).
Proof.
  split; [reflexivity|].
  destruct (addFilter_removeFilter rootStage adults filteredBuilder demoFiltered eq_refl)
    as (b1 & stage1 & b2 & Hadd & _ & _ & Hremove & _ & Hsame).
  exists b1. split; [exact Hadd|].
  rewrite (Hsame (ex_intro _ [adults; known] eq_refl)) in Hremove. exact Hremove.
Defined.

Lemma addOrderBy_removeOrderBy_witness :
  stageAtPath rootStage orderedBuilder = Return (Some orderedStage) ∧
  type orderedStage = reduce ∧
  fields orderedStage !! 0 = Some (QName "age") ∧
  ∃ b1 stage1,
    addOrderBy rootStage 0 (Some desc) orderedBuilder = (Return (), b1) ∧
    stageAtPath rootStage b1 = Return (Some stage1) ∧
    orderBy stage1
    = Some [mkOrderBy (ByName "age") (Some asc); mkOrderBy (ByName "age") (Some desc)] ∧
    removeOrderBy rootStage 1 b1 = (Return (), orderedBuilder).
Proof.
  split; [reflexivity|]. split; [reflexivity|]. split; [reflexivity|].
  destruct (addOrderBy_removeOrderBy rootStage 0 (Some desc) orderedBuilder
              orderedStage (QName "age") eq_refl eq_refl eq_refl)
    as (b1 & stage1 & b2 & Hadd & Hst & Horders & Hremove & _ & Hsame).
  exists b1, stage1. split; [exact Hadd|]. split; [exact Hst|].
  split; [exact Horders|].
  rewrite (Hsame (ex_intro _ [mkOrderBy (ByName "age") (Some asc)] eq_refl))
    in Hremove.
  exact Hremove.
Defined.

Lemma addStage_removeStage_witness :
  pipeline (query regionBuilder) ≠ [] ∧
  ∃ b1,
    addStage None None regionBuilder = (Return (), b1) ∧
    removeStage (pathOf [] 1) b1 = (Return (), regionBuilder).
Proof.
  split; [discriminate|].
  destruct (addStage_removeStage regionBuilder ltac:(discriminate))
    as (b1 & Hadd & _ & Hremove).
  exists b1. split; [exact Hadd|exact Hremove].
Defined.

(** The limit 0 counts as a limit for [hasLimit]. *)
Lemma addLimit_removeLimit_witness :
  stageAtPath rootStage regionBuilder
  = Return (Some (mkSegment reduce [QName "age"; QName "region"] None None None None)) ∧
  ∃ b1,
    addLimit rootStage 0 None None regionBuilder = (Return (), b1) ∧
    hasLimit rootStage b1 = (Return true, b1) ∧
    removeLimit rootStage b1 = (Return (), regionBuilder).
Proof.
  split; [reflexivity|].
  destruct (addLimit_removeLimit rootStage 0 regionBuilder
              (mkSegment reduce [QName "age"; QName "region"] None None None None)
              eq_refl eq_refl)
    as (b1 & b2 & Hadd & Hhas & Hremove & _ & _ & Hsame).
  exists b1. split; [exact Hadd|]. split; [exact Hhas|].
  rewrite (Hsame eq_refl) in Hremove. exact Hremove.
Defined.

Lemma toggleField_flips_hasField_witness :
  stageAtPath rootStage regionBuilder
  = Return (Some (mkSegment reduce [QName "age"; QName "region"] None None None None)) ∧
  sourceForStageAtPath (Some rootStage) regionBuilder = Return demoSource ∧
  getField demoSource demoSource "region" = Return (dimension "region" "string") ∧
  ∃ b',
    hasField rootStage "region" regionBuilder = (Return true, regionBuilder) ∧
    toggleField rootStage "region" regionBuilder = (Return (), b') ∧
    hasField rootStage "region" b' = (Return false, b').
Proof.
  split; [reflexivity|]. split; [reflexivity|]. split; [reflexivity|].
  destruct (toggleField_flips_hasField rootStage "region" regionBuilder
              (mkSegment reduce [QName "age"; QName "region"] None None None None)
              demoSource (dimension "region" "string") eq_refl eq_refl eq_refl)
    as (b' & h & Hhas & Htoggle & Hhas').
  - intros i [= <-]. reflexivity.
  - exists b'. assert (h = true) as -> by (by injection Hhas as ->).
    split; [exact Hhas|]. split; [exact Htoggle|exact Hhas'].
Defined.

Lemma renameField_order_follows_witness :
  stageAtPath rootStage orderedBuilder = Return (Some orderedStage) ∧
  type orderedStage = reduce ∧
  fields orderedStage !! 0 = Some (QName "age") ∧
  "years" ≠ EmptyString ∧
  ∃ b' stage',
    renameField rootStage 0 "years" orderedBuilder = (Return (), b') ∧
    stageAtPath rootStage b' = Return (Some stage') ∧
    ∃ o', orEmpty (orderBy stage') !! 0 = Some o' ∧
          dir o' = Some asc ∧ orderRefers "years" o' = true.
Proof.
  split; [reflexivity|]. split; [reflexivity|]. split; [reflexivity|].
  split; [discriminate|].
  destruct (renameField_order_follows rootStage 0 "years" orderedBuilder orderedStage
              (QName "age") eq_refl eq_refl eq_refl ltac:(discriminate))
    as (b' & stage' & f' & Hrun & Hst & _ & _ & _ & Horders).
  exists b', stage'. split; [exact Hrun|]. split; [exact Hst|].
  destruct (Horders 0 (mkOrderBy (ByName "age") (Some asc)) eq_refl)
    as (o' & Ho' & Hdir & Hrefers & _).
  exists o'. split; [exact Ho'|]. split; [exact Hdir|exact (Hrefers eq_refl)].
Defined.

Lemma reorderFields_permutes_witness :
  stageAtPath rootStage regionBuilder
  = Return (Some (mkSegment reduce [QName "age"; QName "region"] None None None None)) ∧
  [1; 0] ≡ₚ seq 0 2 ∧
  ∃ b' newFields,
    reorderFields rootStage [1; 0] regionBuilder = (Return (), b') ∧
    newFields ≡ₚ [QName "age"; QName "region"] ∧
    newFields !! 0 = Some (QName "region").
Proof.
  split; [reflexivity|]. split; [apply perm_swap|].
  destruct (reorderFields_permutes rootStage [1; 0] regionBuilder
              (mkSegment reduce [QName "age"; QName "region"] None None None None)
              eq_refl (perm_swap 0 1 []))
    as (b' & newFields & Hrun & _ & Hperm & Hat).
  exists b', newFields. split; [exact Hrun|]. split; [exact Hperm|].
  exact (Hat 0 1 eq_refl).
Defined.

Lemma reduce_only_calls_refuse_witness :
  stageAtPath rootStage listingBuilder = Return (Some listingStage) ∧
  type listingStage ≠ reduce ∧
  addLimit rootStage 3 None None listingBuilder = (Throw notHandled, listingBuilder) ∧
  renameField rootStage 0 "years" listingBuilder = (Throw notHandled, listingBuilder).
Proof.
  split; [reflexivity|]. split; [discriminate|].
  destruct (reduce_only_calls_refuse rootStage listingBuilder listingStage 3 None None
              0 "years" adults None eq_refl ltac:(discriminate))
    as (_ & Hlimit & _ & _ & _ & Hrename & _).
  split; [exact Hlimit|exact Hrename].
Defined.

Lemma addFilterToField_on_bare_name_witness :
  stageAtPath rootStage regionBuilder
  = Return (Some (mkSegment reduce [QName "age"; QName "region"] None None None None)) ∧
  ∃ b' stage',
    addFilterToField rootStage 0 adults (Some "adult") regionBuilder = (Return (), b') ∧
    stageAtPath rootStage b' = Return (Some stage') ∧
    fields stage' = [QFan (mkFan "age" (Some "adult") (Some [adults])); QName "region"].
Proof.
  split; [reflexivity|].
  destruct (addFilterToField_on_bare_name rootStage 0 adults regionBuilder
              (mkSegment reduce [QName "age"; QName "region"] None None None None)
              "age" eq_refl eq_refl eq_refl) as [Halias _].
  destruct (Halias "adult") as (b' & stage' & Hrun & Hst & Hfields & _).
  exists b', stage'. split; [exact Hrun|]. split; [exact Hst|exact Hfields].
Defined.

(** A builder with a filter and no field keeps the filter under
    [replaceQuery]. *)
Lemma replaceQuery_carries_filters_witness :
  ∃ b',
    replaceQuery by_region (after (addFilter rootStage adults) demoBuilder)
    = (Return (), b') ∧
    pipeline (query b')
    = [mkSegment reduce [QName "region"; QName "total"] (Some [adults]) (Some 10%Z)
         None None].
Proof.
  destruct (replaceQuery_carries_filters by_region
              (after (addFilter rootStage adults) demoBuilder))
    as (b' & carried & Hrun & _ & _ & Hpipeline & Hcarried & _).
  exists b'. split; [exact Hrun|].
  rewrite (Hcarried (mkSegment reduce [] (Some [adults]) None None None)
             eq_refl eq_refl) in Hpipeline.
  exact Hpipeline.
Defined.

(** The filters of [filteredBuilder] are dropped, its stage has a field; those
    of a builder with filters alone are carried over. *)
Example replaceQuery_drops_or_carries :
  pipeline (query (after (replaceQuery by_region) filteredBuilder))
  = [mkSegment reduce [QName "region"; QName "total"] (Some []) (Some 10%Z) None None] ∧
  pipeline (query (after (replaceQuery by_region)
                     (after (addFilter rootStage adults) demoBuilder)))
  = [mkSegment reduce [QName "region"; QName "total"] (Some [adults]) (Some 10%Z)
       None None].
Proof. split; reflexivity. Qed.

Lemma loadQuery_fails_midway_witness :
  getField demoSource demoSource "top_regions" = Return (FTurtle top_regions) ∧
  loadQuery "top_regions" mixedBuilder
  = (Throw (Error "Cannot load query with non-reduce stages"),
     setQueryOf mixedBuilder
       (mkTurtle "mixed" None
          [mkSegment reduce [QName "region"; QName "total"; QName "age"]
             None None None None;
           listingStage])).
Proof.
  split; [reflexivity|].
  exact (loadQuery_fails_midway "top_regions" mixedBuilder top_regions
           [mkSegment reduce [QName "age"] None None None None]
           [mkSegment reduce [QName "region"; QName "total"] None None None None]
           listingStage (mkSegment reduce [QName "region"] None (Some 5%Z) None None)
           [] [] eq_refl eq_refl eq_refl eq_refl eq_refl eq_refl).
Defined.

(** The reference to [by_region] inside the nested query [detail] gets a
    second stage. *)
Lemma addStage_promotes_reference_witness :
  stageAtPath (pathOf [(0, 1)] 0) nestedBuilder
  = Return (Some (mkSegment reduce [QName "by_region"] None None None None)) ∧
  ∃ b' stage',
    addStage (Some (pathOf [(0, 1)] 0)) (Some 0) nestedBuilder = (Return (), b') ∧
    stageAtPath (pathOf [(0, 1)] 0) b' = Return (Some stage') ∧
    fields stage'
    = [QTurtle (mkTurtle "by_region" None
                  [mkSegment reduce [QName "region"; QName "total"] None (Some 10%Z)
                     None None;
                   emptyStage])].
Proof.
  split; [reflexivity|].
  destruct (addStage_promotes_reference (pathOf [(0, 1)] 0) 0 nestedBuilder
              (mkSegment reduce [QName "by_region"] None None None None)
              "by_region" demoSource by_region eq_refl eq_refl eq_refl eq_refl)
    as [Hpromote _].
  destruct (Hpromote by_region eq_refl) as (b' & stage' & Hrun & Hst & Hfields & _).
  exists b', stage'. split; [exact Hrun|]. split; [exact Hst|exact Hfields].
Defined.

Lemma stage_edit_frame_witness :
  stagePathOf (OpAddLimit (pathOf [] 1) 3 None None) = Some (pathOf [] 1) ∧
  0 ≠ 1 ∧
  pipeline (query (snd (perform (OpAddLimit (pathOf [] 1) 3 None None) twoStageBuilder)))
    !! 0
  = Some (mkSegment reduce [QName "age"] None None None None).
Proof.
  split; [reflexivity|]. split; [discriminate|].
  exact (stage_edit_frame (OpAddLimit (pathOf [] 1) 3 None None) 1 0 twoStageBuilder
           eq_refl ltac:(discriminate)).
Defined.

Lemma stage_edit_keeps_shape_witness :
  stagePathOf (OpAddField (pathOf [(0, 1)] 0) "region") = Some (pathOf [(0, 1)] 0) ∧
  length (pipeline (query (snd (perform (OpAddField (pathOf [(0, 1)] 0) "region")
                                  nestedBuilder)))) = 1 ∧
  tname (query (snd (perform (OpAddField (pathOf [(0, 1)] 0) "region") nestedBuilder)))
  = "new_query".
Proof.
  split; [reflexivity|].
  exact (stage_edit_keeps_shape (OpAddField (pathOf [(0, 1)] 0) "region")
           (pathOf [(0, 1)] 0) nestedBuilder eq_refl).
Defined.

Lemma loadQuery_into_new_builder_witness :
  getField demoSource demoSource "by_region" = Return (FTurtle by_region) ∧
  loadQuery "by_region" (newBuilder demoSource)
  = (Return (), mkBuilder by_region demoSource []).
Proof.
  split; [reflexivity|].
  exact (loadQuery_into_new_builder "by_region" demoSource by_region
           (mkSegment reduce [QName "region"; QName "total"] None (Some 10%Z) None None)
           [] eq_refl eq_refl eq_refl ltac:(discriminate) (or_introl eq_refl)).
Defined.


Lemma addFilter_through_root_reference_witness :
  pipeline (query referenceBuilder) !! 0
  = Some (mkSegment reduce [QName "age"; QName "total"; QName "by_region"]
            None None None None) ∧
  ∃ b',
    addFilter (pathOf [(0, 2)] 0) adults referenceBuilder = (Return (), b') ∧
    stageAtPath (pathOf [(0, 2)] 0) b'
    = Return (Some (mkSegment reduce [QName "region"; QName "total"]
                      (Some [adults]) (Some 10%Z) None None)) ∧
    stageAtPath (pathOf [] 0) b'
    = Return (Some (mkSegment reduce
                      [QName "age"; QName "total";
                       QTurtle (mkTurtle "by_region" None
                                  [mkSegment reduce [QName "region"; QName "total"]
                                     (Some [adults]) (Some 10%Z) None None])]
                      None None None None)).
Proof.
  split; [reflexivity|].
  exact (addFilter_through_root_reference 0 2 "by_region" adults referenceBuilder
           (mkSegment reduce [QName "age"; QName "total"; QName "by_region"]
              None None None None)
           (mkSegment reduce [QName "region"; QName "total"] None (Some 10%Z)
              None None)
           demoSource by_region by_region
           eq_refl eq_refl eq_refl eq_refl eq_refl eq_refl).
Defined.

Lemma editFilter_replaces_witness :
  stageAtPath rootStage filteredBuilder = Return (Some demoFiltered) ∧
  ∃ b' stage',
    editFilter rootStage None 2 adults filteredBuilder = (Return (), b') ∧
    stageAtPath rootStage b' = Return (Some stage') ∧
    filterList stage' = Some [adults; known; adults].
Proof.
  split; [reflexivity|].
  destruct (editFilter_replaces rootStage 2 adults filteredBuilder demoFiltered eq_refl)
    as [Hedit _].
  destruct (Hedit [adults; known] eq_refl (le_n 2))
    as (b' & stage' & Hrun & Hst & Hfilters & _).
  exists b', stage'. split; [exact Hrun|]. split; [exact Hst|exact Hfilters].
Defined.

Lemma canRun_after_addField_witness :
  stageAtPath (pathOf [] 0) demoBuilder = Return (Some emptyStage) ∧
  getField demoSource demoSource "age" = Return (dimension "age" "number") ∧
  canRun demoBuilder = (Return false, demoBuilder) ∧
  ∃ b', addField (pathOf [] 0) "age" demoBuilder = (Return (), b') ∧
        canRun b' = (Return true, b').
Proof.
  split; [reflexivity|]. split; [reflexivity|]. split; [reflexivity|].
  exact (canRun_after_addField "age" demoBuilder emptyStage (dimension "age" "number")
           eq_refl eq_refl).
Defined.

(** The text of a query with a reference, a refined field and a field that
    does not resolve. *)
Example text_of_reference_builder :
  getQueryStringForModel demoSource (query referenceBuilder)
  = (Return ("query: new_query is orders -> {" +:+ newline +:+
             "  group_by: age" +:+ newline +:+
             "  aggregate: total" +:+ newline +:+
             "  nest: by_region" +:+ newline +:+
             "}"), []).
Proof. reflexivity. Qed.

Example text_of_refined_builder :
  getQueryStringForSource demoSource (query refinedBuilder) "adults"
  = (Return ("query: adults is {" +:+ newline +:+
             "  group_by: adult is age {where:" +:+ newline +:+
             "      age > 17," +:+ newline +:+
             "      name != null" +:+ newline +:+
             "  }" +:+ newline +:+
             "}"), []).
Proof. reflexivity. Qed.

(** The filter clause in the text of a whole query, with two predicates and
    with one. *)
Example text_of_filtered_builder :
  getQueryStringForModel demoSource (query filteredBuilder)
  = (Return ("query: new_query is orders -> {" +:+ newline +:+
             "  where:" +:+ newline +:+
             "    age > 17," +:+ newline +:+
             "    name != null" +:+ newline +:+
             "  group_by: age" +:+ newline +:+
             "}"), []) ∧
  getQueryStringForModel demoSource
    (query (after (removeFilter rootStage 1 None) filteredBuilder))
  = (Return ("query: new_query is orders -> {" +:+ newline +:+
             "  where: age > 17" +:+ newline +:+
             "  group_by: age" +:+ newline +:+
             "}"), []).
Proof. split; reflexivity. Qed.

Example text_of_ghost_builder :
  getQueryStringForModel demoSource (query ghostBuilder)
  = (Return ("query: new_query is orders -> {" +:+ newline +:+
             "  aggregate: total" +:+ newline +:+
             "}"), [Error "Could not find ghost"]).
Proof. reflexivity. Qed.

End MoreDemo.
